(** * rtnews-ui: the client-side synchronisation layer

    A shallow embedding of [api.ts] (snippet normalisation, the request
    gateway, the article cache, the active-article poller, the article
    mutations) and of [store.tsx] (the notification queue), followed by
    the properties proved about them. *)

From Stdlib Require Import ZArith NArith Ascii Lia.
From Stdlib Require Import Floats.SpecFloat.
From Equations Require Import Equations.
From stdpp Require Import base option list strings gmap fin_maps sorting.

Set Default Proof Using "Type".
Open Scope Z_scope.

(** ** JavaScript strings

    A JavaScript string is a sequence of UTF-16 code units; a regular
    expression without the [u] flag matches code unit by code unit. *)

Module JsString.

Definition code_unit := N.
Definition t := list code_unit.

(** The class [\s]: ECMAScript WhiteSpace and LineTerminator. *)
Definition is_whitespace (c : N) : bool :=
  ((9 <=? c) && (c <=? 13) || (c =? 32) || (c =? 160) || (c =? 0x1680)
   || (0x2000 <=? c) && (c <=? 0x200a)
   || (c =? 0x2028) || (c =? 0x2029) || (c =? 0x202f) || (c =? 0x205f)
   || (c =? 0x3000) || (c =? 0xfeff))%N.

Definition backslash : N := 92%N.
Definition space : N := 32%N.

(** One step of [(\t|\s)]: a tab or a whitespace code unit. *)
Definition tab_or_space (c : N) : bool := (c =? 9)%N || is_whitespace c.

(** The class [[^\s\\]]. *)
Definition long_word_char (c : N) : bool :=
  negb (is_whitespace c) && negb (c =? backslash)%N.

(** ["&shy;"] *)
Definition shy : t := [38; 115; 104; 121; 59]%N.

(** What is left once a greedy [(\t|\s)+] has consumed its run. *)
Fixpoint skip_whitespace (s : t) : t :=
  match s with
  | c :: r => if tab_or_space c then skip_whitespace r else s
  | [] => []
  end.

(** [s.replace(whitespaceRegex, " ")] with
    [whitespaceRegex = /(\t|\s)+/g]. *)
Equations? replace_whitespace (s : t) : t by wf (length s) lt :=
  replace_whitespace [] := [];
  replace_whitespace (c :: r) with tab_or_space c := {
    | true := space :: replace_whitespace (skip_whitespace r);
    | false := c :: replace_whitespace r }.
Proof.
  all: simpl; try lia.
  assert (Hskip : ∀ u, (length (skip_whitespace u) <= length u)%nat).
  { induction u as [|x u IH]; simpl; [lia|]. destruct (tab_or_space x); simpl; lia. }
  specialize (Hskip r). lia.
Qed.

(** Does [/([^\s\\]{16})/] match at the start of [s]? *)
Definition long_word_at (s : t) : bool :=
  (16 <=? length (take 16 s))%nat && forallb long_word_char (take 16 s).

(** [s.replace(longWordRegex, "$1&shy;")] with
    [longWordRegex = /([^\s\\]{16})/gm]. *)
Equations? replace_long_words (s : t) : t by wf (length s) lt :=
  replace_long_words [] := [];
  replace_long_words (c :: r) with long_word_at (c :: r) := {
    | true := take 16 (c :: r) ++ shy ++ replace_long_words (drop 16 (c :: r));
    | false := c :: replace_long_words r }.
Proof. all: simpl; try rewrite length_drop; lia. Qed.

(** The rewriting of [output.snippet] in [processArticle]. *)
Definition normalize_snippet (s : t) : t :=
  replace_long_words (replace_whitespace s).

(** Some position of [s] starts sixteen consecutive code units of
    [[^\s\\]]. *)
Fixpoint has_long_word (s : t) : bool :=
  match s with
  | [] => false
  | c :: r => long_word_at s || has_long_word r
  end.

(** The number of leading code units of [[^\s\\]]. *)
Fixpoint word_run (s : t) : nat :=
  match s with
  | c :: r => if long_word_char c then S (word_run r) else 0
  | [] => 0
  end.

(** [s] does not start with whitespace. *)
Definition starts_solid (s : t) : bool :=
  match s with
  | c :: _ => negb (tab_or_space c)
  | [] => true
  end.

(** Every whitespace code unit of [s] is a single space that no
    whitespace follows. *)
Fixpoint collapsed (s : t) : bool :=
  match s with
  | [] => true
  | c :: r =>
      (if tab_or_space c then (c =? space)%N && starts_solid r else true) && collapsed r
  end.

(** Conversion from an ASCII literal, for examples. *)
Fixpoint of_string (s : string) : t :=
  match s with
  | EmptyString => []
  | String a r => N_of_ascii a :: of_string r
  end.

End JsString.

(** ** Promises

    The three states of a JavaScript promise, as seen by the code that
    awaits it. *)

Inductive Promise (A E : Type) : Type :=
| Resolved (a : A)
| Rejected (e : E)
| Pending.
Arguments Resolved {A E} a.
Arguments Rejected {A E} e.
Arguments Pending {A E}.

(** ** Numbers

    A JavaScript number is an IEEE 754 double. The numbers that the
    module computes with, the positions of the position table, are
    modelled by [spec_float] of the Standard Library at precision 53
    and maximal exponent 1024: zeros, infinities, one [NaN], and the
    finite doubles with their mantissa and exponent. *)

Module Number.

Definition t := spec_float.

Definition prec : Z := 53.
Definition emax : Z := 1024.

(** The literal [0]. *)
Definition zero : t := S754_zero false.

(** The double nearest to the integer [z], as [JSON.parse] yields it
    for an integer literal. *)
Definition of_Z (z : Z) : t := binary_normalize prec emax z 0 false.

(** [a - b] *)
Definition minus (a b : t) : t := SFsub prec emax a b.

(** [Math.max(a, b)]: [NaN] when either is [NaN], otherwise the
    greater, with [+0] greater than [-0]. *)
Definition Math_max (a b : t) : t :=
  match a, b with
  | S754_nan, _ | _, S754_nan => S754_nan
  | _, _ =>
      match SFcompare a b with
      | Some Lt => b
      | Some Gt => a
      | _ => match a with S754_zero true => b | _ => a end
      end
  end.

(** The integers of magnitude below 2^53, which doubles hold exactly
    ([Number.MAX_SAFE_INTEGER] is 2^53 - 1). *)
Definition safe (z : Z) : Prop := - 2 ^ 53 < z < 2 ^ 53.

(** The number of binary digits of a positive integer. *)
Definition digits (z : Z) : Z := Z.log2 z + 1.

(** The double that is [z], or [-z], for an integer [z] from 1 to
    2^53 - 1: the mantissa is [z] shifted to 53 digits. *)
Definition double (negative : bool) (z : Z) : t :=
  S754_finite negative (Z.to_pos (z * 2 ^ (53 - digits z))) (digits z - 53).

Definition Infinity : t := S754_infinity false.
Definition NaN : t := S754_nan.

End Number.

(** ** The API module ([api.ts]) *)

Module Api.

(** Platform functions the module calls and does not define. [None]
    stands for [NaN] ([Date.parse]) and for a thrown [TypeError]
    ([new URL]). *)
Class Platform := {
  Date_parse : string → option Z;
  URL_hostname : string → option string;
}.

(** *** Articles *)

(** The raw article, as the server sends it. [snippet], [ts], [ats] and
    [activets] may be absent from the object. *)
Record ArticleInit := {
  id : string;
  slug : string;
  title : string;
  snippet : option JsString.t;
  content : string;
  ts : option string;
  ats : option string;
  activets : option string;
  domain : string;
  origlink : string;
  position : Z;
  geek : bool;
}.

(** The processed article. [instance] is the identity of the object that
    [processArticle] creates with [{ ...article }]; [props] are the
    copied (and rewritten) properties. *)
Record Article := {
  instance : nat;
  props : ArticleInit;
  parsedts : option (option Z);
  parsedats : option (option Z);
  parsedactivets : option (option Z);
}.

Definition processArticle `{Platform} (fresh : nat) (article : ArticleInit) : Article :=
  {| instance := fresh;
     props :=
       {| id := id article;
          slug := slug article;
          title := title article;
          snippet := JsString.normalize_snippet <$> snippet article;
          content := content article;
          ts := ts article;
          ats := ats article;
          activets := activets article;
          domain :=
            if decide (domain article = "")
            then default (domain article) (URL_hostname (origlink article))
            else domain article;
          origlink := origlink article;
          position := position article;
          geek := geek article |};
     parsedts := Date_parse <$> ts article;
     parsedats := Date_parse <$> ats article;
     parsedactivets := Date_parse <$> activets article |}.

(** *** Requests and responses *)

Inductive Method := GET | POST | PUT | DELETE.

(** The endpoints of the calls modelled here; the cache-busting
    [?timestamp=] suffix and the [Authorization] header are left out. *)
Inductive Endpoint :=
| news
| news_manual
| news_id (id : string)
| news_slug (slug : string)
| news_active_wait (ms : Z)
| news_archive (id : string)
| news_active (id : string)
| news_item (id : string)
| news_undelete (id : string)
| news_moveid (id : string) (offset : Number.t)
| news_positions
| news_geek (id : string)
| news_nogeek (id : string).

(** The JSON body of [addArticle]. *)
Record AddBody := {
  body_link : string;
  body_title : option string;
  body_snippet : option JsString.t;
  body_content : option string;
  body_position : option Z;
}.

(** [Partial<Article>], as far as [updateArticle] looks at it. *)
Record ArticlePatch := {
  patch_id : option string;
  patch_title : option string;
  patch_snippet : option JsString.t;
  patch_content : option string;
}.

Inductive Payload :=
| NoPayload
| AddPayload (b : AddBody)
| PatchPayload (p : ArticlePatch).

Record Request := {
  method : Method;
  endpoint : Endpoint;
  payload : Payload;
}.

(** What [Response.json()] does with the body: it rejects on an empty or
    unparsable body, and otherwise yields [null] or a value. *)
Inductive Body (B : Type) : Type :=
| Unparsable
| JsonNull
| Json (v : B).
Arguments Unparsable {B}.
Arguments JsonNull {B}.
Arguments Json {B} v.

Record Response (B : Type) : Type := {
  status : Z;
  body : Body B;
}.
Arguments status {B} _.
Arguments body {B} _.

(** What [fetch] settles to. *)
Inductive FetchOutcome (B : Type) : Type :=
| Responded (r : Response B)
| NetworkFailure.
Arguments Responded {B} r.
Arguments NetworkFailure {B}.

(** The reasons the promises of this module reject with. *)
Inductive Failure (B : Type) : Type :=
| RawResponse (r : Response B)
| FetchFailed
| TypeError
| PositionNotFound.
Arguments RawResponse {B} r.
Arguments FetchFailed {B}.
Arguments TypeError {B}.
Arguments PositionNotFound {B}.

(** *** The cache and the effects on it *)

(** [articlesCache] maps slug to article, [articlesIdSlugMap] maps id to
    slug; [allocated] counts the article objects created so far. *)
Record Cache := {
  articlesCache : gmap string Article;
  articlesIdSlugMap : gmap string string;
  allocated : nat;
}.

Definition empty_cache : Cache :=
  {| articlesCache := ∅; articlesIdSlugMap := ∅; allocated := 0 |}.

(** What a call does, in order. *)
Inductive Event :=
| CacheSet (slug : string) (a : Article)
| IdSlugSet (id slug : string)
| CacheDelete (slug : string)
| IdSlugDelete (id : string)
| Send (r : Request)
| ConsoleError (msg : string)
| Sleep (ms : Z).

(** A computation over the cache: its outcome, the cache it leaves and
    the events it performed. *)
Record Run (A E : Type) : Type := {
  outcome : Promise A E;
  after : Cache;
  events : list Event;
}.
Arguments outcome {A E} _.
Arguments after {A E} _.
Arguments events {A E} _.

Definition M (E A : Type) : Type := Cache → Run A E.

Definition ret {E A} (a : A) : M E A :=
  λ st, {| outcome := Resolved a; after := st; events := [] |}.

Definition throw {E A} (e : E) : M E A :=
  λ st, {| outcome := Rejected e; after := st; events := [] |}.

(** A promise that is awaited and has not settled. *)
Definition pending {E A} : M E A :=
  λ st, {| outcome := Pending; after := st; events := [] |}.

Definition bind {E A B} (m : M E A) (k : A → M E B) : M E B :=
  λ st,
    let r := m st in
    match outcome r with
    | Resolved a =>
        let r' := k a (after r) in
        {| outcome := outcome r'; after := after r'; events := events r ++ events r' |}
    | Rejected e => {| outcome := Rejected e; after := after r; events := events r |}
    | Pending => {| outcome := Pending; after := after r; events := events r |}
    end.

(** [try { m } catch (e) { handler }] followed by [k]. *)
Definition try_catch {E A} (m : M E A) (handler : E → M E A) : M E A :=
  λ st,
    let r := m st in
    match outcome r with
    | Rejected e =>
        let r' := handler e (after r) in
        {| outcome := outcome r'; after := after r'; events := events r ++ events r' |}
    | _ => r
    end.

#[export] Instance M_ret {E} : MRet (M E) := λ A, ret.
#[export] Instance M_bind {E} : MBind (M E) := λ A B k m, bind m k.

Definition get {E} : M E Cache :=
  λ st, {| outcome := Resolved st; after := st; events := [] |}.

Definition emit {E} (ev : Event) : M E unit :=
  λ st, {| outcome := Resolved tt; after := st; events := [ev] |}.

Definition alloc {E} : M E nat :=
  λ st,
    {| outcome := Resolved (allocated st);
       after := {| articlesCache := articlesCache st;
                   articlesIdSlugMap := articlesIdSlugMap st;
                   allocated := S (allocated st) |};
       events := [] |}.

(** [articlesCache.set(slug, article)] *)
Definition cache_set {E} (slug : string) (a : Article) : M E unit :=
  λ st,
    {| outcome := Resolved tt;
       after := {| articlesCache := <[slug := a]> (articlesCache st);
                   articlesIdSlugMap := articlesIdSlugMap st;
                   allocated := allocated st |};
       events := [CacheSet slug a] |}.

(** [articlesIdSlugMap.set(id, slug)] *)
Definition id_slug_set {E} (i s : string) : M E unit :=
  λ st,
    {| outcome := Resolved tt;
       after := {| articlesCache := articlesCache st;
                   articlesIdSlugMap := <[i := s]> (articlesIdSlugMap st);
                   allocated := allocated st |};
       events := [IdSlugSet i s] |}.

(** [articlesCache.delete(slug)] *)
Definition cache_delete {E} (slug : string) : M E unit :=
  λ st,
    {| outcome := Resolved tt;
       after := {| articlesCache := delete slug (articlesCache st);
                   articlesIdSlugMap := articlesIdSlugMap st;
                   allocated := allocated st |};
       events := [CacheDelete slug] |}.

(** [articlesIdSlugMap.delete(id)] *)
Definition id_slug_delete {E} (i : string) : M E unit :=
  λ st,
    {| outcome := Resolved tt;
       after := {| articlesCache := articlesCache st;
                   articlesIdSlugMap := delete i (articlesIdSlugMap st);
                   allocated := allocated st |};
       events := [IdSlugDelete i] |}.

(** *** The request gateway *)

(** [request(endpoint, options)]: the call is sent, and the promise
    settles by what [fetch] delivers. *)
Definition request {B} (r : Request) (reply : FetchOutcome B) : M (Failure B) (option B) :=
  emit (Send r);;
  match reply with
  | NetworkFailure => throw FetchFailed
  | Responded req =>
      if decide (400 ≤ status req) then throw (RawResponse req)
      else
        match body req with
        | Json v => ret (Some v)
        | JsonNull => ret None
        | Unparsable => ret None
        end
  end.

(** What the promise of [request] settles to when [fetch] delivers
    [reply]: the part of [request] that runs after the call has been
    sent. *)
Definition settle {B} (reply : FetchOutcome B) : M (Failure B) (option B) :=
  match reply with
  | NetworkFailure => throw FetchFailed
  | Responded req =>
      if decide (400 ≤ status req) then throw (RawResponse req)
      else
        match body req with
        | Json v => ret (Some v)
        | JsonNull => ret None
        | Unparsable => ret None
        end
  end.

(** *** Reading articles *)

(** The body of a single-article endpoint, as the code inspects it: an
    object with an own [id] property, or any other value that is not
    [null]. *)
Inductive ArticleReply :=
| NoIdentity
| Identified (a : ArticleInit).

(** What [getArticle] and [getArticleBySlug] resolve to. [Undefined] is
    what [Map.get] yields for a missing key. *)
Inductive Lookup :=
| Undefined
| Null
| Found (a : Article).

Definition getArticle `{Platform} (the_id : string) (reply : FetchOutcome ArticleReply)
  : M (Failure ArticleReply) Lookup :=
  st ← get;
  match articlesIdSlugMap st !! the_id with
  | Some the_slug => ret (from_option Found Undefined (articlesCache st !! the_slug))
  | None =>
      articleInit ← request {| method := GET; endpoint := news_id the_id; payload := NoPayload |} reply;
      match articleInit with
      | None => throw TypeError
      | Some NoIdentity => ret Null
      | Some (Identified init) =>
          fresh ← alloc;
          let article := processArticle fresh init in
          cache_set (slug (props article)) article;;
          id_slug_set (id (props article)) (slug (props article));;
          ret (Found article)
      end
  end.

Definition getArticleBySlug `{Platform} (the_slug : string) (reply : FetchOutcome ArticleReply)
  : M (Failure ArticleReply) Lookup :=
  st ← get;
  match articlesCache st !! the_slug with
  | Some article => ret (Found article)
  | None =>
      articleInit ← request {| method := GET; endpoint := news_slug the_slug; payload := NoPayload |} reply;
      match articleInit with
      | None => throw TypeError
      | Some NoIdentity => ret Null
      | Some (Identified init) =>
          fresh ← alloc;
          let article := processArticle fresh init in
          cache_set the_slug article;;
          id_slug_set (id (props article)) (slug (props article));;
          ret (Found article)
      end
  end.

(** [getArticle] and [getArticleBySlug] are [async]: on a miss they
    send their request and give way at the [await]; other calls may run
    before the reply arrives. [Awaited] is a lookup that has missed the
    cache and awaits its reply. *)
Inductive Awaited :=
| AwaitedById (the_id : string)
| AwaitedBySlug (the_slug : string).

(** The test that a lookup makes before it sends its request. *)
Definition misses (lookup : Awaited) (st : Cache) : Prop :=
  match lookup with
  | AwaitedById the_id => articlesIdSlugMap st !! the_id = None
  | AwaitedBySlug the_slug => articlesCache st !! the_slug = None
  end.

(** The rest of [getArticle] and of [getArticleBySlug], from the
    [await] on: it runs when the reply arrives, on the cache as it is
    then, and does not look the key up again. *)
Definition resume `{Platform} (lookup : Awaited) (reply : FetchOutcome ArticleReply)
  : M (Failure ArticleReply) Lookup :=
  articleInit ← settle reply;
  match articleInit with
  | None => throw TypeError
  | Some NoIdentity => ret Null
  | Some (Identified init) =>
      fresh ← alloc;
      let article := processArticle fresh init in
      cache_set
        match lookup with
        | AwaitedById _ => slug (props article)
        | AwaitedBySlug the_slug => the_slug
        end
        article;;
      id_slug_set (id (props article)) (slug (props article));;
      ret (Found article)
  end.

(** *** The active-article poller *)

(** The body of [/news/active/wait/{ms}], typed [{ id?: string }]. *)
Record ActiveReply := { active_id : option string }.

Definition default_ms : Z := 295.

(** [pollActiveArticle(ms)], run against the replies that the successive
    long-polls receive. When the replies run out, the last long-poll has
    been sent and is still awaited. *)
Fixpoint pollActiveArticle (ms : Z) (replies : list (FetchOutcome ActiveReply))
  : M (Failure ActiveReply) string :=
  let call := {| method := GET; endpoint := news_active_wait ms; payload := NoPayload |} in
  match replies with
  | [] => emit (Send call);; pending
  | reply :: later =>
      returned ← try_catch
        (req ← request call reply;
         match req with
         | Some {| active_id := Some v |} => ret (Some v)
         | _ => ret None
         end)
        (λ e,
           emit (ConsoleError "Error while polling for active article");;
           emit (Sleep 3000);;
           ret None);
      match returned with
      | Some v => ret v
      | None => pollActiveArticle ms later
      end
  end.

(** *** Mutations *)

Fixpoint for_each {E A} (body : A → M E unit) (l : list A) : M E unit :=
  match l with
  | [] => ret tt
  | x :: r => body x;; for_each body r
  end.

(** One iteration of the loop below: the body of
    [if (article.id === ...) { articlesCache.delete(slug);
    articlesIdSlugMap.delete(article.id); }]. *)
Definition evict_entry {E} (matches : Article → bool) (entry : string * Article) : M E unit :=
  if matches entry.2
  then cache_delete entry.1;; id_slug_delete (id (props entry.2))
  else ret tt.

(** The loop [for (let [slug, article] of articlesCache.entries())] that
    deletes the entries whose article satisfies [matches]. Deleting the
    entry being visited does not disturb the iteration, so the loop
    visits the entries present when it starts. A [Map] iterates in
    insertion order and [map_to_list] in an order of its own; the order
    only shows in the order of the deletions. *)
Definition evict {E} (matches : Article → bool) : M E unit :=
  st ← get;
  for_each (evict_entry matches) (map_to_list (articlesCache st)).

Definition addArticle (link the_title : string) (the_snippet : JsString.t)
    (the_content : string) (the_position : option Z) (reply : FetchOutcome unit)
  : M (Failure unit) (option unit) :=
  let truthy_position := match the_position with Some p => bool_decide (p ≠ 0) | None => false end in
  let isManual :=
    bool_decide (the_title ≠ "") || bool_decide (the_snippet ≠ [])
    || bool_decide (the_content ≠ "") || truthy_position in
  let body :=
    {| body_link := link;
       body_title := if bool_decide (the_title ≠ "") then Some the_title else None;
       body_snippet := if bool_decide (the_snippet ≠ []) then Some the_snippet else None;
       body_content := if bool_decide (the_content ≠ "") then Some the_content else None;
       body_position := if truthy_position then the_position else None |} in
  let url := if isManual then news_manual else news in
  evict (λ article, bool_decide (title (props article) = the_title));;
  request {| method := POST; endpoint := url; payload := AddPayload body |} reply.

Definition updateArticle (updated : ArticlePatch) (reply : FetchOutcome unit)
  : M (Failure unit) (option unit) :=
  evict (λ article, bool_decide (Some (id (props article)) = patch_id updated));;
  request {| method := POST; endpoint := news_manual; payload := PatchPayload updated |} reply.

Definition archiveArticle (the_id : string) (reply : FetchOutcome unit)
  : M (Failure unit) (option unit) :=
  request {| method := PUT; endpoint := news_archive the_id; payload := NoPayload |} reply.

Definition activateArticle (the_id : string) (reply : FetchOutcome unit)
  : M (Failure unit) (option unit) :=
  request {| method := PUT; endpoint := news_active the_id; payload := NoPayload |} reply.

Definition removeArticle (the_id : string) (reply : FetchOutcome unit)
  : M (Failure unit) (option unit) :=
  request {| method := DELETE; endpoint := news_item the_id; payload := NoPayload |} reply.

Definition restoreArticle (the_id : string) (reply : FetchOutcome unit)
  : M (Failure unit) (option unit) :=
  request {| method := PUT; endpoint := news_undelete the_id; payload := NoPayload |} reply.

(** The position table [{ [id: string]: number }]. *)
Abbreviation Positions := (gmap string Number.t).

Definition moveArticle (the_id : string) (offset : Number.t) (reply : FetchOutcome Positions)
  : M (Failure Positions) (option Positions) :=
  request {| method := PUT; endpoint := news_moveid the_id offset; payload := NoPayload |} reply.

(** [Object.values(positions).reduce((c, x) => Math.max(c, x), 0)].
    [Object.values] lists the values in the order of the properties and
    [map_to_list] in an order of its own; [Math.max] is commutative
    and associative, so the order does not show in the result. *)
Definition max_position (positions : Positions) : Number.t :=
  foldl (λ c x, Number.Math_max c x) Number.zero (snd <$> map_to_list positions).

Definition makeArticleFirst (the_id : string)
    (positions_reply move_reply : FetchOutcome Positions)
  : M (Failure Positions) (option Positions) :=
  response ← request {| method := GET; endpoint := news_positions; payload := NoPayload |} positions_reply;
  match response with
  | None => throw TypeError
  | Some positions =>
      match positions !! the_id with
      | None => throw PositionNotFound
      | Some pos =>
          let maxPos := max_position positions in
          let offset := Number.minus maxPos pos in
          request {| method := PUT; endpoint := news_moveid the_id offset; payload := NoPayload |} move_reply
      end
  end.

Definition makeArticleGeek (the_id : string) (reply : FetchOutcome unit)
  : M (Failure unit) (option unit) :=
  request {| method := PUT; endpoint := news_geek the_id; payload := NoPayload |} reply.

Definition makeArticleNotGeek (the_id : string) (reply : FetchOutcome unit)
  : M (Failure unit) (option unit) :=
  request {| method := PUT; endpoint := news_nogeek the_id; payload := NoPayload |} reply.

(** *** Vocabulary for the properties *)

Definition example_platform : Platform :=
  {| Date_parse := λ _, None; URL_hostname := λ _, None |}.

(** The events of one iteration of the eviction loop. *)
Definition evict_events (matches : Article → bool) (entry : string * Article) : list Event :=
  if matches entry.2
  then [CacheDelete entry.1; IdSlugDelete (id (props entry.2))]
  else [].

Definition is_eviction (ev : Event) : bool :=
  match ev with
  | CacheDelete _ | IdSlugDelete _ => true
  | _ => false
  end.

Definition is_send (ev : Event) : bool :=
  match ev with
  | Send _ => true
  | _ => false
  end.

(** The article that a reply hands to [processArticle], if any. *)
Definition fetched (reply : FetchOutcome ArticleReply) : option ArticleInit :=
  match reply with
  | Responded r =>
      if decide (400 ≤ status r) then None
      else match body r with Json (Identified a) => Some a | _ => None end
  | NetworkFailure => None
  end.

(** The calls of the module that read or write the cache or send a
    mutation, each with the reply, or replies, it receives. A call of
    this kind runs to its end before the next one starts; lookups that
    overlap are [Awaited]. *)
Inductive Call :=
| CallGetArticle (the_id : string) (reply : FetchOutcome ArticleReply)
| CallGetArticleBySlug (the_slug : string) (reply : FetchOutcome ArticleReply)
| CallAddArticle (link the_title : string) (the_snippet : JsString.t)
    (the_content : string) (the_position : option Z) (reply : FetchOutcome unit)
| CallUpdateArticle (updated : ArticlePatch) (reply : FetchOutcome unit)
| CallArchiveArticle (the_id : string) (reply : FetchOutcome unit)
| CallActivateArticle (the_id : string) (reply : FetchOutcome unit)
| CallRemoveArticle (the_id : string) (reply : FetchOutcome unit)
| CallRestoreArticle (the_id : string) (reply : FetchOutcome unit)
| CallMoveArticle (the_id : string) (offset : Number.t) (reply : FetchOutcome Positions)
| CallMakeArticleFirst (the_id : string) (positions_reply move_reply : FetchOutcome Positions)
| CallMakeArticleGeek (the_id : string) (reply : FetchOutcome unit)
| CallMakeArticleNotGeek (the_id : string) (reply : FetchOutcome unit).

Definition ran {A E} (r : Run A E) : Cache * list Event := (after r, events r).

Definition perform `{Platform} (c : Call) (st : Cache) : Cache * list Event :=
  match c with
  | CallGetArticle i reply => ran (getArticle i reply st)
  | CallGetArticleBySlug s reply => ran (getArticleBySlug s reply st)
  | CallAddArticle l t sn ct pos reply => ran (addArticle l t sn ct pos reply st)
  | CallUpdateArticle u reply => ran (updateArticle u reply st)
  | CallArchiveArticle i reply => ran (archiveArticle i reply st)
  | CallActivateArticle i reply => ran (activateArticle i reply st)
  | CallRemoveArticle i reply => ran (removeArticle i reply st)
  | CallRestoreArticle i reply => ran (restoreArticle i reply st)
  | CallMoveArticle i offset reply => ran (moveArticle i offset reply st)
  | CallMakeArticleFirst i positions_reply move_reply =>
      ran (makeArticleFirst i positions_reply move_reply st)
  | CallMakeArticleGeek i reply => ran (makeArticleGeek i reply st)
  | CallMakeArticleNotGeek i reply => ran (makeArticleNotGeek i reply st)
  end.

(** Every id of the secondary mapping leads to an entry of the primary
    mapping. *)
Definition indexed (st : Cache) : Prop :=
  ∀ i s, articlesIdSlugMap st !! i = Some s → is_Some (articlesCache st !! s).

(** Every id of the secondary mapping leads to an article of that id. *)
Definition consistent (st : Cache) : Prop :=
  ∀ i s, articlesIdSlugMap st !! i = Some s →
    ∃ a, articlesCache st !! s = Some a ∧ id (props a) = i.

(** The server answers a fetch by slug with an article of that slug, and
    a fetch by id with an article whose slug is not indexed under another
    id. *)
Definition coherent (c : Call) (st : Cache) : Prop :=
  match c with
  | CallGetArticle the_id reply =>
      articlesIdSlugMap st !! the_id = None →
      ∀ a, fetched reply = Some a →
        ∀ i, articlesIdSlugMap st !! i = Some (slug a) → i = id a
  | CallGetArticleBySlug the_slug reply =>
      articlesCache st !! the_slug = None →
      ∀ a, fetched reply = Some a → slug a = the_slug
  | _ => True
  end.

(** The same for a reply that arrives after other calls have run: the
    article fetched by slug has that slug, and, in the cache as it is
    when the reply arrives, its slug is not indexed under another id. *)
Definition coherent_arrival (lookup : Awaited) (reply : FetchOutcome ArticleReply)
    (st : Cache) : Prop :=
  ∀ a, fetched reply = Some a →
    match lookup with
    | AwaitedById _ => True
    | AwaitedBySlug the_slug => slug a = the_slug
    end
    ∧ ∀ i, articlesIdSlugMap st !! i = Some (slug a) → i = id a.

(** The cache after [n] article objects have been created outside it. *)
Definition created (n : nat) (st : Cache) : Cache :=
  {| articlesCache := articlesCache st;
     articlesIdSlugMap := articlesIdSlugMap st;
     allocated := allocated st + n |}.

(** The cache states that coherent answers lead to, each with the
    lookups that are in flight: a call runs to its end, or a lookup
    that misses sends its request and awaits, or the reply to a lookup
    in flight arrives, or a call that lists articles creates its
    objects. *)
Inductive reachable `{Platform} : Cache → list Awaited → Prop :=
| reachable_empty : reachable empty_cache []
| reachable_call c st flying :
    reachable st flying → coherent c st → reachable (perform c st).1 flying
| reachable_sent lookup st flying :
    reachable st flying → misses lookup st → reachable st (lookup :: flying)
| reachable_arrived lookup reply st before later :
    reachable st (before ++ lookup :: later) →
    coherent_arrival lookup reply st →
    reachable (after (resume lookup reply st)) (before ++ later)
| reachable_listed n st flying :
    reachable st flying → reachable (created n st) flying.

(** The cache states that any answers lead to. Before the first call
    every lookup misses, so a reply to any lookup may arrive at any
    time. The calls that list articles create objects and leave the
    mappings alone. *)
Inductive reachable_by_any_calls `{Platform} : Cache → Prop :=
| any_empty : reachable_by_any_calls empty_cache
| any_call c st : reachable_by_any_calls st → reachable_by_any_calls (perform c st).1
| any_arrived lookup reply st :
    reachable_by_any_calls st → reachable_by_any_calls (after (resume lookup reply st))
| any_listed n st : reachable_by_any_calls st → reachable_by_any_calls (created n st).

(** Writes to the two mappings come in pairs: a [set] on the primary
    mapping is followed at once by the [set] of that article's id and
    slug on the secondary one, a [delete] on the primary mapping by a
    [delete] on the secondary one, and the secondary mapping is not
    written otherwise. *)
Fixpoint paired (l : list Event) : bool :=
  match l with
  | [] => true
  | CacheSet _ a :: r =>
      match r with
      | IdSlugSet i s :: r' =>
          bool_decide (i = id (props a)) && bool_decide (s = slug (props a)) && paired r'
      | _ => false
      end
  | CacheDelete _ :: r =>
      match r with
      | IdSlugDelete _ :: r' => paired r'
      | _ => false
      end
  | IdSlugSet _ _ :: _ => false
  | IdSlugDelete _ :: _ => false
  | _ :: r => paired r
  end.

(** What [req.json().catch(() => null)] resolves to. *)
Definition parsed {B} (b : Body B) : option B :=
  match b with
  | Json v => Some v
  | JsonNull | Unparsable => None
  end.

(** The positions of the table are safe integers, and [m] is the
    greatest of them. *)
Definition greatest (positions : Positions) (m : Z) : Prop :=
  Number.safe m
  ∧ (∃ k, positions !! k = Some (Number.of_Z m))
  ∧ ∀ k v, positions !! k = Some v → ∃ z, v = Number.of_Z z ∧ Number.safe z ∧ z ≤ m.

(** The table [{ a: 2, b: 5 }]. *)
Definition example_positions : Positions :=
  {["a" := Number.of_Z 2; "b" := Number.of_Z 5]}.

Definition positions_call : Request :=
  {| method := GET; endpoint := news_positions; payload := NoPayload |}.

Definition move_call (the_id : string) (offset : Number.t) : Request :=
  {| method := PUT; endpoint := news_moveid the_id offset; payload := NoPayload |}.

Definition by_id (the_id : string) : Request :=
  {| method := GET; endpoint := news_id the_id; payload := NoPayload |}.

Definition by_slug (the_slug : string) : Request :=
  {| method := GET; endpoint := news_slug the_slug; payload := NoPayload |}.

(** The cache after the object [article] has been created and stored
    under [key]. *)
Definition inserted (key : string) (article : Article) (st : Cache) : Cache :=
  {| articlesCache := <[key := article]> (articlesCache st);
     articlesIdSlugMap := <[id (props article) := slug (props article)]> (articlesIdSlugMap st);
     allocated := S (allocated st) |}.

(** The key that [resume] stores the article under. *)
Definition stored_under (lookup : Awaited) (init : ArticleInit) : string :=
  match lookup with
  | AwaitedById _ => slug init
  | AwaitedBySlug the_slug => the_slug
  end.

Definition long_poll (ms : Z) : Request :=
  {| method := GET; endpoint := news_active_wait ms; payload := NoPayload |}.

Definition poll_error : string := "Error while polling for active article".

(** The run sent [req] and did nothing else. *)
Definition only_sends {A E} (r : Run A E) (req : Request) (st : Cache) : Prop :=
  events r = [Send req] ∧ after r = st.

Definition example_article (the_id the_slug the_title : string) : ArticleInit :=
  {| id := the_id; slug := the_slug; title := the_title;
     snippet := None; content := ""; ts := None; ats := None; activets := None;
     domain := "radio-t.com"; origlink := ""; position := 1; geek := false |}.

(** A successful reply that carries [a]. *)
Definition found (a : ArticleInit) : FetchOutcome ArticleReply :=
  Responded {| status := 200; body := Json (Identified a) |}.

(** A successful reply with an empty body. *)
Definition done_reply : FetchOutcome unit :=
  Responded {| status := 200; body := Unparsable |}.

(** A hit: the call resolves to [article], sends nothing and leaves the
    cache as it is. *)
Definition hit (r : Run Lookup (Failure ArticleReply)) (article : Article) (st : Cache) : Prop :=
  r = {| outcome := Resolved (Found article); after := st; events := [] |}.

(** The cache once [getArticle("1")] has fetched an article with id
    ["1"], slug ["s"] and title ["T"]. *)
Definition cached_example : Cache :=
  after (getArticle (H:=example_platform) "1" (found (example_article "1" "s" "T")) empty_cache).

(** The cache once the overlapping lookups [getArticle("1")] and
    [getArticle("2")] have been answered, the second first, with the
    articles of slug ["s"] and ["t"]. *)
Definition two_cached_example : Cache :=
  after (resume (H:=example_platform) (AwaitedById "1") (found (example_article "1" "s" "T"))
           (after (resume (H:=example_platform) (AwaitedById "2")
                     (found (example_article "2" "t" "U")) empty_cache))).

(** The cache once [getArticleBySlug("a")] has been answered with an
    article of id ["1"] and slug ["b"]. *)
Definition mismatched_example : Cache :=
  after (getArticleBySlug (H:=example_platform) "a" (found (example_article "1" "b" "T")) empty_cache).

(** The id that a long-poll reply carries, if it is a success with an
    [id] property. *)
Definition identity (reply : FetchOutcome ActiveReply) : option string :=
  match reply with
  | Responded r =>
      if decide (400 ≤ status r) then None
      else match body r with Json v => active_id v | _ => None end
  | NetworkFailure => None
  end.

(** The long-poll failed: [fetch] rejected or the status is 400 or
    more. *)
Definition failed {B} (reply : FetchOutcome B) : bool :=
  match reply with
  | Responded r => bool_decide (400 ≤ status r)
  | NetworkFailure => true
  end.

(** What the poller is expected to do with a sequence of replies: send
    the long-poll; after a failure, log, wait 3000 and go on with the
    next reply; after a success without [id], go on at once; after a
    success with [id], stop. *)
Fixpoint poll_trace (ms : Z) (replies : list (FetchOutcome ActiveReply)) : list Event :=
  match replies with
  | [] => [Send (long_poll ms)]
  | reply :: later =>
      Send (long_poll ms) ::
      if failed reply then ConsoleError poll_error :: Sleep 3000 :: poll_trace ms later
      else match identity reply with
           | Some _ => []
           | None => poll_trace ms later
           end
  end.

End Api.

(** ** The store ([store.tsx]) *)

Module Store.

(** A JavaScript value, as far as [!==] tells values apart; [context] is
    typed [any]. Objects are compared by reference. *)
Inductive Value :=
| VUndefined
| VNull
| VBool (b : bool)
| VNumber (z : Z)
| VNaN
| VString (s : string)
| VObject (address : nat).

#[export] Instance Value_eq_dec : EqDecision Value.
Proof. solve_decision. Defined.

(** [a === b] *)
Definition strict_equal (a b : Value) : bool :=
  match a, b with
  | VNaN, _ | _, VNaN => false
  | _, _ => bool_decide (a = b)
  end.

(** A rendered element: what it shows and its React [key]. *)
Inductive Markup :=
| Span (html : string)
| Component (name : string).

Record Element := {
  markup : Markup;
  key : option nat;
}.

(** A notification object. [ref] is the identity of the object, which is
    what [indexOf] compares, and [element] the identity of the element
    that [data] is. [time] is [None] for [null]. The queue and the
    timers hold such objects by reference; here they hold the
    properties of the object as they are now, so a write to an object
    is a write to every place that holds it. *)
Record Notification := {
  ref : nat;
  id : nat;
  data : Element;
  element : nat;
  level : string;
  time : option Z;
  closable : bool;
  context : Value;
}.

Inductive PartialData :=
| Text (s : string)
| Jsx (e : Element).

(** [Partial<Notification>] written as an object literal in the call:
    [None] is an absent property. The [id] of the argument is
    overwritten and therefore left out. The object, and the element
    that [data] is, are new, and nobody else holds them. *)
Record PartialNotification := {
  p_data : option PartialData;
  p_level : option string;
  p_time : option (option Z);
  p_closable : option bool;
  p_context : option Value;
}.

(** The argument of [addNotification] when it is written out in the
    call: a string, an object literal, or a function. A deferred
    producer receives the remover of the object under construction,
    which is determined by the identity of that object. An object that
    the caller holds and passes by reference is the argument of
    [addNotification_held] below. *)
Inductive Input :=
| FromString (s : string)
| FromPartial (p : PartialNotification)
| Deferred (producer : nat → PartialNotification).

(** [data] of an object that a caller holds: a string, or an element,
    which is an object of its own and may be the [data] of other
    objects too. *)
Inductive HeldData :=
| HeldText (s : string)
| HeldElement (address : nat).

(** An object that a caller holds and can pass to [addNotification]
    again: a [Partial<Notification>] that it has built, or a
    notification that it has been returned. [None] is an absent
    property. *)
Record Object := {
  o_data : option HeldData;
  o_level : option string;
  o_time : option (option Z);
  o_closable : option bool;
  o_context : option Value;
  o_id : option nat;
}.

Inductive Theme := day | night.

Record State := {
  issueNumber : option Z;
  isAdmin : bool;
  notifications : list Notification;
  activeId : option string;
  theme : Theme;
}.

Definition initialState : State :=
  {| issueNumber := None; isAdmin := false; notifications := [];
     activeId := None; theme := day |}.

(** [Partial<State>] *)
Record PartialState := {
  set_issueNumber : option (option Z);
  set_isAdmin : option bool;
  set_notifications : option (list Notification);
  set_activeId : option (option string);
  set_theme : option Theme;
}.

Inductive Action :=
| setStateAction (state : PartialState)
| addNotificationAction (notification : Notification)
| removeNotificationAction (notification : Notification).

(** [list.indexOf(n)]; [None] stands for [-1]. *)
Fixpoint indexOf (l : list Notification) (n : Notification) : option nat :=
  match l with
  | [] => None
  | x :: r => if decide (ref x = ref n) then Some 0%nat else S <$> indexOf r n
  end.

Definition rootReducer (state : State) (action : Action) : State :=
  match action with
  | setStateAction s =>
      {| issueNumber := default (issueNumber state) (set_issueNumber s);
         isAdmin := default (isAdmin state) (set_isAdmin s);
         notifications := default (notifications state) (set_notifications s);
         activeId := default (activeId state) (set_activeId s);
         theme := default (theme state) (set_theme s) |}
  | addNotificationAction n =>
      {| issueNumber := issueNumber state;
         isAdmin := isAdmin state;
         notifications := notifications state ++ [n];
         activeId := activeId state;
         theme := theme state |}
  | removeNotificationAction n =>
      match indexOf (notifications state) n with
      | None => state
      | Some index =>
          {| issueNumber := issueNumber state;
             isAdmin := isAdmin state;
             notifications :=
               take index (notifications state) ++ drop (S index) (notifications state);
             activeId := activeId state;
             theme := theme state |}
      end
  end.

(** The module state: the Redux store, the [notificationId] counter, the
    timers set with [setTimeout] and not fired yet, and the number of
    objects created so far, elements included. With it, the objects
    that callers hold, [held], and the elements, [elements], each by
    its identity. *)
Record World := {
  store : State;
  notificationId : nat;
  timers : list (Z * Notification);
  objects : nat;
  held : gmap nat Object;
  elements : gmap nat Element;
}.

Definition initialWorld : World :=
  {| store := initialState; notificationId := 0; timers := []; objects := 0;
     held := ∅; elements := ∅ |}.

(** [store.dispatch(action)] *)
Definition dispatch (action : Action) (w : World) : World :=
  {| store := rootReducer (store w) action;
     notificationId := notificationId w;
     timers := timers w;
     objects := objects w;
     held := held w;
     elements := elements w |}.

Definition setState (state : PartialState) (w : World) : World :=
  dispatch (setStateAction state) w.

Definition new_object (w : World) : nat * World :=
  (objects w,
   {| store := store w; notificationId := notificationId w;
      timers := timers w; objects := S (objects w);
      held := held w; elements := elements w |}).

(** A new element. *)
Definition new_element (e : Element) (w : World) : nat * World :=
  (objects w,
   {| store := store w; notificationId := notificationId w;
      timers := timers w; objects := S (objects w);
      held := held w; elements := <[objects w := e]> (elements w) |}).

(** [notificationId++] *)
Definition next_id (w : World) : nat * World :=
  (notificationId w,
   {| store := store w; notificationId := S (notificationId w);
      timers := timers w; objects := objects w;
      held := held w; elements := elements w |}).

(** [createNotification] on a string or an object literal. The result
    is [None] when the assignment to [notification.data.key] throws
    because there is no [data]. The literal and its element are new, so
    the writes to them reach no other object: the element is entered
    with its [key] written, after the object that [Object.assign]
    makes. *)
Definition createNotification (notification : string + PartialNotification) (w : World)
  : option Notification * World :=
  let partial :=
    match notification with
    | inl s =>
        {| p_data := Some (Jsx {| markup := Span s; key := None |});
           p_level := Some "default";
           p_time := Some (Some 3000);
           p_closable := None;
           p_context := None |}
    | inr p =>
        {| p_data :=
             match p_data p with
             | Some (Text s) => Some (Jsx {| markup := Span s; key := None |})
             | d => d
             end;
           p_level := p_level p;
           p_time := p_time p;
           p_closable := p_closable p;
           p_context := p_context p |}
    end in
  let '(the_id, w) := next_id w in
  let '(address, w) := new_object w in
  match p_data partial with
  | Some (Jsx e) =>
      let '(place, w) := new_element {| markup := markup e; key := Some the_id |} w in
      (Some {| ref := address;
               id := the_id;
               data := {| markup := markup e; key := Some the_id |};
               element := place;
               level := default "default" (p_level partial);
               time := default (Some 3000) (p_time partial);
               closable := default true (p_closable partial);
               context := default VNull (p_context partial) |}, w)
  | _ => (None, w)
  end.

Definition set_timeout (delay : Z) (n : Notification) (w : World) : World :=
  {| store := store w; notificationId := notificationId w;
     timers := timers w ++ [(delay, n)]; objects := objects w;
     held := held w; elements := elements w |}.

Definition with_ref (address : nat) (n : Notification) : Notification :=
  {| ref := address; id := id n; data := data n; element := element n; level := level n;
     time := time n; closable := closable n; context := context n |}.

(** The properties of a notification object. *)
Definition object_of (n : Notification) : Object :=
  {| o_data := Some (HeldElement (element n));
     o_level := Some (level n);
     o_time := Some (time n);
     o_closable := Some (closable n);
     o_context := Some (context n);
     o_id := Some (id n) |}.

(** The caller is returned the notification and holds it from now
    on. *)
Definition returned (n : Notification) (w : World) : World :=
  {| store := store w; notificationId := notificationId w;
     timers := timers w; objects := objects w;
     held := <[ref n := object_of n]> (held w); elements := elements w |}.

(** What [addNotification] does with the notification that
    [createNotification] has made. *)
Definition enqueue (created : option Notification) (w : World) : option Notification * World :=
  match created with
  | None => (None, w)
  | Some n =>
      let w := dispatch (addNotificationAction n) w in
      let w := match time n with Some t => set_timeout t n w | None => w end in
      (Some n, returned n w)
  end.

Definition addNotification (notification : Input) (w : World) : option Notification * World :=
  let '(created, w) :=
    match notification with
    | Deferred producer =>
        let '(n, w) := new_object w in
        let '(created, w) := createNotification (inr (producer n)) w in
        (with_ref n <$> created, w)
    | FromString s => createNotification (inl s) w
    | FromPartial p => createNotification (inr p) w
    end in
  enqueue created w.

(** *** Objects that are passed by reference *)

(** The caller evaluates an element expression and keeps the
    element. *)
Definition hold_element (e : Element) (w : World) : nat * World := new_element e w.

(** The caller builds an object and keeps it. *)
Definition hold (o : Object) (w : World) : nat * World :=
  (objects w,
   {| store := store w; notificationId := notificationId w;
      timers := timers w; objects := S (objects w);
      held := <[objects w := o]> (held w); elements := elements w |}).

Definition with_id (the_id : nat) (n : Notification) : Notification :=
  {| ref := ref n; id := the_id; data := data n; element := element n; level := level n;
     time := time n; closable := closable n; context := context n |}.

Definition with_key (the_id : nat) (n : Notification) : Notification :=
  {| ref := ref n; id := id n; data := {| markup := markup (data n); key := Some the_id |};
     element := element n; level := level n;
     time := time n; closable := closable n; context := context n |}.

(** [notification.id = the_id] for the object at [address]: the write
    shows wherever the object is held, the queue and the timers
    included. *)
Definition write_id (address the_id : nat) (w : World) : World :=
  let write n := if decide (ref n = address) then with_id the_id n else n in
  {| store :=
       {| issueNumber := issueNumber (store w);
          isAdmin := isAdmin (store w);
          notifications := write <$> notifications (store w);
          activeId := activeId (store w);
          theme := theme (store w) |};
     notificationId := notificationId w;
     timers := prod_map Datatypes.id write <$> timers w;
     objects := objects w;
     held :=
       alter (λ o, {| o_data := o_data o; o_level := o_level o; o_time := o_time o;
                      o_closable := o_closable o; o_context := o_context o;
                      o_id := Some the_id |})
         address (held w);
     elements := elements w |}.

(** [notification.data = element] for the object at [address], whose
    [data] was a string: only a caller's own object has a string
    there. *)
Definition write_data (address place : nat) (w : World) : World :=
  {| store := store w; notificationId := notificationId w;
     timers := timers w; objects := objects w;
     held :=
       alter (λ o, {| o_data := Some (HeldElement place); o_level := o_level o;
                      o_time := o_time o; o_closable := o_closable o;
                      o_context := o_context o; o_id := o_id o |})
         address (held w);
     elements := elements w |}.

(** [element.key = the_id] for the element at [place]: the write shows
    in every notification whose [data] is that element. *)
Definition write_key (place the_id : nat) (w : World) : World :=
  let write n := if decide (element n = place) then with_key the_id n else n in
  {| store :=
       {| issueNumber := issueNumber (store w);
          isAdmin := isAdmin (store w);
          notifications := write <$> notifications (store w);
          activeId := activeId (store w);
          theme := theme (store w) |};
     notificationId := notificationId w;
     timers := prod_map Datatypes.id write <$> timers w;
     objects := objects w;
     held := held w;
     elements := alter (λ e, {| markup := markup e; key := Some the_id |}) place (elements w) |}.

(** [createNotification] on the object that the caller holds at
    [address]. A string in [data] is replaced, in that object, by a new
    element; [id] is written to that object; the notification is a new
    object with the properties of that object over the defaults, its
    [data] the very element of that object; and [key] is written to
    that element. The result is [None] when there is no [data], or when
    [address] or the address in [data] holds nothing, which does not
    happen in the worlds that the interface leads to. *)
Definition createNotification_held (address : nat) (w : World) : option Notification * World :=
  match held w !! address with
  | None => (None, w)
  | Some o =>
      let '(the_data, w) :=
        match o_data o with
        | Some (HeldText s) =>
            let '(place, w) := new_element {| markup := Span s; key := None |} w in
            (Some place, write_data address place w)
        | Some (HeldElement place) => (Some place, w)
        | None => (None, w)
        end in
      let '(the_id, w) := next_id w in
      let w := write_id address the_id w in
      let '(fresh, w) := new_object w in
      match the_data with
      | None => (None, w)
      | Some place =>
          match elements w !! place with
          | None => (None, w)
          | Some e =>
              let w := write_key place the_id w in
              (Some {| ref := fresh;
                       id := the_id;
                       data := {| markup := markup e; key := Some the_id |};
                       element := place;
                       level := default "default" (o_level o);
                       time := default (Some 3000) (o_time o);
                       closable := default true (o_closable o);
                       context := default VNull (o_context o) |}, w)
          end
      end
  end.

(** [addNotification(o)] for an object [o] that the caller holds. *)
Definition addNotification_held (address : nat) (w : World) : option Notification * World :=
  let '(created, w) := createNotification_held address w in
  enqueue created w.

Definition removeNotification (notification : Notification) (w : World) : World :=
  dispatch (removeNotificationAction notification) w.

Definition removeNotificationsWithContext (c : Value) (w : World) : World :=
  setState
    {| set_issueNumber := None; set_isAdmin := None;
       set_notifications :=
         Some (filter (λ n, strict_equal (context n) c = false) (notifications (store w)));
       set_activeId := None; set_theme := None |}
    w.

(** The [i]-th pending timer elapses: its callback dispatches the
    removal of its notification. *)
Definition timer_fires (i : nat) (w : World) : World :=
  match timers w !! i with
  | None => w
  | Some (_, n) =>
      dispatch (removeNotificationAction n)
        {| store := store w; notificationId := notificationId w;
           timers := delete i (timers w); objects := objects w;
           held := held w; elements := elements w |}
  end.

(** The caller can build an object whose [data] is a string or an
    element that exists. *)
Definition holdable (o : Object) (w : World) : Prop :=
  match o_data o with
  | Some (HeldElement place) => is_Some (elements w !! place)
  | _ => True
  end.

(** One call of the notification interface, one timer elapsing, or a
    caller making an object or an element of its own. *)
Inductive queue_step : World → World → Prop :=
| step_add input w : queue_step w (addNotification input w).2
| step_add_held address w :
    is_Some (held w !! address) → queue_step w (addNotification_held address w).2
| step_hold o w : holdable o w → queue_step w (hold o w).2
| step_hold_element e w : queue_step w (hold_element e w).2
| step_remove n w : queue_step w (removeNotification n w)
| step_remove_context c w : queue_step w (removeNotificationsWithContext c w)
| step_timer i w : queue_step w (timer_fires i w).

(** These, and [setState] of the other properties of the state, as
    [setTheme] and the login form call it; [notifications] is set
    through the notification interface only, by
    [removeNotificationsWithContext]. *)
Inductive step : World → World → Prop :=
| step_queue w w' : queue_step w w' → step w w'
| step_setState state w : set_notifications state = None → step w (setState state w).

Definition reachable (w : World) : Prop := rtc step initialWorld w.

(** The steps in which no object is passed to [addNotification] a
    second time: every notification is added from a string, an object
    literal or a producer. *)
Inductive literal_step : World → World → Prop :=
| literal_add input w : literal_step w (addNotification input w).2
| literal_hold o w : holdable o w → literal_step w (hold o w).2
| literal_hold_element e w : literal_step w (hold_element e w).2
| literal_remove n w : literal_step w (removeNotification n w)
| literal_remove_context c w : literal_step w (removeNotificationsWithContext c w)
| literal_timer i w : literal_step w (timer_fires i w)
| literal_setState state w :
    set_notifications state = None → literal_step w (setState state w).

Definition reachable_with_literals (w : World) : Prop := rtc literal_step initialWorld w.

(** No notification with the identity of [n] is queued. *)
Definition absent (n : Notification) (queue : list Notification) : Prop :=
  ∀ m, m ∈ queue → ref m ≠ ref n.

(** The notification that [addNotification] builds from the string
    [s]. *)
Definition from_string (s : string) (w : World) : Notification :=
  {| ref := objects w;
     id := notificationId w;
     data := {| markup := Span s; key := Some (notificationId w) |};
     element := S (objects w);
     level := "default";
     time := Some 3000;
     closable := true;
     context := VNull |}.

(** The queue without the notification object [n]. *)
Definition without (n : Notification) (queue : list Notification) : list Notification :=
  filter (λ m, ref m ≠ ref n) queue.

(** The argument of [addNotification] has no [context] property. *)
Definition no_explicit_context (notification : Input) (w : World) : Prop :=
  match notification with
  | FromString _ => True
  | FromPartial p => p_context p = None
  | Deferred producer => p_context (producer (objects w)) = None
  end.

(** What holds of the worlds that the interface leads to: the queued
    notifications are distinct objects, created before now, and each one
    with a [time] has its timer pending. *)
Record well_formed (w : World) : Prop := {
  distinct : NoDup (ref <$> notifications (store w));
  created : Forall (λ n, (ref n < objects w)%nat) (notifications (store w));
  scheduled : ∀ n t, n ∈ notifications (store w) → time n = Some t → (t, n) ∈ timers w;
}.

(** And of the objects in them: those that are held and the elements
    have been created before now, and the [data] of a held object is a
    string or an element that exists. *)
Record heap_formed (w : World) : Prop := {
  held_created : ∀ address o, held w !! address = Some o → (address < objects w)%nat;
  elements_created : ∀ place e, elements w !! place = Some e → (place < objects w)%nat;
  held_data : ∀ address o, held w !! address = Some o → holdable o w;
}.

(** The queue and the timers show the objects as they are: what a
    queued or scheduled notification shows is what the object at its
    address, and the element at the address of its [data], hold. *)
Definition shown (w : World) (n : Notification) : Prop :=
  held w !! ref n = Some (object_of n) ∧ elements w !! element n = Some (data n).

Record up_to_date (w : World) : Prop := {
  queue_shown : ∀ n, n ∈ notifications (store w) → shown w n;
  timers_shown : ∀ t n, (t, n) ∈ timers w → shown w n;
}.

(** [m] is the object [n], as it is after writes to its [id] and to the
    [key] of its element: these are the only writes that
    [createNotification] makes to an object that exists. *)
Definition same_notification (m n : Notification) : Prop :=
  ref m = ref n ∧ time m = time n ∧ level m = level n ∧ closable m = closable n
  ∧ context m = context n ∧ markup (data m) = markup (data n) ∧ element m = element n.

Definition rewrites (f : Notification → Notification) : Prop :=
  ∀ n, same_notification (f n) n.

(** The cases of [a !== b], [a] and [b] told apart by what they are:
    they differ, or one of them is [NaN]. *)
Definition differs (a b : Value) : Prop := a ≠ b ∨ a = VNaN ∨ b = VNaN.

#[export] Instance differs_dec a b : Decision (differs a b).
Proof. unfold differs. apply _. Defined.

(** A world in which the notification returned for ["x"] has been
    passed to [addNotification] again. *)
Definition readded_example : World :=
  (addNotification_held 0 (addNotification (FromString "x") initialWorld).2).2.

(** A world in which one object [{ data: "x" }] has been passed to
    [addNotification] twice. *)
Definition example_object : Object :=
  {| o_data := Some (HeldText "x"); o_level := None; o_time := None;
     o_closable := None; o_context := None; o_id := None |}.

Definition twice_example : World :=
  (addNotification_held 0 (addNotification_held 0 (hold example_object initialWorld).2).2).2.

End Store.

(** ** Further vocabulary for the properties *)

Module Terms.
Import Api.

(** The patch that [updateArticle] gets when only the id is given. *)
Definition patch_of (the_id : string) : ArticlePatch :=
  {| patch_id := Some the_id; patch_title := None;
     patch_snippet := None; patch_content := None |}.

(** The cached articles are objects created so far, and no two slugs
    hold the same object. *)
Record instances_distinct (st : Cache) : Prop := {
  instances_created : ∀ k a, articlesCache st !! k = Some a → (instance a < allocated st)%nat;
  instances_apart : ∀ k1 k2 a1 a2,
    articlesCache st !! k1 = Some a1 → articlesCache st !! k2 = Some a2 →
    instance a1 = instance a2 → k1 = k2;
}.

(** The argument of [addNotification] comes with [data]. *)
Definition has_data (notification : Store.Input) (w : Store.World) : Prop :=
  match notification with
  | Store.FromString _ => True
  | Store.FromPartial p => is_Some (Store.p_data p)
  | Store.Deferred producer => is_Some (Store.p_data (producer (Store.objects w)))
  end.

(** The steps that remove nothing on request: a call of
    [addNotification], a timer elapsing, a caller making an object, and
    [setState] of the other properties. *)
Inductive unattended : Store.World → Store.World → Prop :=
| unattended_add input w : unattended w (Store.addNotification input w).2
| unattended_add_held address w : unattended w (Store.addNotification_held address w).2
| unattended_hold o w : unattended w (Store.hold o w).2
| unattended_hold_element e w : unattended w (Store.hold_element e w).2
| unattended_setState state w :
    Store.set_notifications state = None → unattended w (Store.setState state w)
| unattended_timer i w : unattended w (Store.timer_fires i w).

(** The pending timers are for objects created before now. *)
Definition timers_created (w : Store.World) : Prop :=
  Forall (λ tn : Z * Store.Notification, (Store.ref tn.2 < Store.objects w)%nat) (Store.timers w).

(** The queued notifications carry the ids in which they were created,
    in increasing order, and each is rendered under its id as key. *)
Record ids_increasing (w : Store.World) : Prop := {
  ids_sorted : StronglySorted lt (Store.id <$> Store.notifications (Store.store w));
  ids_issued : Forall (λ n, (Store.id n < Store.notificationId w)%nat)
                 (Store.notifications (Store.store w));
  ids_keys : Forall (λ n, Store.key (Store.data n) = Some (Store.id n))
               (Store.notifications (Store.store w));
}.

End Terms.

(** ** The rest of the API module ([api.ts]): storage, login, lists *)

Module Session.
Import Api.

(** The constants of [settings] and the functions of the platform and of
    [utils] that this part calls and does not define. [btoa] is [None]
    when it throws on a character outside Latin-1; [prefers_dark] is
    [window.matchMedia("(prefers-color-scheme: dark)").matches]. *)
Class Surroundings := {
  Date : Type;
  fromServerTime : string → Date;
  btoa : string → option string;
  prefers_dark : bool;
}.

(** A [Headers] object: the pairs in the order they were appended. *)
Abbreviation Headers := (list (string * string)).

(** The JSON bodies sent by this part. *)
Inductive Sent :=
| Nothing
| FeedLink (feedlink : string).

(** The [options] a caller hands to [request]. *)
Record RequestInit := {
  init_method : option Method;
  init_headers : option Headers;
  init_body : Sent;
}.

Definition no_options : RequestInit :=
  {| init_method := None; init_headers := None; init_body := Nothing |}.

Definition with_method (m : Method) : RequestInit :=
  {| init_method := Some m; init_headers := None; init_body := Nothing |}.

(** Where a [fetch] goes: the API root followed by an endpoint, with or
    without the [?timestamp=] suffix, or an address of its own. *)
Inductive Url :=
| ApiStamped (endpoint : string) (timestamp : Z)
| ApiPlain (endpoint : string)
| Absolute (address : string).

(** The arguments of one [fetch]. *)
Record Fetch := {
  url : Url;
  mode : option string;
  credentials : option string;
  sent_method : option Method;
  headers : Headers;
  sent_body : Sent;
}.

Inductive Effect :=
| Fetched (f : Fetch)
| Logged.

(** The module state: the article cache, [localStorage], and the clock
    that [new Date().getTime()] reads. *)
Record Browser := {
  articles : Cache;
  localStorage : gmap string string;
  clock : Z;
}.

Record Act (A E : Type) : Type := {
  settled : Promise A E;
  browser : Browser;
  effects : list Effect;
}.
Arguments settled {A E} _.
Arguments browser {A E} _.
Arguments effects {A E} _.

Definition Task (E A : Type) : Type := Browser → Act A E.

Definition ret {E A} (a : A) : Task E A :=
  λ b, {| settled := Resolved a; browser := b; effects := [] |}.

Definition throw {E A} (e : E) : Task E A :=
  λ b, {| settled := Rejected e; browser := b; effects := [] |}.

Definition bind {E A B} (m : Task E A) (k : A → Task E B) : Task E B :=
  λ b,
    let r := m b in
    match settled r with
    | Resolved a =>
        let r' := k a (browser r) in
        {| settled := settled r'; browser := browser r'; effects := effects r ++ effects r' |}
    | Rejected e => {| settled := Rejected e; browser := browser r; effects := effects r |}
    | Pending => {| settled := Pending; browser := browser r; effects := effects r |}
    end.

(** [m.catch(handler)] *)
Definition catch {E E' A} (m : Task E A) (handler : E → Task E' A) : Task E' A :=
  λ b,
    let r := m b in
    match settled r with
    | Resolved a => {| settled := Resolved a; browser := browser r; effects := effects r |}
    | Rejected e =>
        let r' := handler e (browser r) in
        {| settled := settled r'; browser := browser r'; effects := effects r ++ effects r' |}
    | Pending => {| settled := Pending; browser := browser r; effects := effects r |}
    end.

#[export] Instance Task_ret {E} : MRet (Task E) := λ A, ret.
#[export] Instance Task_bind {E} : MBind (Task E) := λ A B k m, bind m k.

Definition get {E} : Task E Browser :=
  λ b, {| settled := Resolved b; browser := b; effects := [] |}.

Definition effect {E} (e : Effect) : Task E unit :=
  λ b, {| settled := Resolved tt; browser := b; effects := [e] |}.

(** [localStorage.setItem(key, value)] *)
Definition setItem {E} (key value : string) : Task E unit :=
  λ b,
    {| settled := Resolved tt;
       browser := {| articles := articles b;
                     localStorage := <[key := value]> (localStorage b);
                     clock := clock b |};
       effects := [] |}.

(** [localStorage.removeItem(key)] *)
Definition removeItem {E} (key : string) : Task E unit :=
  λ b,
    {| settled := Resolved tt;
       browser := {| articles := articles b;
                     localStorage := delete key (localStorage b);
                     clock := clock b |};
       effects := [] |}.

(** A new article object, numbered like those of the cache. *)
Definition new_article `{Platform} {E} (init : ArticleInit) : Task E Article :=
  λ b,
    {| settled := Resolved (processArticle (allocated (articles b)) init);
       browser := {| articles := {| articlesCache := articlesCache (articles b);
                                    articlesIdSlugMap := articlesIdSlugMap (articles b);
                                    allocated := S (allocated (articles b)) |};
                     localStorage := localStorage b;
                     clock := clock b |};
       effects := [] |}.

(** *** The request gateway, with its headers *)

Definition auth_key : string := "rt-news.auth".

(** A string is truthy when it is not empty. *)
Definition truthy (s : string) : bool := bool_decide (s ≠ "").

(** [localStorage.getItem("rt-news.auth")], when it is truthy. *)
Definition credential (b : Browser) : option string :=
  match localStorage b !! auth_key with
  | Some auth => if truthy auth then Some auth else None
  | None => None
  end.

(** [request(endpoint, options)], as in the module [Api], with the
    headers, the time stamp and the other arguments of [fetch] spelled
    out. *)
Definition request {B} (endpoint : string) (options : RequestInit)
    (reply : FetchOutcome B) : Task (Failure B) (option B) :=
  b ← get;
  let headers := default [] (init_headers options) in
  let headers :=
    match credential b with
    | Some auth => headers ++ [("Authorization", "Basic " +:+ auth)]
    | None => headers
    end in
  effect (Fetched {| url := ApiStamped endpoint (clock b);
                     mode := Some "cors";
                     credentials := Some "omit";
                     sent_method := init_method options;
                     headers := headers;
                     sent_body := init_body options |});;
  match reply with
  | NetworkFailure => throw FetchFailed
  | Responded req =>
      if decide (400 ≤ status req) then throw (RawResponse req)
      else
        match body req with
        | Json v => ret (Some v)
        | JsonNull => ret None
        | Unparsable => ret None
        end
  end.

(** *** Lists of articles *)

Definition update (reply : FetchOutcome unit) : Task (Failure unit) (option unit) :=
  request "/news/reload" (with_method PUT) reply.

(** [articles.map(processArticle)]; on [null] the call of [map]
    throws. *)
Fixpoint process_each `{Platform} {E} (articles : list ArticleInit) : Task E (list Article) :=
  match articles with
  | [] => ret []
  | init :: rest =>
      article ← new_article init;
      others ← process_each rest;
      ret (article :: others)
  end.

Definition processArticles `{Platform} {B} (articles : option (list ArticleInit))
  : Task (Failure B) (list Article) :=
  match articles with
  | None => throw TypeError
  | Some l => process_each l
  end.

Definition getNews `{Platform} (reply : FetchOutcome (list ArticleInit))
  : Task (Failure (list ArticleInit)) (list Article) :=
  request "/news" no_options reply ≫= processArticles.

Definition getArchiveNews `{Platform} (reply : FetchOutcome (list ArticleInit))
  : Task (Failure (list ArticleInit)) (list Article) :=
  request "/news/archive" no_options reply ≫= processArticles.

Definition getDeletedNews `{Platform} (reply : FetchOutcome (list ArticleInit))
  : Task (Failure (list ArticleInit)) (list Article) :=
  request "/news/del" no_options reply ≫= processArticles.

(** *** The active article and the show *)

(** [request("/news/active/id").then(x => x.id || null).catch(() => null)] *)
Definition getActiveArticle (reply : FetchOutcome ActiveReply)
  : Task (Failure ActiveReply) (option string) :=
  catch
    (x ← request "/news/active/id" no_options reply;
     match x with
     | None => throw TypeError
     | Some {| active_id := Some i |} => ret (if truthy i then Some i else None)
     | Some {| active_id := None |} => ret None
     end)
    (λ _, ret None).

(** The body of [/show/start], typed [{ started?: string }]. *)
Record ShowReply := { started : option string }.

Definition getShowStartTime `{Surroundings} (reply : FetchOutcome ShowReply)
  : Task (Failure ShowReply) (option Date) :=
  catch
    (obj ← request "/show/start" no_options reply;
     match obj with
     | None => throw TypeError
     | Some {| started := Some s |} =>
         ret (if truthy s then Some (fromServerTime s) else None)
     | Some {| started := None |} => ret None
     end)
    (λ e, effect Logged;; ret None).

(** *** Feeds *)

Definition addFeed (the_url : string) (reply : FetchOutcome unit)
  : Task (Failure unit) (option unit) :=
  let headers := [("Content-Type", "application/json")] in
  request "/feeds"
    {| init_method := Some POST; init_headers := Some headers;
       init_body := FeedLink the_url |}
    reply.

Definition removeFeed (the_id : string) (reply : FetchOutcome unit)
  : Task (Failure unit) (option unit) :=
  request ("/feeds/" +:+ the_id) (with_method DELETE) reply.

(** *** Proposed topics *)

(** An element of the list that the site answers with. *)
Record PrepPost := { post_url : option string }.

Inductive PrepFailure :=
| PrepFetchFailed
| PrepSyntaxError
| PrepTypeError.

(** [getPrepTopicsURL]. With a status of 400 or more the first callback
    returns (and does not throw) an [Error]; the second callback then
    reads [data[0].url] of it, which throws. *)
Definition getPrepTopicsURL (reply : FetchOutcome (list PrepPost))
  : Task PrepFailure (option string) :=
  effect (Fetched {| url := Absolute "https://radio-t.com/site-api/last/1?categories=prep";
                     mode := None; credentials := None; sent_method := None;
                     headers := []; sent_body := Nothing |});;
  match reply with
  | NetworkFailure => throw PrepFetchFailed
  | Responded resp =>
      if decide (400 ≤ status resp) then throw PrepTypeError
      else
        match body resp with
        | Unparsable => throw PrepSyntaxError
        | JsonNull => throw PrepTypeError
        | Json [] => ret None
        | Json (first_post :: _) =>
            ret (match post_url first_post with
                 | Some u => if truthy u then Some u else None
                 | None => None
                 end)
        end
  end.

(** *** Preferences kept in [localStorage] *)

(** An option of [settings], of which the module reads the title. *)
Record Choice := {
  title : string;
  details : Z;
}.

Class Settings := {
  postRecentness : list Choice;
  postLevels : list Choice;
  sortings : list Choice;
}.

(** Modelled from the spec: [first] of [utils], the generic
    array-find-first helper: the first element that satisfies the
    predicate, if there is one. *)
Fixpoint first {A} (l : list A) (p : A → bool) : option A :=
  match l with
  | [] => None
  | x :: r => if p x then Some x else first r p
  end.

(** [first(choices, x => x.title === s) || choices[0]] with
    [s = localStorage.getItem(key)]. *)
Definition stored_choice (key : string) (choices : list Choice) (b : Browser) : option Choice :=
  let s := localStorage b !! key in
  match first choices (λ x, bool_decide (Some (title x) = s)) with
  | Some x => Some x
  | None => head choices
  end.

Definition getRecentness `{Settings} (b : Browser) : option Choice :=
  stored_choice "recentness" postRecentness b.

Definition setRecentness {E} (value : Choice) : Task E unit :=
  setItem "recentness" (title value).

Definition getPostLevel `{Settings} (b : Browser) : option Choice :=
  stored_choice "postLevel" postLevels b.

Definition setPostLevel {E} (value : Choice) : Task E unit :=
  setItem "postLevel" (title value).

Definition getSorting `{Settings} (b : Browser) : option Choice :=
  stored_choice "sorting" sortings b.

Definition setSorting {E} (value : Choice) : Task E unit :=
  setItem "sorting" (title value).

Definition getTheme `{Surroundings} (b : Browser) : string :=
  match localStorage b !! "theme" with
  | Some s => s
  | None => if prefers_dark then "night" else "day"
  end.

Definition setTheme {E} (value : string) : Task E unit :=
  setItem "theme" value.

(** *** Logging in and out *)

(** [loginViaHeader(header)]: the probe is sent with [fetch] itself,
    without time stamp, and resolves to whether the status is 200. *)
Definition loginViaHeader {B E} (header : string) (reply : FetchOutcome B) : Task E bool :=
  effect (Fetched {| url := ApiPlain "/news/reload";
                     mode := Some "cors";
                     credentials := Some "omit";
                     sent_method := Some PUT;
                     headers := [("Authorization", "Basic " +:+ header)];
                     sent_body := Nothing |});;
  match reply with
  | NetworkFailure => ret false
  | Responded response => ret (bool_decide (status response = 200))
  end.

(** [login(user, password)]; [None] when [btoa] throws, before anything
    is sent. *)
Definition login `{Surroundings} {B E} (user password : string) (reply : FetchOutcome B)
  : option (Task E bool) :=
  auth ← btoa (user +:+ ":" +:+ password);
  Some (result ← loginViaHeader auth reply;
        (if result : bool then setItem auth_key auth else ret tt);;
        ret result).

(** What [loginViaStorage] comes to: [false] at once, or the call
    [retry(() => loginViaHeader(auth), 3, 1000)] with these
    arguments. *)
Inductive StorageLogin (B E : Type) : Type :=
| NoCredential
| Retry (attempt : FetchOutcome B → Task E bool) (times : Z) (delay : Z).
Arguments NoCredential {B E}.
Arguments Retry {B E} attempt times delay.

Definition loginViaStorage {B E} (b : Browser) : StorageLogin B E :=
  match credential b with
  | None => NoCredential
  | Some auth => Retry (loginViaHeader auth) 3 1000
  end.

Definition logout {E} : Task E unit := removeItem auth_key.

(** A stand-in for the surroundings, for examples; its [btoa] leaves the
    string as it is. *)
Definition example_surroundings : Surroundings :=
  {| Date := Z; fromServerTime := λ _, 0; btoa := λ s, Some s; prefers_dark := false |}.

(** The headers that [request] sends for the caller's [options]. *)
Definition sent_headers (options : RequestInit) (b : Browser) : Headers :=
  default [] (init_headers options)
  ++ match credential b with
     | Some auth => [("Authorization", "Basic " +:+ auth)]
     | None => []
     end.

(** The list of articles that a reply hands to [processArticles]. *)
Definition listed (reply : FetchOutcome (list ArticleInit)) : option (list ArticleInit) :=
  match reply with
  | Responded resp =>
      if decide (400 ≤ status resp) then None else parsed (body resp)
  | NetworkFailure => None
  end.

Definition example_settings : Settings :=
  {| postRecentness := [{| title := "day"; details := 1 |}; {| title := "week"; details := 7 |}];
     postLevels := [{| title := "all"; details := 0 |}];
     sortings := [{| title := "priority"; details := 0 |}] |}.

End Session.

(** ** The theme switch of the store ([setTheme] in [store.tsx]) *)

Module Guard.

(** The store together with what [setTheme] reads and writes besides:
    [themeCounter], [document.documentElement.dataset.theme], whether
    the class list has ["switch-transition"], and the timers it has set
    and that have not fired. The timers of 10 ms, which apply a theme,
    fire in the order in which they were set, and so do those of
    1500 ms, which end a transition and are all alike. *)
Record Page := {
  world : Store.World;
  themeCounter : Z;
  dataset_theme : option Store.Theme;
  switch_transition : bool;
  applying : list Store.Theme;
  settling : nat;
}.

Definition initialPage : Page :=
  {| world := Store.initialWorld; themeCounter := 0; dataset_theme := None;
     switch_transition := false; applying := []; settling := 0 |}.

Definition setTheme (theme : Store.Theme) (immediate : bool) (p : Page) : Page :=
  let w :=
    Store.setState
      {| Store.set_issueNumber := None; Store.set_isAdmin := None;
         Store.set_notifications := None; Store.set_activeId := None;
         Store.set_theme := Some theme |}
      (world p) in
  if immediate then
    {| world := w; themeCounter := themeCounter p; dataset_theme := Some theme;
       switch_transition := switch_transition p;
       applying := applying p; settling := settling p |}
  else
    {| world := w; themeCounter := themeCounter p + 1; dataset_theme := dataset_theme p;
       switch_transition := true;
       applying := applying p ++ [theme]; settling := settling p |}.

(** The oldest timer of 10 ms fires: the theme is applied and the timer
    of 1500 ms is set. *)
Definition apply_fires (p : Page) : Page :=
  match applying p with
  | [] => p
  | theme :: later =>
      {| world := world p; themeCounter := themeCounter p; dataset_theme := Some theme;
         switch_transition := switch_transition p;
         applying := later; settling := S (settling p) |}
  end.

(** A timer of 1500 ms fires: [--themeCounter], and the class is removed
    when [themeCounter < 1]. *)
Definition settle_fires (p : Page) : Page :=
  match settling p with
  | O => p
  | S n =>
      let counter := themeCounter p - 1 in
      {| world := world p; themeCounter := counter; dataset_theme := dataset_theme p;
         switch_transition := if decide (counter < 1) then false else switch_transition p;
         applying := applying p; settling := n |}
  end.

(** The notification interface at work on the store of the page. *)
Definition with_world (w : Store.World) (p : Page) : Page :=
  {| world := w; themeCounter := themeCounter p; dataset_theme := dataset_theme p;
     switch_transition := switch_transition p;
     applying := applying p; settling := settling p |}.

(** A timer of [setTheme] fires, or the notification queue moves. *)
Inductive passes : Page → Page → Prop :=
| passes_apply p : passes p (apply_fires p)
| passes_settle p : passes p (settle_fires p)
| passes_queue p w : Store.queue_step (world p) w → passes p (with_world w p).

Inductive step : Page → Page → Prop :=
| step_setTheme theme immediate p : step p (setTheme theme immediate p)
| step_passes p p' : passes p p' → step p p'.

Definition reachable (p : Page) : Prop := rtc step initialPage p.

(** What [setTheme] keeps: the counter counts the timers that have not
    fired, and the class is on exactly while the counter is above 0. *)
Definition guarded (p : Page) : Prop :=
  themeCounter p = Z.of_nat (length (applying p) + settling p)
  ∧ (switch_transition p = true ↔ 0 < themeCounter p).

(** What the document shows once the pending timers of 10 ms have
    fired. *)
Definition awaited (p : Page) : option Store.Theme :=
  match last (applying p) with
  | Some theme => Some theme
  | None => dataset_theme p
  end.

End Guard.

(** ** The notification list ([notifications.jsx]) *)

Module View.

(** One rendered notification: its class, its React key, what it shows,
    and the notification its close button removes, if it has one. *)
Record Item := {
  className : string;
  item_key : nat;
  content : Store.Element;
  close : option Store.Notification;
}.

Definition render (n : Store.Notification) : Item :=
  {| className :=
       "notifications__item "
       +:+ (if Session.truthy (Store.level n)
            then "notifications__item-level-" +:+ Store.level n else "");
     item_key := Store.id n;
     content := Store.data n;
     close := if Store.closable n then Some n else None |}.

(** [Notifications(props)]; [None] is a missing [props.notifications]. *)
Definition Notifications (notifications : option (list Store.Notification)) : list Item :=
  match notifications with
  | None => []
  | Some l => render <$> reverse l
  end.

(** A click on the close button of an item. *)
Definition click (item : Item) (w : Store.World) : Store.World :=
  match close item with
  | Some n => Store.removeNotification n w
  | None => w
  end.

End View.

(** ** The callers in the header and the login form *)

Module Shell.
Import Session.

(** The page as the callers see it: the API module and the store. *)
Record App := {
  api : Browser;
  world : Store.World;
}.

(** The element [<b>...</b>] that the header puts into its
    notifications; the text inside is not part of [Store.Markup]. *)
Definition bold : Store.PartialData :=
  Store.Jsx {| Store.markup := Store.Component "b"; Store.key := None |}.

(** [Head.logout()] *)
Definition Head_logout (a : App) : App :=
  {| api := browser (logout (E:=unit) (api a));
     world :=
       Store.setState
         {| Store.set_issueNumber := None; Store.set_isAdmin := Some false;
            Store.set_notifications := None; Store.set_activeId := None;
            Store.set_theme := None |}
         (world a) |}.

(** [Head.update()]: [update().then(...).catch(...)]. The result is the
    page afterwards and what was sent and logged. *)
Definition Head_update (reply : Api.FetchOutcome unit) (a : App) : App * list Effect :=
  let r := update reply (api a) in
  match settled r with
  | Resolved _ =>
      ({| api := browser r;
          world :=
            (Store.addNotification
               (Store.FromPartial
                  {| Store.p_data := Some bold; Store.p_level := None;
                     Store.p_time := None; Store.p_closable := None;
                     Store.p_context := None |})
               (world a)).2 |},
       effects r)
  | Rejected e =>
      ({| api := browser r;
          world :=
            (Store.addNotification
               (Store.FromPartial
                  {| Store.p_data := Some bold; Store.p_level := Some "error";
                     Store.p_time := None; Store.p_closable := None;
                     Store.p_context := None |})
               (world a)).2 |},
       effects r ++ [Logged])
  | Pending => ({| api := browser r; world := world a |}, effects r)
  end.

(** The state of the login form, and its timers of 7000 ms that have not
    fired. *)
Record LoginForm := {
  user : string;
  password : string;
  denied : Z;
  loggedIn : bool;
  cooling : nat;
}.

(** The form after a refused attempt: [denied] goes up and a timer of
    7000 ms is set. *)
Definition refused (form : LoginForm) : LoginForm :=
  {| user := user form; password := password form; denied := denied form + 1;
     loggedIn := loggedIn form; cooling := S (cooling form) |}.

(** [LoginForm.onSubmit(e)]; [None] when [login] throws. *)
Definition onSubmit `{Surroundings} (reply : Api.FetchOutcome unit) (form : LoginForm) (a : App)
  : option (LoginForm * App * list Effect) :=
  run ← login (E:=unit) (user form) (password form) reply;
  let r := run (api a) in
  Some
    match settled r with
    | Resolved true =>
        ({| user := user form; password := password form; denied := denied form;
            loggedIn := true; cooling := cooling form |},
         {| api := browser r;
            world :=
              Store.setState
                {| Store.set_issueNumber := None; Store.set_isAdmin := Some true;
                   Store.set_notifications := None; Store.set_activeId := None;
                   Store.set_theme := None |}
                (world a) |},
         effects r)
    | Resolved false => (refused form, {| api := browser r; world := world a |}, effects r)
    | Rejected e =>
        (refused form, {| api := browser r; world := world a |}, effects r ++ [Logged])
    | Pending => (form, {| api := browser r; world := world a |}, effects r)
    end.

(** A timer of the form fires: [denied] goes down by one, not below
    0. *)
Definition cooled (form : LoginForm) : LoginForm :=
  match cooling form with
  | O => form
  | S n =>
      let d := denied form - 1 in
      {| user := user form; password := password form;
         denied := if decide (d < 0) then 0 else d;
         loggedIn := loggedIn form; cooling := n |}
  end.

Definition initialForm : LoginForm :=
  {| user := ""; password := ""; denied := 0; loggedIn := false; cooling := 0 |}.

(** What happens to the form: an attempt is refused, a timer fires, or
    the fields are typed in. *)
Inductive form_step : LoginForm → LoginForm → Prop :=
| form_refused form : form_step form (refused form)
| form_cooled form : form_step form (cooled form)
| form_typed form u p :
    form_step form
      {| user := u; password := p; denied := denied form;
         loggedIn := loggedIn form; cooling := cooling form |}.

End Shell.

(** * Properties

    ** Snippet normalisation *)

Module SnippetFacts.
Import JsString.

Lemma tab_or_space_whitespace c : tab_or_space c = is_whitespace c.
Proof.
  unfold tab_or_space. destruct (N.eqb_spec c 9) as [->|]; reflexivity.
Qed.

Lemma long_word_char_solid c : long_word_char c = true → tab_or_space c = false.
Proof.
  rewrite tab_or_space_whitespace. unfold long_word_char.
  destruct (is_whitespace c); simpl; congruence.
Qed.

Lemma whitespace_not_word c : tab_or_space c = true → long_word_char c = false.
Proof.
  rewrite tab_or_space_whitespace. unfold long_word_char. intros ->. reflexivity.
Qed.

Lemma take_run n (s : t) :
  (n <=? length (take n s))%nat && forallb long_word_char (take n s)
  = (n <=? word_run s)%nat.
Proof.
  revert s. induction n as [|n IH]; intros [|c r]; simpl; try reflexivity.
  destruct (long_word_char c); simpl.
  - rewrite ?andb_true_l. apply IH.
  - rewrite ?andb_false_l, ?andb_false_r. reflexivity.
Qed.

Lemma long_word_at_run s : long_word_at s = (16 <=? word_run s)%nat.
Proof. unfold long_word_at. apply take_run. Qed.

Lemma word_run_replace_whitespace s : word_run (replace_whitespace s) = word_run s.
Proof.
  funelim (replace_whitespace s); simpl.
  - reflexivity.
  - rewrite (whitespace_not_word c) by assumption. reflexivity.
  - match goal with IH : word_run _ = word_run _ |- _ => rewrite IH end. reflexivity.
Qed.

Lemma has_long_word_skip s : has_long_word (skip_whitespace s) = has_long_word s.
Proof.
  induction s as [|c r IH]; [reflexivity|].
  cbn [skip_whitespace]. destruct (tab_or_space c) eqn:Hc; [|reflexivity].
  rewrite IH. cbn [has_long_word]. rewrite long_word_at_run. simpl.
  rewrite (whitespace_not_word c Hc). reflexivity.
Qed.

Lemma has_long_word_replace_whitespace s :
  has_long_word (replace_whitespace s) = has_long_word s.
Proof.
  funelim (replace_whitespace s).
  - reflexivity.
  - cbn [has_long_word].
    match goal with IH : has_long_word _ = has_long_word _ |- _ => rewrite IH end.
    rewrite has_long_word_skip, !long_word_at_run. simpl.
    rewrite (whitespace_not_word c) by assumption. reflexivity.
  - cbn [has_long_word].
    match goal with IH : has_long_word _ = has_long_word _ |- _ => rewrite IH end.
    rewrite !long_word_at_run. cbn [word_run].
    rewrite word_run_replace_whitespace. reflexivity.
Qed.

Lemma replace_long_words_none s : has_long_word s = false → replace_long_words s = s.
Proof.
  funelim (replace_long_words s); intros Hs.
  - reflexivity.
  - cbn [has_long_word] in Hs. apply orb_false_iff in Hs as [Hs _]. congruence.
  - cbn [has_long_word] in Hs. apply orb_false_iff in Hs as [_ Hs].
    f_equal. auto.
Qed.

Lemma has_long_word_replace_long_words s :
  has_long_word s = true → has_long_word (replace_long_words s) = true.
Proof.
  funelim (replace_long_words s); intros Hs.
  - discriminate.
  - destruct (take 16 (c :: r)) as [|c' r'] eqn:Htake; [discriminate|].
    cbn [app has_long_word]. apply orb_true_iff. left.
    unfold long_word_at in *.
    change (c' :: r' ++ shy ++ replace_long_words (drop 16 (c :: r)))
      with ((c' :: r') ++ shy ++ replace_long_words (drop 16 (c :: r))).
    rewrite <- Htake.
    assert (Hlen : length (take 16 (c :: r)) = 16%nat).
    { apply andb_true_iff in Heq as [Hlen _]. apply Nat.leb_le in Hlen.
      pose proof (length_take_le (c :: r) 16). rewrite length_take in *. lia. }
    rewrite take_app_length' by (symmetry; exact Hlen). exact Heq.
  - cbn [has_long_word] in *. rewrite Heq in Hs. simpl in Hs.
    apply orb_true_iff. right. auto.
Qed.

Lemma replace_long_words_longer s :
  has_long_word s = true → (length s < length (replace_long_words s))%nat.
Proof.
  funelim (replace_long_words s); intros Hs.
  - discriminate.
  - rewrite !length_app.
    assert (length (replace_long_words (drop 16 (c :: r))) >= length (drop 16 (c :: r)))%nat.
    { destruct (has_long_word (drop 16 (c :: r))) eqn:Hd.
      - match goal with IH : _ → (_ < _)%nat |- _ => specialize (IH Hd); simpl in *; lia end.
      - rewrite replace_long_words_none by exact Hd. lia. }
    pose proof (f_equal length (take_drop 16 (c :: r))) as Hsplit.
    rewrite length_app in Hsplit. change (length shy) with 5%nat.
    remember (c :: r) as s. lia.
  - cbn [has_long_word] in Hs. rewrite Heq in Hs. simpl in *.
    match goal with IH : _ → (_ < _)%nat |- _ => specialize (IH Hs); lia end.
Qed.

Lemma starts_solid_skip s : starts_solid (skip_whitespace s) = true.
Proof.
  induction s as [|c r IH]; [reflexivity|].
  cbn [skip_whitespace]. destruct (tab_or_space c) eqn:Hc; [exact IH|].
  simpl. rewrite Hc. reflexivity.
Qed.

Lemma skip_whitespace_solid s : starts_solid s = true → skip_whitespace s = s.
Proof.
  destruct s as [|c r]; [reflexivity|]. simpl.
  destruct (tab_or_space c); [discriminate|reflexivity].
Qed.

Lemma starts_solid_replace_whitespace s :
  starts_solid s = true → starts_solid (replace_whitespace s) = true.
Proof.
  funelim (replace_whitespace s); simpl; intros Hs.
  - reflexivity.
  - rewrite Heq in Hs. discriminate.
  - exact Hs.
Qed.

Lemma collapsed_replace_whitespace s : collapsed (replace_whitespace s) = true.
Proof.
  funelim (replace_whitespace s).
  - reflexivity.
  - cbn [collapsed].
    match goal with IH : collapsed _ = true |- _ => rewrite IH end.
    rewrite starts_solid_replace_whitespace by apply starts_solid_skip.
    reflexivity.
  - cbn [collapsed]. rewrite Heq.
    match goal with IH : collapsed _ = true |- _ => rewrite IH end.
    reflexivity.
Qed.

Lemma replace_whitespace_collapsed s : collapsed s = true → replace_whitespace s = s.
Proof.
  funelim (replace_whitespace s); cbn [collapsed]; intros Hs.
  - reflexivity.
  - rewrite Heq in Hs.
    apply andb_true_iff in Hs as [Hc Hr]. apply andb_true_iff in Hc as [Hc Hsolid].
    apply N.eqb_eq in Hc. subst c.
    rewrite skip_whitespace_solid in * by exact Hsolid.
    f_equal. auto.
  - rewrite Heq in Hs. f_equal. auto.
Qed.

Lemma replace_whitespace_idempotent s :
  replace_whitespace (replace_whitespace s) = replace_whitespace s.
Proof. apply replace_whitespace_collapsed, collapsed_replace_whitespace. Qed.

Lemma starts_solid_replace_long_words s :
  starts_solid (replace_long_words s) = starts_solid s.
Proof.
  funelim (replace_long_words s); reflexivity.
Qed.

Lemma collapsed_drop n s : collapsed s = true → collapsed (drop n s) = true.
Proof.
  revert s. induction n as [|n IH]; intros [|c r]; simpl; auto.
  intros Hs. apply andb_true_iff in Hs as [_ Hs]. auto.
Qed.

Lemma collapsed_solid_app u v :
  forallb long_word_char u = true → collapsed v = true → collapsed (u ++ v) = true.
Proof.
  induction u as [|c r IH]; simpl; [auto|]. intros Hu Hv.
  apply andb_true_iff in Hu as [Hc Hr].
  rewrite (long_word_char_solid c Hc). simpl. auto.
Qed.

Lemma collapsed_replace_long_words s :
  collapsed s = true → collapsed (replace_long_words s) = true.
Proof.
  funelim (replace_long_words s); intros Hs.
  - reflexivity.
  - apply collapsed_solid_app.
    + unfold long_word_at in Heq. apply andb_true_iff in Heq as [_ Heq]. exact Heq.
    + apply (collapsed_solid_app shy); [reflexivity|].
      match goal with IH : _ → collapsed _ = true |- _ => apply IH end.
      apply (collapsed_drop 16 (c :: r)). exact Hs.
  - cbn [collapsed] in *. rewrite starts_solid_replace_long_words.
    apply andb_true_iff in Hs as [Hc Hr]. rewrite Hc. simpl. auto.
Qed.

Lemma normalize_snippet_fixed s :
  replace_whitespace (normalize_snippet s) = normalize_snippet s.
Proof.
  apply replace_whitespace_collapsed, collapsed_replace_long_words,
    collapsed_replace_whitespace.
Qed.

(** C3, as the code has it. Collapsing whitespace is idempotent on every
    string. The whole normalisation of a snippet, collapsing and then
    inserting ["&shy;"] after every sixteen code units of [[^\s\\]], is
    idempotent on a string exactly when the string has no sixteen
    consecutive such code units, that is, when nothing is inserted. *)
Theorem snippet_normalization_idempotent_iff :
  (∀ s, replace_whitespace (replace_whitespace s) = replace_whitespace s)
  ∧ (∀ s, normalize_snippet (normalize_snippet s) = normalize_snippet s
          ↔ has_long_word s = false).
Proof.
  split; [exact replace_whitespace_idempotent|].
  intros s. unfold normalize_snippet at 1. rewrite normalize_snippet_fixed.
  split.
  - intros Hfix. destruct (has_long_word s) eqn:Hs; [exfalso|reflexivity].
    assert (Hlong : has_long_word (normalize_snippet s) = true).
    { apply has_long_word_replace_long_words.
      rewrite has_long_word_replace_whitespace. exact Hs. }
    apply replace_long_words_longer in Hlong. rewrite Hfix in Hlong. lia.
  - intros Hs. apply replace_long_words_none.
    unfold normalize_snippet.
    rewrite replace_long_words_none; rewrite has_long_word_replace_whitespace; exact Hs.
Qed.

Lemma snippet_normalization_idempotent_iff_witness :
  normalize_snippet (normalize_snippet (of_string "two  words"))
  = normalize_snippet (of_string "two  words").
Proof.
  apply (proj2 snippet_normalization_idempotent_iff (of_string "two  words")).
  reflexivity.
Defined.

(** C3, as stated, fails on a word of twenty letters: the second pass
    inserts a second ["&shy;"] after the first sixteen. *)
Lemma snippet_normalization_not_idempotent :
  normalize_snippet (normalize_snippet (of_string "internationalization"))
  = of_string "internationaliza&shy;&shy;tion"
  ∧ normalize_snippet (of_string "internationalization")
    = of_string "internationaliza&shy;tion"
  ∧ normalize_snippet (normalize_snippet (of_string "internationalization"))
    ≠ normalize_snippet (of_string "internationalization").
Proof.
  split; [reflexivity|]. split; [reflexivity|].
  intros Heq. apply (f_equal length) in Heq. vm_compute in Heq. discriminate.
Qed.

End SnippetFacts.

(** ** Doubles that hold integers *)

Module NumberFacts.
Import Number.

Lemma digits2_bounds m :
  2 ^ (Z.pos (digits2_pos m) - 1) ≤ Z.pos m < 2 ^ Z.pos (digits2_pos m).
Proof.
  induction m as [m IH|m IH|]; cbn [digits2_pos].
  - rewrite Pos2Z.inj_succ. replace (Z.succ (Z.pos (digits2_pos m)) - 1) with (Z.pos (digits2_pos m)) by lia.
    rewrite Z.pow_succ_r by lia.
    replace (Z.pos (digits2_pos m)) with (Z.succ (Z.pos (digits2_pos m) - 1)) at 1 by lia.
    rewrite Z.pow_succ_r by lia. lia.
  - rewrite Pos2Z.inj_succ. replace (Z.succ (Z.pos (digits2_pos m)) - 1) with (Z.pos (digits2_pos m)) by lia.
    rewrite Z.pow_succ_r by lia.
    replace (Z.pos (digits2_pos m)) with (Z.succ (Z.pos (digits2_pos m) - 1)) at 1 by lia.
    rewrite Z.pow_succ_r by lia. lia.
  - cbn. lia.
Qed.

Lemma digits2_unique m d :
  2 ^ (d - 1) ≤ Z.pos m < 2 ^ d → Z.pos (digits2_pos m) = d.
Proof.
  intros [Hlo Hhi]. pose proof (digits2_bounds m) as [Hlo' Hhi'].
  destruct (Z.lt_trichotomy (Z.pos (digits2_pos m)) d) as [Hlt|[Heq|Hgt]]; [|exact Heq|].
  - exfalso. assert (2 ^ Z.pos (digits2_pos m) ≤ 2 ^ (d - 1)) by (apply Z.pow_le_mono_r; lia). lia.
  - exfalso. assert (0 ≤ d ∨ d < 0) as [Hd|Hd] by lia.
    + assert (2 ^ d ≤ 2 ^ (Z.pos (digits2_pos m) - 1)) by (apply Z.pow_le_mono_r; lia). lia.
    + rewrite (Z.pow_neg_r 2 d) in Hhi by lia. lia.
Qed.

Lemma iter_xO m d : Z.pos (Pos.iter xO m d) = Z.pos m * 2 ^ Z.pos d.
Proof.
  induction d as [|d IH] using Pos.peano_ind.
  - cbn. lia.
  - rewrite Pos.iter_succ, Pos2Z.inj_succ, Z.pow_succ_r by lia.
    rewrite Pos2Z.inj_xO, IH. lia.
Qed.

Lemma iter_pos_iter {A} (f : A → A) p x : SpecFloat.iter_pos f p x = Pos.iter f x p.
Proof.
  revert x. induction p as [p IH|p IH|]; intros x; cbn [SpecFloat.iter_pos Pos.iter].
  - by rewrite !IH, !Pos.iter_swap.
  - by rewrite !IH.
  - reflexivity.
Qed.

Lemma shr_exact p M :
  0 < M → Z.divide (2 ^ Z.pos p) M →
  Pos.iter shr_1 {| shr_m := M; shr_r := false; shr_s := false |} p
  = {| shr_m := M / 2 ^ Z.pos p; shr_r := false; shr_s := false |}.
Proof.
  revert M. induction p as [|p IH] using Pos.peano_ind; intros M HM [q Hq].
  - cbn [Pos.iter]. change (2 ^ 1) with 2 in *. subst M.
    rewrite Z.div_mul by lia. destruct q as [|q|q]; try lia. 
    replace (Z.pos q * 2) with (Z.pos q~0) by lia. reflexivity.
  - rewrite Pos.iter_succ_r. rewrite Pos2Z.inj_succ, Z.pow_succ_r in * by lia.
    assert (M = 2 * (q * 2 ^ Z.pos p)) as -> by lia.
    assert (0 < q * 2 ^ Z.pos p) by lia.
    destruct (q * 2 ^ Z.pos p) as [|r|r] eqn:Hr; try lia.
    replace (2 * Z.pos r) with (Z.pos r~0) by lia. cbn [shr_1 orb].
    rewrite IH; [|lia|exists q; lia].
    f_equal. replace (Z.pos r~0) with (2 * Z.pos r) by lia.
    by rewrite Z.div_mul_cancel_l by lia.
Qed.

Lemma pow_split (a b : Z) : 0 ≤ a → 0 ≤ b → 2 ^ (a + b) = 2 ^ a * 2 ^ b.
Proof. intros. by rewrite Z.pow_add_r. Qed.

Lemma digits_scaled (m : positive) (z d j : Z) :
  2 ^ (d - 1) ≤ z < 2 ^ d → 1 ≤ d → 0 ≤ j → Z.pos m = z * 2 ^ j →
  Z.pos (digits2_pos m) = d + j.
Proof.
  intros [Hlo Hhi] Hd Hj Hm. apply digits2_unique. rewrite Hm.
  replace (d + j - 1) with ((d - 1) + j) by lia.
  rewrite !pow_split by lia.
  assert (0 < 2 ^ j) by (apply Z.pow_pos_nonneg; lia).
  split; [by apply Z.mul_le_mono_nonneg_r; lia|by apply Z.mul_lt_mono_pos_r].
Qed.

Lemma digits_positive (z d : Z) : 0 < z → 2 ^ (d - 1) ≤ z < 2 ^ d → 1 ≤ d.
Proof.
  intros Hz [Hlo Hhi]. destruct (Z.le_gt_cases 1 d); [done|]. exfalso.
  assert (2 ^ d ≤ 2 ^ 0) by (apply Z.pow_le_mono_r; lia).
  change (2 ^ 0) with 1 in *. lia.
Qed.

(** The double of a positive integer below 2^53, given as [z * 2^k] with
    exponent [-k]. *)
Lemma round_integer s (m : positive) (k z d : Z) :
  0 ≤ k → 0 < z → 2 ^ (d - 1) ≤ z < 2 ^ d → d ≤ 53 →
  Z.pos m = z * 2 ^ k →
  binary_round prec emax s m (- k)
  = S754_finite s (Z.to_pos (z * 2 ^ (53 - d))) (d - 53).
Proof.
  intros Hk Hz Hd Hd53 Hm.
  pose proof (digits_positive z d Hz Hd) as Hd1.
  pose proof (digits_scaled m z d k Hd Hd1 Hk Hm) as Hdig.
  assert (Hfexp : ∀ e, e = d → fexp prec emax e = d - 53).
  { intros e ->. unfold fexp, emin, prec, emax. lia. }
  assert (Hfits : ∀ e, e = d - 53 → (e <=? emax - prec) = true).
  { intros e ->. apply Z.leb_le. unfold emax, prec. lia. }
  assert (Hstage : ∀ M e, Z.pos M = z * 2 ^ (53 - d) → e = d - 53 →
            (let '(mrs'', e'') := shr_fexp prec emax (Z.pos M) e loc_Exact in
             match shr_m mrs'' with
             | 0 => S754_zero s
             | Z.pos m0 =>
                 if e'' <=? emax - prec then S754_finite s m0 e'' else S754_infinity s
             | Z.neg _ => S754_nan
             end)
            = S754_finite s (Z.to_pos (z * 2 ^ (53 - d))) (d - 53)).
  { intros M e HM ->.
    pose proof (digits_scaled M z d (53 - d) Hd Hd1 ltac:(lia) HM) as HdigM.
    unfold shr_fexp. cbn [Zdigits2]. rewrite HdigM.
    rewrite (Hfexp (d + (53 - d) + (d - 53))) by lia.
    replace (d - 53 - (d - 53)) with 0 by lia.
    cbn [shr shr_record_of_loc shr_m].
    rewrite (Hfits (d - 53)) by done. by rewrite <- HM. }
  assert (Hfinal : ∀ M e, Z.pos M = z * 2 ^ (53 - d) → e = d - 53 →
            binary_round_aux prec emax s (Z.pos M) e loc_Exact
            = S754_finite s (Z.to_pos (z * 2 ^ (53 - d))) (d - 53)).
  { intros M e HM ->.
    pose proof (digits_scaled M z d (53 - d) Hd Hd1 ltac:(lia) HM) as HdigM.
    unfold binary_round_aux. unfold shr_fexp at 1. cbn [Zdigits2]. rewrite HdigM.
    rewrite (Hfexp (d + (53 - d) + (d - 53))) by lia.
    replace (d - 53 - (d - 53)) with 0 by lia.
    cbn [shr shr_record_of_loc shr_m loc_of_shr_record round_nearest_even].
    by apply Hstage. }
  unfold binary_round. rewrite Hdig, (Hfexp (d + k + - k)) by lia.
  unfold shl_align.
  destruct (d - 53 - - k) as [|p|p] eqn:Hshift.
  - apply Hfinal; [|lia]. rewrite Hm. f_equal. f_equal. lia.
  - unfold binary_round_aux. unfold shr_fexp at 1. cbn [Zdigits2]. rewrite Hdig.
    rewrite (Hfexp (d + k + - k)) by lia. rewrite Hshift.
    cbn [shr shr_record_of_loc].
    assert (Hdiv : Z.divide (2 ^ Z.pos p) (Z.pos m)).
    { exists (z * 2 ^ (k - Z.pos p)). rewrite Hm, <- Z.mul_assoc, <- pow_split by lia.
      f_equal. f_equal. lia. }
    rewrite !iter_pos_iter, shr_exact by (done || lia).
    cbn [shr_m loc_of_shr_record round_nearest_even].
    assert (Hq : Z.pos m / 2 ^ Z.pos p = z * 2 ^ (53 - d)).
    { rewrite Hm. replace k with ((53 - d) + Z.pos p) at 1 by lia.
      rewrite pow_split, Z.mul_assoc by lia. rewrite Z.div_mul; [done|].
      apply Z.pow_nonzero; lia. }
    assert (Hpos : 0 < Z.pos m / 2 ^ Z.pos p).
    { rewrite Hq. apply Z.mul_pos_pos; [lia|apply Z.pow_pos_nonneg; lia]. }
    destruct (Z.pos m / 2 ^ Z.pos p) as [|M|M] eqn:HM; try lia.
    apply Hstage; [done|lia].
  - apply Hfinal; [|lia].
    rewrite iter_xO, Hm, <- Z.mul_assoc, <- pow_split by lia. f_equal. f_equal. lia.
Qed.

Lemma digits_spec z : 0 < z < 2 ^ 53 → 2 ^ (digits z - 1) ≤ z < 2 ^ digits z ∧ 1 ≤ digits z ≤ 53.
Proof.
  intros [Hz Hlt]. unfold digits.
  pose proof (Z.log2_spec z Hz) as [Hlo Hhi].
  pose proof (Z.log2_nonneg z).
  replace (Z.log2 z + 1 - 1) with (Z.log2 z) by lia.
  replace (Z.log2 z + 1) with (Z.succ (Z.log2 z)) by lia.
  split; [done|]. split; [lia|].
  assert (Z.log2 z < 53) by (apply Z.log2_lt_pow2; lia). lia.
Qed.

Lemma round_double s (m : positive) (k z : Z) :
  0 ≤ k → 0 < z < 2 ^ 53 → Z.pos m = z * 2 ^ k →
  binary_round prec emax s m (- k) = double s z.
Proof.
  intros Hk Hz Hm. destruct (digits_spec z Hz) as [Hd [_ Hd53]].
  by apply (round_integer s m k z (digits z)); [|lia| | |].
Qed.

Lemma normalize_double (w k z : Z) :
  0 ≤ k → safe z → w = z * 2 ^ k →
  binary_normalize prec emax w (- k) false = of_Z z.
Proof.
  intros Hk [Hlo Hhi] ->. unfold of_Z.
  assert (Hp : 0 < 2 ^ k) by (apply Z.pow_pos_nonneg; lia).
  destruct z as [|z|z].
  - reflexivity.
  - destruct (Z.pos z * 2 ^ k) as [|w|w] eqn:Hw; try lia. cbn [binary_normalize].
    rewrite (round_double false w k (Z.pos z)) by (done || lia).
    change 0 with (- 0). by rewrite (round_double false z 0 (Z.pos z)) by (done || lia).
  - destruct (Z.neg z * 2 ^ k) as [|w|w] eqn:Hw; try lia. cbn [binary_normalize].
    rewrite (round_double true w k (Z.pos z)) by (done || lia).
    change 0 with (- 0). by rewrite (round_double true z 0 (Z.pos z)) by (done || lia).
Qed.

Lemma of_Z_double z :
  0 < z < 2 ^ 53 → of_Z z = double false z ∧ of_Z (- z) = double true z.
Proof.
  intros Hz. destruct z as [|z|z]; try lia. unfold of_Z. cbn [binary_normalize Z.opp].
  change 0 with (- 0). split; apply round_double; done || lia.
Qed.

Lemma shl_align_value m e e' :
  e' ≤ e → Z.pos (shl_align m e e').1 = Z.pos m * 2 ^ (e - e').
Proof.
  intros Hle. unfold shl_align. destruct (e' - e) as [|p|p] eqn:Hp; try lia; cbn [fst].
  - replace (e - e') with 0 by lia. lia.
  - rewrite iter_xO. f_equal. f_equal. lia.
Qed.

(** The mantissa of [double s z] is [z] moved to the exponent of the
    double. *)
Lemma double_mantissa z e :
  0 < z < 2 ^ 53 → e ≤ digits z - 53 →
  Z.pos (Z.to_pos (z * 2 ^ (53 - digits z))) * 2 ^ (digits z - 53 - e) = z * 2 ^ (- e).
Proof.
  intros Hz He. destruct (digits_spec z Hz) as [_ [Hd1 Hd53]].
  rewrite Z2Pos.id by (apply Z.mul_pos_pos; [lia|apply Z.pow_pos_nonneg; lia]).
  rewrite <- Z.mul_assoc, <- pow_split by lia. f_equal. f_equal. lia.
Qed.

Lemma sign_split z : safe z → z ≠ 0 →
  ∃ s a, 0 < a < 2 ^ 53 ∧ z = cond_Zopp s a ∧ of_Z z = double s a.
Proof.
  intros [Hlo Hhi] Hz. destruct (Z.lt_trichotomy z 0) as [Hneg|[?|Hpos]]; [|done|].
  - exists true, (- z). split; [lia|]. split; [cbn; lia|].
    replace z with (- - z) at 1 by lia. apply of_Z_double. lia.
  - exists false, z. split; [lia|]. split; [done|]. by apply of_Z_double.
Qed.

(** Subtraction is exact on integers whose difference is again below
    2^53 in magnitude. *)
Lemma minus_exact x y :
  safe x → safe y → safe (x - y) → minus (of_Z x) (of_Z y) = of_Z (x - y).
Proof.
  intros Hx Hy Hxy.
  destruct (decide (y = 0)) as [->|Hy0].
  { replace (x - 0) with x by lia. destruct (decide (x = 0)) as [->|Hx0]; [reflexivity|].
    destruct (sign_split x Hx Hx0) as (s & a & _ & _ & ->). reflexivity. }
  destruct (sign_split y Hy Hy0) as (sy & b & Hb & Heqy & Hdy).
  destruct (decide (x = 0)) as [->|Hx0].
  { rewrite Hdy. replace (0 - y) with (- y) by lia. 
    assert (- y = cond_Zopp (negb sy) b) as Hny by (destruct sy; cbn in *; lia).
    destruct (sign_split (- y) ltac:(unfold safe in *; lia) ltac:(lia)) as (s' & b' & Hb' & Heq' & ->).
    assert (s' = negb sy ∧ b' = b) as [-> ->] by (destruct s', sy; cbn in *; lia).
    reflexivity. }
  destruct (sign_split x Hx Hx0) as (sx & a & Ha & Heqx & Hdx).
  rewrite Hdx, Hdy. unfold minus, double, SFsub.
  set (ez := Z.min (digits a - 53) (digits b - 53)).
  destruct (digits_spec a Ha) as [_ [? ?]]. destruct (digits_spec b Hb) as [_ [? ?]].
  rewrite !shl_align_value by lia.
  rewrite !double_mantissa by (done || lia).
  replace ez with (- - ez) at 3 by lia.
  apply normalize_double; [lia|done|].
  rewrite Heqx, Heqy. destruct sx, sy; cbn [cond_Zopp]; lia.
Qed.

Lemma digits_mono a b : 0 < a < 2 ^ 53 → 0 < b < 2 ^ 53 → digits a < digits b → a < b.
Proof.
  intros Ha Hb Hd. destruct (digits_spec a Ha) as [[_ Hhi] _].
  destruct (digits_spec b Hb) as [[Hlo _] _].
  assert (2 ^ digits a ≤ 2 ^ (digits b - 1)) by (apply Z.pow_le_mono_r; lia). lia.
Qed.

Lemma mantissa_compare a b :
  0 < a < 2 ^ 53 → 0 < b < 2 ^ 53 → digits a = digits b →
  Pos.compare_cont Eq (Z.to_pos (a * 2 ^ (53 - digits a))) (Z.to_pos (b * 2 ^ (53 - digits b)))
  = (a ?= b).
Proof.
  intros Ha Hb Hd. destruct (digits_spec a Ha) as [_ [? ?]].
  assert (Hp : 0 < 2 ^ (53 - digits a)) by (apply Z.pow_pos_nonneg; lia).
  change (Pos.compare_cont Eq ?p ?q) with (Pos.compare p q).
  rewrite Pos2Z.inj_compare, !Z2Pos.id, <- Hd by (rewrite <- ?Hd; apply Z.mul_pos_pos; lia).
  symmetry. apply Zmult_compare_compat_r. lia.
Qed.

Lemma compare_double sa sb a b :
  0 < a < 2 ^ 53 → 0 < b < 2 ^ 53 →
  SFcompare (double sa a) (double sb b) = Some (cond_Zopp sa a ?= cond_Zopp sb b).
Proof.
  intros Ha Hb. unfold double, SFcompare.
  destruct sa, sb; cbn [cond_Zopp].
  - destruct (Z.compare_spec (digits a - 53) (digits b - 53)) as [Hd|Hd|Hd].
    + rewrite (mantissa_compare a b Ha Hb ltac:(lia)). f_equal.
      rewrite Z.compare_opp. symmetry. apply Z.compare_antisym.
    + f_equal. symmetry. apply Z.compare_gt_iff.
      pose proof (digits_mono a b Ha Hb ltac:(lia)). lia.
    + f_equal. symmetry. apply Z.compare_lt_iff.
      pose proof (digits_mono b a Hb Ha ltac:(lia)). lia.
  - f_equal. symmetry. apply Z.compare_lt_iff. lia.
  - f_equal. symmetry. apply Z.compare_gt_iff. lia.
  - destruct (Z.compare_spec (digits a - 53) (digits b - 53)) as [Hd|Hd|Hd].
    + by rewrite (mantissa_compare a b Ha Hb ltac:(lia)).
    + f_equal. symmetry. apply Z.compare_lt_iff.
      pose proof (digits_mono a b Ha Hb ltac:(lia)). lia.
    + f_equal. symmetry. apply Z.compare_gt_iff.
      pose proof (digits_mono b a Hb Ha ltac:(lia)). lia.
Qed.

Lemma compare_exact x y : safe x → safe y → SFcompare (of_Z x) (of_Z y) = Some (x ?= y).
Proof.
  intros Hx Hy.
  destruct (decide (x = 0)) as [->|Hx0]; destruct (decide (y = 0)) as [->|Hy0].
  - reflexivity.
  - destruct (sign_split y Hy Hy0) as (s & b & Hb & -> & ->).
    change (of_Z 0) with (S754_zero false). unfold double, SFcompare.
    destruct s; cbn [cond_Zopp]; f_equal; symmetry;
      [apply Z.compare_gt_iff|apply Z.compare_lt_iff]; lia.
  - destruct (sign_split x Hx Hx0) as (s & a & Ha & -> & ->).
    change (of_Z 0) with (S754_zero false). unfold double, SFcompare.
    destruct s; cbn [cond_Zopp]; f_equal; symmetry;
      [apply Z.compare_lt_iff|apply Z.compare_gt_iff]; lia.
  - destruct (sign_split x Hx Hx0) as (sx & a & Ha & -> & ->).
    destruct (sign_split y Hy Hy0) as (sy & b & Hb & -> & ->).
    by apply compare_double.
Qed.

Lemma of_Z_shape z : safe z → of_Z z ≠ S754_nan ∧ of_Z z ≠ S754_zero true.
Proof.
  intros Hz. destruct (decide (z = 0)) as [->|Hz0]; [by split|].
  by destruct (sign_split z Hz Hz0) as (s & a & _ & _ & ->).
Qed.

Lemma Math_max_exact x y :
  safe x → safe y → Math_max (of_Z x) (of_Z y) = of_Z (Z.max x y).
Proof.
  intros Hx Hy. unfold Math_max.
  pose proof (compare_exact x y Hx Hy) as Hc.
  destruct (of_Z_shape x Hx) as [Hnx Hzx]. destruct (of_Z_shape y Hy) as [Hny _].
  destruct (of_Z x) as [[]| | |] eqn:Hox; try done;
    destruct (of_Z y) as [?| | |] eqn:Hoy; try done; rewrite Hc;
    (destruct (Z.compare_spec x y) as [Heq|Hlt|Hgt];
     [rewrite (Z.max_l x y) by lia|rewrite (Z.max_r x y) by lia|rewrite (Z.max_l x y) by lia]);
    congruence.
Qed.

Lemma of_Z_inj x y : safe x → safe y → of_Z x = of_Z y → x = y.
Proof.
  intros Hx Hy Heq. pose proof (compare_exact x y Hx Hy) as Hc.
  rewrite <- Heq, (compare_exact x x Hx Hx), Z.compare_refl in Hc.
  apply Z.compare_eq. congruence.
Qed.

Lemma safe_between a b c : safe a → safe c → a ≤ b ≤ c → safe b.
Proof. unfold safe. lia. Qed.

End NumberFacts.

(** ** The request gateway, the cache and the mutations *)

Module ApiFacts.
Import Api.

Section Monad.
Context {E : Type}.

Lemma bind_resolved {A B} (m : M E A) (k : A → M E B) st a :
  outcome (m st) = Resolved a →
  (m ≫= k) st
  = {| outcome := outcome (k a (after (m st)));
       after := after (k a (after (m st)));
       events := events (m st) ++ events (k a (after (m st))) |}.
Proof. intros Hm. unfold mbind, M_bind, bind. rewrite Hm. reflexivity. Qed.

Lemma for_each_cons {A} (body : A → M E unit) x r st :
  outcome (body x st) = Resolved tt →
  for_each body (x :: r) st
  = {| outcome := outcome (for_each body r (after (body x st)));
       after := after (for_each body r (after (body x st)));
       events := events (body x st) ++ events (for_each body r (after (body x st))) |}.
Proof. intros Hx. cbn [for_each]. unfold mbind, M_bind, bind. rewrite Hx. reflexivity. Qed.

End Monad.

Section Eviction.
Context {E : Type} (matches : Article → bool).

Lemma evict_unfold st :
  evict matches st = for_each (evict_entry (E:=E) matches) (map_to_list (articlesCache st)) st :> Run unit E.
Proof.
  unfold evict, mbind, M_bind, bind, get. cbn.
  destruct (for_each _ _ _). reflexivity.
Qed.

Lemma evict_entry_run entry st :
  outcome (evict_entry (E:=E) matches entry st) = Resolved tt
  ∧ allocated (after (evict_entry (E:=E) matches entry st)) = allocated st
  ∧ articlesCache (after (evict_entry (E:=E) matches entry st))
    = (if matches entry.2 then delete entry.1 (articlesCache st) else articlesCache st)
  ∧ articlesIdSlugMap (after (evict_entry (E:=E) matches entry st))
    = (if matches entry.2 then delete (id (props entry.2)) (articlesIdSlugMap st)
       else articlesIdSlugMap st)
  ∧ events (evict_entry (E:=E) matches entry st) = evict_events matches entry.
Proof.
  unfold evict_entry, evict_events. destruct (matches entry.2); cbn; auto.
Qed.

Lemma for_each_evict l st :
  outcome (for_each (evict_entry (E:=E) matches) l st) = Resolved tt
  ∧ allocated (after (for_each (evict_entry (E:=E) matches) l st)) = allocated st
  ∧ (∀ k, articlesCache (after (for_each (evict_entry (E:=E) matches) l st)) !! k
          = if decide (Exists (λ e, e.1 = k ∧ matches e.2 = true) l)
            then None else articlesCache st !! k)
  ∧ (∀ i, articlesIdSlugMap (after (for_each (evict_entry (E:=E) matches) l st)) !! i
          = if decide (Exists (λ e, id (props e.2) = i ∧ matches e.2 = true) l)
            then None else articlesIdSlugMap st !! i)
  ∧ events (for_each (evict_entry (E:=E) matches) l st) = l ≫= evict_events matches.
Proof.
  revert st. induction l as [|x r IH]; intros st.
  - cbn. repeat split; intros; case_decide as Hex; try reflexivity;
      by apply Exists_nil in Hex.
  - destruct (evict_entry_run x st) as (Hout & Halloc & Hcache & Hids & Hev).
    rewrite for_each_cons by exact Hout. cbn [outcome after events].
    destruct (IH (after (evict_entry (E:=E) matches x st))) as (IHout & IHalloc & IHcache & IHids & IHev).
    split; [exact IHout|]. split; [congruence|].
    split; [|split].
    + intros k. rewrite IHcache, Hcache.
      destruct (matches x.2) eqn:Hx; repeat case_decide;
        rewrite ?Exists_cons in *; try reflexivity; try tauto.
      * destruct (decide (x.1 = k)) as [<-|Hne]; [|tauto].
        by rewrite lookup_delete_eq.
      * rewrite lookup_delete_ne; [reflexivity|tauto].
      * destruct H0 as [[_ Hm]|?]; [congruence|tauto].
    + intros i. rewrite IHids, Hids.
      destruct (matches x.2) eqn:Hx; repeat case_decide;
        rewrite ?Exists_cons in *; try reflexivity; try tauto.
      * destruct (decide (id (props x.2) = i)) as [<-|Hne]; [|tauto].
        by rewrite lookup_delete_eq.
      * rewrite lookup_delete_ne; [reflexivity|tauto].
      * destruct H0 as [[_ Hm]|?]; [congruence|tauto].
    + rewrite Hev, IHev. reflexivity.
Qed.

Lemma evict_run st :
  let r : Run unit E := evict matches st in
  outcome r = Resolved tt
  ∧ allocated (after r) = allocated st
  ∧ (∀ k, articlesCache (after r) !! k
          = a ← articlesCache st !! k; if matches a then None else Some a)
  ∧ (∀ k a, articlesCache st !! k = Some a → matches a = true →
            articlesIdSlugMap (after r) !! id (props a) = None)
  ∧ (∀ i, (∀ k a, articlesCache st !! k = Some a → id (props a) = i → matches a = false) →
          articlesIdSlugMap (after r) !! i = articlesIdSlugMap st !! i)
  ∧ events r = map_to_list (articlesCache st) ≫= evict_events matches.
Proof.
  cbv zeta. rewrite evict_unfold.
  destruct (for_each_evict (map_to_list (articlesCache st)) st)
    as (Hout & Halloc & Hcache & Hids & Hev).
  split; [exact Hout|]. split; [exact Halloc|].
  split; [|split; [|split; [|exact Hev]]].
  - intros k. rewrite Hcache. case_decide as Hex.
    + apply Exists_exists in Hex as ([k' a] & Hin & Hk & Hm). simpl in *. subst k'.
      apply elem_of_map_to_list in Hin. rewrite Hin. simpl. by rewrite Hm.
    + destruct (articlesCache st !! k) as [a|] eqn:Hk; [|reflexivity]. simpl.
      destruct (matches a) eqn:Hm; [|reflexivity].
      exfalso. apply Hex, Exists_exists. exists (k, a).
      split; [by apply elem_of_map_to_list|done].
  - intros k a Hk Hm. rewrite Hids. case_decide as Hex; [reflexivity|].
    exfalso. apply Hex, Exists_exists. exists (k, a).
    split; [by apply elem_of_map_to_list|done].
  - intros i Hno. rewrite Hids. case_decide as Hex; [|reflexivity].
    apply Exists_exists in Hex as ([k a] & Hin & Hi & Hm). simpl in *.
    apply elem_of_map_to_list in Hin. rewrite (Hno k a Hin Hi) in Hm. discriminate.
Qed.
Lemma evict_keeps_or_drops st i s :
  articlesIdSlugMap (after (evict (E:=E) matches st)) !! i = Some s →
  articlesIdSlugMap st !! i = Some s.
Proof.
  rewrite evict_unfold.
  destruct (for_each_evict (map_to_list (articlesCache st)) st) as (_ & _ & _ & Hids & _).
  rewrite Hids. case_decide; [discriminate|done].
Qed.

End Eviction.

Section Gateway.
Context {B : Type}.

Lemma request_run (r : Request) (reply : FetchOutcome B) st :
  after (request r reply st) = st ∧ events (request r reply st) = [Send r].
Proof.
  unfold request. rewrite (bind_resolved _ _ st tt) by reflexivity. cbn.
  destruct reply as [resp|]; [|by cbn].
  case_decide; [by cbn|]. destruct (body resp); by cbn.
Qed.

Lemma request_outcome (r : Request) (reply : FetchOutcome B) st :
  outcome (request r reply st)
  = match reply with
    | NetworkFailure => Rejected FetchFailed
    | Responded resp =>
        if decide (400 ≤ status resp) then Rejected (RawResponse resp)
        else Resolved (parsed (body resp))
    end.
Proof.
  unfold request. rewrite (bind_resolved _ _ st tt) by reflexivity. cbn.
  destruct reply as [resp|]; [|by cbn].
  case_decide; [by cbn|]. destruct (body resp); by cbn.
Qed.

(** C5. [request(endpoint, options)]: a response with status 400 or more
    rejects the promise with the response object itself; a response with
    a lower status resolves it to the parsed body, and to [null] when
    the body is empty or cannot be parsed. In both cases the call has
    been sent and the cache is untouched. *)
Theorem request_rejects_raw_or_resolves_parsed (r : Request) (resp : Response B) st :
  (400 ≤ status resp →
     outcome (request r (Responded resp) st) = Rejected (RawResponse resp))
  ∧ (status resp < 400 →
     (body resp = Unparsable → outcome (request r (Responded resp) st) = Resolved None)
     ∧ (∀ v, body resp = Json v → outcome (request r (Responded resp) st) = Resolved (Some v))
     ∧ (∀ e, outcome (request r (Responded resp) st) ≠ Rejected e))
  ∧ events (request r (Responded resp) st) = [Send r]
  ∧ after (request r (Responded resp) st) = st.
Proof.
  rewrite request_outcome.
  destruct (request_run r (Responded resp) st) as [-> ->].
  repeat split; try (intros; case_decide; [|lia]; reflexivity).
  - intros Hb. case_decide; [lia|]. by rewrite Hb.
  - intros v Hb. case_decide; [lia|]. by rewrite Hb.
  - intros e. case_decide; [lia|]. discriminate.
Qed.

End Gateway.

Lemma request_rejects_raw_or_resolves_parsed_witness :
  outcome (request {| method := GET; endpoint := news; payload := NoPayload |}
             (Responded {| status := 503; body := Json tt |}) empty_cache)
  = Rejected (RawResponse {| status := 503; body := Json tt |})
  ∧ outcome (request {| method := GET; endpoint := news; payload := NoPayload |}
               (Responded {| status := 200; body := @Unparsable unit |}) empty_cache)
    = Resolved None.
Proof.
  split.
  - apply request_rejects_raw_or_resolves_parsed. simpl. lia.
  - apply request_rejects_raw_or_resolves_parsed; [simpl; lia|reflexivity].
Defined.

Section Reading.
Context `{Platform}.

Ltac run_request reply :=
  unfold request, mbind, M_bind, bind, get, emit, alloc, cache_set, id_slug_set, ret, throw;
  cbn;
  destruct reply as [[? [| |[|?]]]|]; cbn in *; repeat case_decide; cbn in *;
  try congruence; try lia; try done; try (simplify_eq; reflexivity);
  try (split; reflexivity).

Lemma getArticle_hit the_id the_slug reply st :
  articlesIdSlugMap st !! the_id = Some the_slug →
  getArticle the_id reply st
  = {| outcome := Resolved (from_option Found Undefined (articlesCache st !! the_slug));
       after := st; events := [] |}.
Proof.
  intros Hid. unfold getArticle, mbind, M_bind, bind, get. cbn. rewrite Hid. reflexivity.
Qed.

Lemma getArticle_fetch the_id reply init st :
  articlesIdSlugMap st !! the_id = None →
  fetched reply = Some init →
  getArticle the_id reply st
  = {| outcome := Resolved (Found (processArticle (allocated st) init));
       after := inserted (slug init) (processArticle (allocated st) init) st;
       events := [Send (by_id the_id);
                  CacheSet (slug init) (processArticle (allocated st) init);
                  IdSlugSet (id init) (slug init)] |}.
Proof.
  intros Hid Hfetch. unfold getArticle, fetched in *.
  unfold mbind, M_bind, bind, get. cbn. rewrite !Hid.
  run_request reply.
Qed.

Lemma getArticle_no_article the_id reply st :
  articlesIdSlugMap st !! the_id = None →
  fetched reply = None →
  after (getArticle the_id reply st) = st
  ∧ events (getArticle the_id reply st) = [Send (by_id the_id)].
Proof.
  intros Hid Hfetch. unfold getArticle, fetched in *.
  unfold mbind, M_bind, bind, get. cbn. rewrite !Hid.
  run_request reply.
Qed.

Lemma getArticleBySlug_hit the_slug article reply st :
  articlesCache st !! the_slug = Some article →
  getArticleBySlug the_slug reply st
  = {| outcome := Resolved (Found article); after := st; events := [] |}.
Proof.
  intros Hs. unfold getArticleBySlug, mbind, M_bind, bind, get. cbn. rewrite Hs. reflexivity.
Qed.

Lemma getArticleBySlug_fetch the_slug reply init st :
  articlesCache st !! the_slug = None →
  fetched reply = Some init →
  getArticleBySlug the_slug reply st
  = {| outcome := Resolved (Found (processArticle (allocated st) init));
       after := inserted the_slug (processArticle (allocated st) init) st;
       events := [Send (by_slug the_slug);
                  CacheSet the_slug (processArticle (allocated st) init);
                  IdSlugSet (id init) (slug init)] |}.
Proof.
  intros Hs Hfetch. unfold getArticleBySlug, fetched in *.
  unfold mbind, M_bind, bind, get. cbn. rewrite !Hs.
  run_request reply.
Qed.

Lemma getArticleBySlug_no_article the_slug reply st :
  articlesCache st !! the_slug = None →
  fetched reply = None →
  after (getArticleBySlug the_slug reply st) = st
  ∧ events (getArticleBySlug the_slug reply st) = [Send (by_slug the_slug)].
Proof.
  intros Hs Hfetch. unfold getArticleBySlug, fetched in *.
  unfold mbind, M_bind, bind, get. cbn. rewrite !Hs.
  run_request reply.
Qed.

Lemma request_settle {B} (r : Request) (reply : FetchOutcome B) :
  request r reply = (emit (Send r);; settle reply).
Proof. reflexivity. Qed.

(** A lookup that misses is its request followed by [resume]. *)
Lemma getArticle_resume the_id reply st :
  articlesIdSlugMap st !! the_id = None →
  getArticle the_id reply st
  = (emit (Send (by_id the_id));; resume (AwaitedById the_id) reply) st.
Proof.
  intros Hid. unfold getArticle, resume, by_id.
  unfold mbind, M_bind, bind, get. cbn. rewrite !Hid.
  unfold request, settle, mbind, M_bind, bind, emit, alloc, cache_set, id_slug_set, ret, throw.
  cbn. destruct reply as [[? [| |[|?]]]|]; cbn; repeat case_decide; cbn; done.
Qed.

Lemma getArticleBySlug_resume the_slug reply st :
  articlesCache st !! the_slug = None →
  getArticleBySlug the_slug reply st
  = (emit (Send (by_slug the_slug));; resume (AwaitedBySlug the_slug) reply) st.
Proof.
  intros Hs. unfold getArticleBySlug, resume, by_slug.
  unfold mbind, M_bind, bind, get. cbn. rewrite !Hs.
  unfold request, settle, mbind, M_bind, bind, emit, alloc, cache_set, id_slug_set, ret, throw.
  cbn. destruct reply as [[? [| |[|?]]]|]; cbn; repeat case_decide; cbn; done.
Qed.

Lemma resume_fetch lookup reply init st :
  fetched reply = Some init →
  resume lookup reply st
  = {| outcome := Resolved (Found (processArticle (allocated st) init));
       after := inserted (stored_under lookup init) (processArticle (allocated st) init) st;
       events := [CacheSet (stored_under lookup init) (processArticle (allocated st) init);
                  IdSlugSet (id init) (slug init)] |}.
Proof.
  intros Hfetch. unfold resume, fetched, stored_under in *.
  unfold settle, mbind, M_bind, bind, emit, alloc, cache_set, id_slug_set, ret, throw.
  destruct reply as [[? [| |[|?]]]|]; cbn in *; repeat case_decide; cbn in *;
    try congruence; try lia; simplify_eq; by destruct lookup.
Qed.

Lemma resume_no_article lookup reply st :
  fetched reply = None →
  after (resume lookup reply st) = st ∧ events (resume lookup reply st) = [].
Proof.
  intros Hfetch. unfold resume, fetched in *.
  unfold settle, mbind, M_bind, bind, emit, alloc, cache_set, id_slug_set, ret, throw.
  destruct reply as [[? [| |[|?]]]|]; cbn in *; repeat case_decide; cbn in *;
    try congruence; try lia; done.
Qed.

End Reading.

Section NotFound.
Context `{Platform}.


End NotFound.



Section Poller.

Lemma poll_step ms reply later st :
  pollActiveArticle ms (reply :: later) st
  = match identity reply with
    | Some v => {| outcome := Resolved v; after := st; events := [Send (long_poll ms)] |}
    | None =>
        {| outcome := outcome (pollActiveArticle ms later st);
           after := after (pollActiveArticle ms later st);
           events :=
             (Send (long_poll ms) ::
              if failed reply then [ConsoleError poll_error; Sleep 3000] else [])
             ++ events (pollActiveArticle ms later st) |}
    end.
Proof.
  cbn [pollActiveArticle].
  unfold identity, failed, try_catch, request, mbind, M_bind, bind, emit, throw, ret. cbn.
  destruct reply as [[code b]|]; cbn.
  - case_decide; cbn.
    + rewrite bool_decide_eq_true_2 by done. reflexivity.
    + rewrite bool_decide_eq_false_2 by done.
      destruct b as [| |[[v|]]]; cbn; reflexivity.
  - reflexivity.
Qed.

Lemma identity_not_failed reply v : identity reply = Some v → failed reply = false.
Proof.
  destruct reply as [[code b]|]; cbn; [|discriminate].
  case_decide; [discriminate|]. intros _. by rewrite bool_decide_eq_false_2.
Qed.

(** C7. [pollActiveArticle] never rejects: whatever the long-polls
    receive, a failure is logged, followed by a wait of 3000 and by the
    same long-poll again, the cache is untouched, and the call resolves
    exactly when a successful reply carries an [id], to the first such
    id; until then it is pending. *)
Theorem pollActiveArticle_absorbs_failures ms (replies : list (FetchOutcome ActiveReply)) st :
  (∀ e, outcome (pollActiveArticle ms replies st) ≠ Rejected e)
  ∧ (∀ v, outcome (pollActiveArticle ms replies st) = Resolved v
          ↔ ∃ before reply later,
              replies = before ++ reply :: later
              ∧ Forall (λ r, identity r = None) before
              ∧ identity reply = Some v)
  ∧ (Forall (λ r, identity r = None) replies →
       outcome (pollActiveArticle ms replies st) = Pending)
  ∧ events (pollActiveArticle ms replies st) = poll_trace ms replies
  ∧ after (pollActiveArticle ms replies st) = st.
Proof.
  induction replies as [|reply later IH].
  - cbn. repeat split; try discriminate.
    + intros (before & reply & later & Heq & _). by destruct before.
  - rewrite poll_step. destruct IH as (IHrej & IHres & IHpend & IHev & IHafter).
    cbn [poll_trace].
    destruct (identity reply) as [v|] eqn:Hid.
    + rewrite (identity_not_failed reply v Hid). cbn.
      repeat split; try discriminate.
      * intros [= <-]. exists [], reply, later. by repeat split.
      * intros (before & reply' & later' & Heq & Hnone & Hsome).
        destruct before as [|b before]; simplify_eq/=; try congruence.
        all: try (apply Forall_cons in Hnone as [Hb _]; congruence).
      * intros Hall. apply Forall_cons in Hall as [Hb _]. congruence.
    + cbn [outcome after events]. repeat split.
      * exact IHrej.
      * intros Hv. apply IHres in Hv as (before & reply' & later' & -> & Hnone & Hsome).
        exists (reply :: before), reply', later'. repeat split; [|exact Hsome].
        by apply Forall_cons.
      * intros (before & reply' & later' & Heq & Hnone & Hsome).
        destruct before as [|b before]; simplify_eq/=; try congruence.
        apply Forall_cons in Hnone as [_ Hnone].
        apply IHres. by exists before, reply', later'.
      * intros Hall. apply Forall_cons in Hall as [_ Hall]. auto.
      * rewrite IHev. destruct (failed reply); reflexivity.
      * exact IHafter.
Qed.

End Poller.

Lemma pollActiveArticle_absorbs_failures_witness :
  outcome (pollActiveArticle default_ms
             [NetworkFailure;
              Responded {| status := 502; body := Unparsable |};
              Responded {| status := 200; body := Json {| active_id := None |} |};
              Responded {| status := 200; body := Json {| active_id := Some "7" |} |}]
             empty_cache)
  = Resolved "7".
Proof.
  apply (proj1 (proj2 (pollActiveArticle_absorbs_failures default_ms _ empty_cache)) "7").
  exists [NetworkFailure;
          Responded {| status := 502; body := Unparsable |};
          Responded {| status := 200; body := Json {| active_id := None |} |}],
    (Responded {| status := 200; body := Json {| active_id := Some "7" |} |}), [].
  split; [reflexivity|]. split; [|reflexivity].
  repeat constructor.
Defined.

Section MoveToFront.

Lemma foldl_max_bounds (l : list Z) (c : Z) :
  c ≤ foldl (λ c x, Z.max c x) c l
  ∧ (∀ x, x ∈ l → x ≤ foldl (λ c x, Z.max c x) c l)
  ∧ (foldl (λ c x, Z.max c x) c l = c ∨ foldl (λ c x, Z.max c x) c l ∈ l).
Proof.
  revert c. induction l as [|y l IH]; intros c; cbn.
  - split; [lia|]. split; [|by left]. intros x Hx. by apply elem_of_nil in Hx.
  - destruct (IH (Z.max c y)) as (Hge & Hall & Hin).
    split; [lia|]. split.
    + intros x Hx. apply elem_of_cons in Hx as [->|Hx]; [lia|auto].
    + destruct Hin as [Heq|Hin]; [|right; by apply elem_of_cons; right].
      rewrite Heq. destruct (Z.max_spec c y) as [[_ ->]|[_ ->]];
        [right; apply elem_of_cons; by left|by left].
Qed.

(** A list of doubles that hold safe integers is the image of a list
    of integers. *)
Lemma integers_of (l : list Number.t) (bound : Z) :
  (∀ v, v ∈ l → ∃ z, v = Number.of_Z z ∧ Number.safe z ∧ z ≤ bound) →
  ∃ zs, l = Number.of_Z <$> zs ∧ Forall (λ z, Number.safe z ∧ z ≤ bound) zs.
Proof.
  induction l as [|v l IH]; intros Hall.
  - by exists [].
  - destruct (Hall v) as (z & -> & Hz & Hle); [by left|].
    destruct IH as (zs & -> & Hzs); [intros w Hw; apply Hall; by right|].
    exists (z :: zs). split; [reflexivity|]. by constructor.
Qed.

(** On such a list the reduction with [Math.max] is the reduction with
    the maximum of integers. *)
Lemma foldl_Math_max (zs : list Z) (c bound : Z) :
  Number.safe c → Number.safe bound → c ≤ bound →
  Forall (λ z, Number.safe z ∧ z ≤ bound) zs →
  foldl (λ c x, Number.Math_max c x) (Number.of_Z c) (Number.of_Z <$> zs)
  = Number.of_Z (foldl (λ c x, Z.max c x) c zs).
Proof.
  intros Hc Hb. revert c Hc. induction zs as [|z zs IH]; intros c Hc Hle Hzs; [reflexivity|].
  apply Forall_cons in Hzs as [[Hz Hzle] Hzs]. cbn [fmap list_fmap foldl].
  rewrite NumberFacts.Math_max_exact by done.
  apply IH; [|lia|done].
  apply (NumberFacts.safe_between c _ bound); [done|done|lia].
Qed.

(** [Object.values] lists the positions in the order of the keys of
    the object, which need not be the order of [map_to_list]. On a
    table of integers below 2^53 in magnitude the reduction is the
    same in any order. *)
Lemma reduce_any_order (positions : Positions) m (l : list Number.t) :
  greatest positions m → l ≡ₚ (snd <$> map_to_list positions) →
  foldl (λ c x, Number.Math_max c x) Number.zero l = Number.of_Z (Z.max 0 m).
Proof.
  intros (Hm & [k Hk] & Hall) Hperm.
  destruct (integers_of l m) as (zs & Hl & Hzs).
  { intros v Hv. rewrite Hperm in Hv.
    apply list_elem_of_fmap in Hv as ([k' v'] & -> & Hin).
    apply elem_of_map_to_list in Hin. by apply (Hall k'). }
  rewrite Hl. change Number.zero with (Number.of_Z 0).
  assert (Hs0 : Number.safe 0) by (unfold Number.safe; lia).
  assert (Hsb : Number.safe (Z.max 0 m)).
  { unfold Number.safe in *. lia. }
  rewrite (foldl_Math_max zs 0 (Z.max 0 m)); [|done|done|lia|].
  2: { eapply Forall_impl; [exact Hzs|]. cbn. intros z [? ?]. split; [done|lia]. }
  f_equal.
  destruct (foldl_max_bounds zs 0) as (Hge & Hle & Hin).
  assert (Hmz : m ∈ zs).
  { assert (Hv : Number.of_Z m ∈ Number.of_Z <$> zs).
    { rewrite <- Hl, Hperm. apply list_elem_of_fmap. exists (k, Number.of_Z m).
      split; [reflexivity|by apply elem_of_map_to_list]. }
    apply list_elem_of_fmap in Hv as (z & Heq & Hz).
    rewrite Forall_forall in Hzs. destruct (Hzs z Hz) as [Hsz _].
    by rewrite (NumberFacts.of_Z_inj m z Hm Hsz Heq). }
  pose proof (Hle m Hmz).
  destruct Hin as [Heq|Hin]; [lia|].
  rewrite Forall_forall in Hzs. destruct (Hzs _ Hin) as [_ ?]. lia.
Qed.

Lemma max_position_greatest (positions : Positions) m :
  greatest positions m → max_position positions = Number.of_Z (Z.max 0 m).
Proof. intros Hm. by apply (reduce_any_order positions m). Qed.

Lemma makeArticleFirst_present (the_id : string) (resp : Response Positions)
    (positions : Positions) pos (move_reply : FetchOutcome Positions) st :
  status resp < 400 → body resp = Json positions → positions !! the_id = Some pos →
  events (makeArticleFirst the_id (Responded resp) move_reply st)
  = [Send positions_call;
     Send (move_call the_id (Number.minus (max_position positions) pos))]
  ∧ outcome (makeArticleFirst the_id (Responded resp) move_reply st)
    = outcome (moveArticle the_id (Number.minus (max_position positions) pos) move_reply st).
Proof.
  intros Hlt Hbody Hpos. destruct resp as [code b]. cbn in *. subst b.
  unfold makeArticleFirst, moveArticle, request, mbind, M_bind, bind, emit, throw, ret. cbn.
  case_decide; [lia|]. cbn. rewrite !Hpos. cbn.
  destruct move_reply as [[code' b']|]; cbn; [|done].
  case_decide; cbn; [done|]. destruct b'; by cbn.
Qed.

Lemma integer_offset (positions : Positions) pos m :
  Number.safe pos → greatest positions m → Number.safe (Z.max 0 m - pos) →
  Number.minus (max_position positions) (Number.of_Z pos) = Number.of_Z (Z.max 0 m - pos).
Proof.
  intros Hpos Hm Hdiff. rewrite (max_position_greatest positions m Hm).
  apply NumberFacts.minus_exact; [|done|done].
  destruct Hm as (Hm & _). unfold Number.safe in *. lia.
Qed.


End MoveToFront.

Lemma greatest_example : greatest example_positions 5.
Proof.
  split; [unfold Number.safe; lia|]. split; [by exists "b"|]. intros k v Hk.
  unfold example_positions in Hk.
  apply lookup_insert_Some in Hk as [[_ <-]|[_ Hk]].
  - exists 2. split; [reflexivity|]. unfold Number.safe. lia.
  - apply lookup_singleton_Some in Hk as [_ <-].
    exists 5. split; [reflexivity|]. unfold Number.safe. lia.
Defined.



(** Beyond the safe integers the subtraction rounds: for the table
    [{ a: -1, b: 2^53 }] the difference is 2^53 + 1 and the offset that
    is sent is 2^53. And from two infinities it makes [NaN]: a position
    that [JSON.parse] reads as [Infinity] gives the offset [NaN]. *)
Lemma makeArticleFirst_rounds :
  events (makeArticleFirst "a"
            (Responded {| status := 200;
                          body := Json ({["a" := Number.of_Z (-1);
                                          "b" := Number.of_Z (2 ^ 53)]} : Positions) |})
            NetworkFailure empty_cache)
  = [Send positions_call; Send (move_call "a" (Number.of_Z (2 ^ 53)))]
  ∧ events (makeArticleFirst "a"
              (Responded {| status := 200;
                            body := Json ({["a" := Number.Infinity]} : Positions) |})
              NetworkFailure empty_cache)
    = [Send positions_call; Send (move_call "a" Number.NaN)].
Proof. split; vm_compute; reflexivity. Qed.

Section Mutations.

Lemma evict_then_request {B} (matches : Article → bool) (req : Request)
    (reply : FetchOutcome B) st :
  let r := (evict matches;; request req reply) st in
  events r = (map_to_list (articlesCache st) ≫= evict_events matches) ++ [Send req]
  ∧ after r = after (evict (E:=Failure B) matches st)
  ∧ outcome r = outcome (request req reply st).
Proof.
  cbv zeta.
  destruct (evict_run (E:=Failure B) matches st) as (Hout & _ & _ & _ & _ & Hev).
  cbv zeta in Hout, Hev.
  rewrite (bind_resolved _ _ st tt) by exact Hout. cbn [events after outcome].
  destruct (request_run req reply (after (evict (E:=Failure B) matches st))) as [-> ->].
  rewrite Hev, !request_outcome. done.
Qed.

Lemma evict_events_evictions (matches : Article → bool) (l : list (string * Article)) :
  Forall (λ ev, is_eviction ev = true) (l ≫= evict_events matches).
Proof.
  apply Forall_bind, Forall_forall. intros [k a] _. unfold evict_events. cbn.
  destruct (matches a); repeat constructor.
Qed.

Lemma evict_events_paired (matches : Article → bool) (l : list (string * Article)) tail :
  paired ((l ≫= evict_events matches) ++ tail) = paired tail.
Proof.
  induction l as [|entry l IH]; [reflexivity|].
  cbn [mbind list_bind]. rewrite <- app_assoc. unfold evict_events at 1.
  destruct (matches entry.2); cbn; exact IH.
Qed.

(** What an evicting mutation does: the deletions come first and in
    pairs, the write request is the last event, and every entry that
    satisfies [matches] is gone from both mappings. *)
Lemma evicting_mutation {B} (matches : Article → bool) (req : Request)
    (reply : FetchOutcome B) st :
  let r := (evict matches;; request req reply) st in
  ∃ evictions,
    events r = evictions ++ [Send req]
    ∧ Forall (λ ev, is_eviction ev = true) evictions
    ∧ paired (events r) = true
    ∧ ∀ k a, articlesCache st !! k = Some a → matches a = true →
        CacheDelete k ∈ evictions
        ∧ IdSlugDelete (id (props a)) ∈ evictions
        ∧ articlesCache (after r) !! k = None
        ∧ articlesIdSlugMap (after r) !! id (props a) = None.
Proof.
  cbv zeta.
  destruct (evict_then_request matches req reply st) as (Hev & Hafter & _).
  cbv zeta in Hev, Hafter.
  exists (map_to_list (articlesCache st) ≫= evict_events matches).
  split; [exact Hev|]. split; [apply evict_events_evictions|].
  split; [rewrite Hev; by rewrite evict_events_paired|].
  intros k a Hk Hm. rewrite Hafter.
  destruct (evict_run (E:=Failure B) matches st) as (_ & _ & Hcache & Hids & _).
  cbv zeta in Hcache, Hids.
  assert (Hin : ∀ ev, ev ∈ evict_events matches (k, a) →
                      ev ∈ map_to_list (articlesCache st) ≫= evict_events matches).
  { intros ev Hev'. apply list_elem_of_bind. exists (k, a).
    split; [exact Hev'|by apply elem_of_map_to_list]. }
  unfold evict_events in Hin. cbn in Hin. rewrite Hm in Hin.
  split; [apply Hin; set_solver|]. split; [apply Hin; set_solver|].
  split; [|by apply (Hids k a)].
  rewrite Hcache, Hk. cbn. by rewrite Hm.
Qed.

Lemma request_only_sends {B} (req : Request) (reply : FetchOutcome B) st :
  only_sends (request req reply st) req st.
Proof. destruct (request_run req reply st). by split. Qed.

Lemma makeArticleFirst_sends the_id positions_reply move_reply st :
  after (makeArticleFirst the_id positions_reply move_reply st) = st
  ∧ Forall (λ ev, is_send ev = true)
      (events (makeArticleFirst the_id positions_reply move_reply st)).
Proof.
  unfold makeArticleFirst, request, mbind, M_bind, bind, emit, throw, ret. cbn.
  destruct positions_reply as [[code b]|]; cbn; [|by repeat constructor].
  case_decide; cbn; [by repeat constructor|].
  destruct b as [| |positions]; cbn; try by repeat constructor.
  destruct (positions !! the_id); cbn; [|by repeat constructor].
  destruct move_reply as [[code' b']|]; cbn; [|by repeat constructor].
  case_decide; cbn; [by repeat constructor|].
  destruct b'; cbn; by repeat constructor.
Qed.

Lemma sends_paired (l : list Event) :
  Forall (λ ev, is_send ev = true) l → paired l = true.
Proof.
  induction 1 as [|ev l Hev _ IH]; [reflexivity|].
  destruct ev; try discriminate. exact IH.
Qed.

(** C1, as the code has it. [addArticle] (by title) and [updateArticle]
    (by id) delete every matching entry from both mappings, in pairs,
    before they send their write request. The other mutations send
    their request and leave both mappings as they are. *)
Theorem mutations_and_the_cache :
  (∀ link the_title the_snippet the_content the_position reply st,
     let r := addArticle link the_title the_snippet the_content the_position reply st in
     ∃ evictions req,
       events r = evictions ++ [Send req]
       ∧ method req = POST
       ∧ Forall (λ ev, is_eviction ev = true) evictions
       ∧ paired (events r) = true
       ∧ ∀ k a, articlesCache st !! k = Some a → title (props a) = the_title →
           CacheDelete k ∈ evictions
           ∧ IdSlugDelete (id (props a)) ∈ evictions
           ∧ articlesCache (after r) !! k = None
           ∧ articlesIdSlugMap (after r) !! id (props a) = None)
  ∧ (∀ updated reply st,
       let r := updateArticle updated reply st in
       ∃ evictions req,
         events r = evictions ++ [Send req]
         ∧ method req = POST
         ∧ Forall (λ ev, is_eviction ev = true) evictions
         ∧ paired (events r) = true
         ∧ ∀ k a, articlesCache st !! k = Some a → Some (id (props a)) = patch_id updated →
             CacheDelete k ∈ evictions
             ∧ IdSlugDelete (id (props a)) ∈ evictions
             ∧ articlesCache (after r) !! k = None
             ∧ articlesIdSlugMap (after r) !! id (props a) = None)
  ∧ (∀ the_id reply st,
       only_sends (archiveArticle the_id reply st)
         {| method := PUT; endpoint := news_archive the_id; payload := NoPayload |} st
       ∧ only_sends (activateArticle the_id reply st)
           {| method := PUT; endpoint := news_active the_id; payload := NoPayload |} st
       ∧ only_sends (removeArticle the_id reply st)
           {| method := DELETE; endpoint := news_item the_id; payload := NoPayload |} st
       ∧ only_sends (restoreArticle the_id reply st)
           {| method := PUT; endpoint := news_undelete the_id; payload := NoPayload |} st
       ∧ only_sends (makeArticleGeek the_id reply st)
           {| method := PUT; endpoint := news_geek the_id; payload := NoPayload |} st
       ∧ only_sends (makeArticleNotGeek the_id reply st)
           {| method := PUT; endpoint := news_nogeek the_id; payload := NoPayload |} st)
  ∧ (∀ the_id offset reply st,
       only_sends (moveArticle the_id offset reply st) (move_call the_id offset) st)
  ∧ (∀ the_id positions_reply move_reply st,
       after (makeArticleFirst the_id positions_reply move_reply st) = st
       ∧ Forall (λ ev, is_send ev = true)
           (events (makeArticleFirst the_id positions_reply move_reply st))).
Proof.
  split; [|split; [|split; [|split]]].
  - intros link the_title the_snippet the_content the_position reply st.
    unfold addArticle. cbv zeta.
    match goal with |- context [request ?req reply] => set (the_request := req) end.
    destruct (evicting_mutation (λ article, bool_decide (title (props article) = the_title))
                the_request reply st) as (evictions & Hev & Hall & Hpaired & Hgone).
    exists evictions, the_request. split; [exact Hev|]. split; [reflexivity|].
    split; [exact Hall|]. split; [exact Hpaired|].
    intros k a Hk Ht. apply (Hgone k a Hk). by apply bool_decide_eq_true_2.
  - intros updated reply st. unfold updateArticle. cbv zeta.
    match goal with |- context [request ?req reply] => set (the_request := req) end.
    destruct (evicting_mutation (λ article, bool_decide (Some (id (props article)) = patch_id updated))
                the_request reply st) as (evictions & Hev & Hall & Hpaired & Hgone).
    exists evictions, the_request. split; [exact Hev|]. split; [reflexivity|].
    split; [exact Hall|]. split; [exact Hpaired|].
    intros k a Hk Ht. apply (Hgone k a Hk). by apply bool_decide_eq_true_2.
  - intros the_id reply st. repeat split; apply request_run.
  - intros the_id offset reply st. apply request_only_sends.
  - intros the_id positions_reply move_reply st.
    unfold makeArticleFirst, request, mbind, M_bind, bind, emit, throw, ret. cbn.
    destruct positions_reply as [[code b]|]; cbn; [|by repeat constructor].
    case_decide; cbn; [by repeat constructor|].
    destruct b as [| |positions]; cbn; try by repeat constructor.
    destruct (positions !! the_id); cbn; [|by repeat constructor].
    destruct move_reply as [[code' b']|]; cbn; [|by repeat constructor].
    case_decide; cbn; [by repeat constructor|].
    destruct b'; cbn; by repeat constructor.
Qed.

End Mutations.

Section Invariant.
Context `{Platform}.

Lemma consistent_indexed st : consistent st → indexed st.
Proof. intros Hc i s His. destruct (Hc i s His) as (a & -> & _). by eexists. Qed.

Lemma consistent_empty : consistent empty_cache.
Proof. intros i s His. cbn in His. by rewrite lookup_empty in His. Qed.

Lemma evict_consistent {E} (matches : Article → bool) st :
  consistent st → consistent (after (evict (E:=E) matches st)).
Proof.
  intros Hc i s His.
  destruct (evict_run (E:=E) matches st) as (_ & _ & Hcache & Hgone & _ & _).
  cbv zeta in Hcache, Hgone.
  pose proof (evict_keeps_or_drops matches st i s His) as Hbefore.
  destruct (Hc i s Hbefore) as (a & Ha & Hid).
  exists a. split; [|exact Hid]. rewrite Hcache, Ha. cbn.
  destruct (matches a) eqn:Hm; [|reflexivity].
  rewrite <- Hid, (Hgone s a Ha Hm) in His. discriminate.
Qed.

(** The calls that are neither a lookup nor an eviction leave the cache
    as it is and only send. *)
Lemma perform_other c st :
  match c with
  | CallGetArticle _ _ | CallGetArticleBySlug _ _
  | CallAddArticle _ _ _ _ _ _ | CallUpdateArticle _ _ => True
  | _ => (perform c st).1 = st ∧ Forall (λ ev, is_send ev = true) (perform c st).2
  end.
Proof.
  destruct c; try exact I; cbn [perform ran fst snd];
    try (unfold archiveArticle, activateArticle, removeArticle, restoreArticle,
           moveArticle, makeArticleGeek, makeArticleNotGeek;
         match goal with
         | |- context [request ?req ?reply ?st] =>
             destruct (request_run req reply st) as [-> ->]
         end;
         by repeat constructor).
  apply makeArticleFirst_sends.
Qed.

(** Storing a fetched article keeps the index consistent when the
    article is stored under its own slug and that slug is not indexed
    under another id. *)
Lemma inserted_consistent key init st :
  consistent st →
  key = slug init →
  (∀ i, articlesIdSlugMap st !! i = Some (slug init) → i = id init) →
  consistent (inserted key (processArticle (allocated st) init) st).
Proof.
  intros Hc -> Hfree j s. unfold inserted. cbn. intros Hj.
  apply lookup_insert_Some in Hj as [[<- <-]|[Hne Hj]].
  - eexists. by rewrite lookup_insert_eq.
  - destruct (Hc j s Hj) as (a & Ha & Hid). exists a. split; [|exact Hid].
    rewrite lookup_insert_ne; [exact Ha|].
    intros <-. apply Hne. symmetry. by apply Hfree.
Qed.

Lemma perform_consistent c st : consistent st → coherent c st → consistent (perform c st).1.
Proof.
  intros Hc Hcoh.
  destruct c as [i reply|s reply|l t sn ct pos reply|u reply| | | | | | | | ];
    try (match goal with
         | |- consistent (perform ?c st).1 =>
             let Hp := fresh in
             pose proof (perform_other c st) as Hp; lazy beta iota in Hp;
             lazymatch type of Hp with
             | _ ∧ _ => destruct Hp as [Hp _]; by rewrite Hp
             end
         end);
    cbn [perform ran fst].
  - destruct (articlesIdSlugMap st !! i) as [s|] eqn:Hi.
    { by rewrite (getArticle_hit i s reply st Hi). }
    destruct (fetched reply) as [init|] eqn:Hf.
    2: { by destruct (getArticle_no_article i reply st Hi Hf) as [-> _]. }
    rewrite (getArticle_fetch i reply init st Hi Hf). cbn [after].
    apply inserted_consistent; [exact Hc|reflexivity|]. by apply (Hcoh Hi init Hf).
  - destruct (articlesCache st !! s) as [a|] eqn:Hs.
    { by rewrite (getArticleBySlug_hit s a reply st Hs). }
    destruct (fetched reply) as [init|] eqn:Hf.
    2: { by destruct (getArticleBySlug_no_article s reply st Hs Hf) as [-> _]. }
    rewrite (getArticleBySlug_fetch s reply init st Hs Hf). cbn [after].
    pose proof (Hcoh Hs init Hf) as Hslug.
    apply inserted_consistent; [exact Hc|by symmetry|].
    intros j Hj. destruct (Hc j _ Hj) as (a & Ha & _). congruence.
  - unfold addArticle. cbv zeta.
    match goal with |- context [request ?req reply] => set (the_request := req) end.
    match goal with |- context [evict ?m] => set (matches := m) end.
    destruct (evict_then_request matches the_request reply st) as (_ & -> & _).
    by apply evict_consistent.
  - unfold updateArticle.
    match goal with |- context [request ?req reply] => set (the_request := req) end.
    match goal with |- context [evict ?m] => set (matches := m) end.
    destruct (evict_then_request matches the_request reply st) as (_ & -> & _).
    by apply evict_consistent.
Qed.

Lemma resume_consistent lookup reply st :
  consistent st → coherent_arrival lookup reply st →
  consistent (after (resume lookup reply st)).
Proof.
  intros Hc Hcoh. destruct (fetched reply) as [init|] eqn:Hf.
  2: { by destruct (resume_no_article lookup reply st Hf) as [-> _]. }
  rewrite (resume_fetch lookup reply init st Hf). cbn [after].
  destruct (Hcoh init Hf) as [Hslug Hfree].
  apply inserted_consistent; [exact Hc| |exact Hfree].
  by destruct lookup.
Qed.

Lemma reachable_consistent st flying : reachable st flying → consistent st.
Proof.
  induction 1 as [|c st flying _ IH Hcoh|lookup st flying _ IH _
                  |lookup reply st before later _ IH Hcoh|n st flying _ IH].
  - apply consistent_empty.
  - by apply perform_consistent.
  - exact IH.
  - by apply resume_consistent.
  - exact IH.
Qed.

Lemma perform_paired c st : paired (perform c st).2 = true.
Proof.
  destruct c as [i reply|s reply|l t sn ct pos reply|u reply| | | | | | | | ];
    try (match goal with
         | |- paired (perform ?c st).2 = true =>
             let Hp := fresh in
             pose proof (perform_other c st) as Hp; lazy beta iota in Hp;
             lazymatch type of Hp with
             | _ ∧ _ => destruct Hp as [_ Hp]; by apply sends_paired
             end
         end);
    cbn [perform ran snd].
  - destruct (articlesIdSlugMap st !! i) as [s|] eqn:Hi.
    { by rewrite (getArticle_hit i s reply st Hi). }
    destruct (fetched reply) as [init|] eqn:Hf.
    2: { by destruct (getArticle_no_article i reply st Hi Hf) as [_ ->]. }
    rewrite (getArticle_fetch i reply init st Hi Hf). cbn.
    by rewrite !bool_decide_eq_true_2.
  - destruct (articlesCache st !! s) as [a|] eqn:Hs.
    { by rewrite (getArticleBySlug_hit s a reply st Hs). }
    destruct (fetched reply) as [init|] eqn:Hf.
    2: { by destruct (getArticleBySlug_no_article s reply st Hs Hf) as [_ ->]. }
    rewrite (getArticleBySlug_fetch s reply init st Hs Hf). cbn.
    by rewrite !bool_decide_eq_true_2.
  - unfold addArticle. cbv zeta.
    match goal with |- context [request ?req reply] => set (the_request := req) end.
    match goal with |- context [evict ?m] => set (matches := m) end.
    destruct (evict_then_request matches the_request reply st) as (-> & _ & _).
    by rewrite evict_events_paired.
  - unfold updateArticle.
    match goal with |- context [request ?req reply] => set (the_request := req) end.
    match goal with |- context [evict ?m] => set (matches := m) end.
    destruct (evict_then_request matches the_request reply st) as (-> & _ & _).
    by rewrite evict_events_paired.
Qed.

Lemma resume_paired lookup reply st : paired (events (resume lookup reply st)) = true.
Proof.
  destruct (fetched reply) as [init|] eqn:Hf.
  2: { by destruct (resume_no_article lookup reply st Hf) as [_ ->]. }
  rewrite (resume_fetch lookup reply init st Hf). cbn.
  by rewrite !bool_decide_eq_true_2.
Qed.

(** C4, as the code has it. The lookups are [async]: each writes the
    cache when its reply arrives, and other calls may run in between.
    As long as the server answers a fetch by slug with an article of
    that slug, and every fetched article has a slug that, when its reply
    arrives, is not indexed under another id, every id of the secondary
    mapping maps to a slug that is a key of the primary mapping, after
    any calls of the module, overlapping lookups included. With any
    answers, each call, and each lookup that resumes, writes the two
    mappings in pairs: a set with a set, a delete with a delete. *)
Theorem cache_index_invariant :
  (∀ st flying, reachable st flying → indexed st)
  ∧ (∀ c st, paired (perform c st).2 = true)
  ∧ (∀ lookup reply st, paired (events (resume lookup reply st)) = true).
Proof.
  split; [|split; [exact perform_paired|exact resume_paired]].
  intros st flying Hst. by eapply consistent_indexed, reachable_consistent.
Qed.

End Invariant.

(** Two lookups overlap: [getArticleBySlug("s")] and [getArticle("1")]
    both miss the empty cache; the reply to the second, an article of
    id ["1"] and slug ["s"], arrives first, the reply to the first, an
    article of id ["2"] and slug ["s"], after it. *)
Lemma cache_index_invariant_witness :
  indexed
    (after (resume (H:=example_platform) (AwaitedBySlug "s")
              (found (example_article "1" "s" "T"))
              (after (resume (H:=example_platform) (AwaitedById "1")
                        (found (example_article "1" "s" "T")) empty_cache)))).
Proof.
  apply (proj1 (cache_index_invariant (H:=example_platform)) _ ([] ++ [])).
  apply (reachable_arrived (H:=example_platform) (AwaitedBySlug "s") _ _ [] []).
  - apply (reachable_arrived (H:=example_platform) (AwaitedById "1") _ _ [AwaitedBySlug "s"] []).
    + apply (reachable_sent (H:=example_platform) (AwaitedBySlug "s")); [|reflexivity].
      apply (reachable_sent (H:=example_platform) (AwaitedById "1")); [|reflexivity].
      apply reachable_empty.
    + intros a [= <-]. split; [exact I|]. intros i Hi. cbn in Hi.
      rewrite lookup_empty in Hi. discriminate.
  - intros a [= <-]. split; [reflexivity|]. intros i Hi.
    vm_compute in Hi. destruct (decide (i = "1")) as [->|Hne]; [reflexivity|].
    exfalso. revert Hi. change (({["1" := "s"]} : gmap string string) !! i = Some "s" → False).
    rewrite lookup_singleton_ne by done. discriminate.
Defined.

(** C4, as stated, fails: when [getArticleBySlug("a")] is answered with
    an article of slug ["b"], the id of that article is mapped to ["b"],
    which is not a key of the primary mapping. *)
Lemma cache_index_broken_by_other_slug :
  ¬ (∀ st, reachable_by_any_calls (H:=example_platform) st → indexed st).
Proof.
  intros Hclaim.
  assert (Hreach : reachable_by_any_calls (H:=example_platform) mismatched_example).
  { apply (any_call (H:=example_platform)
             (CallGetArticleBySlug "a" (found (example_article "1" "b" "T"))) empty_cache).
    apply any_empty. }
  destruct (Hclaim _ Hreach "1" "b") as [a Ha]; [reflexivity|].
  vm_compute in Ha. discriminate.
Qed.

(** The second condition on the server is needed as well: when two ids
    are answered with the same slug, evicting the second leaves the
    first indexed without an entry. *)
Lemma cache_index_broken_by_shared_slug :
  ¬ indexed
      (after (updateArticle
                {| patch_id := Some "2"; patch_title := None;
                   patch_snippet := None; patch_content := None |}
                done_reply
                (after (getArticle (H:=example_platform) "2"
                          (found (example_article "2" "s" "T")) cached_example)))).
Proof.
  intros Hindexed. destruct (Hindexed "1" "s") as [a Ha]; [reflexivity|].
  vm_compute in Ha. discriminate.
Qed.

(** The condition is on the cache as it is when the reply arrives:
    [getArticleBySlug("s")] and [getArticle("1")] overlap and are
    answered with articles of slug ["s"] and of ids ["1"] and ["2"]. Had
    either call run to its end before the other started, the second
    would have been a hit. After [updateArticle] of id ["2"], id ["1"]
    is indexed without an entry. *)
Lemma cache_index_broken_by_overlap :
  misses (AwaitedById "1") empty_cache
  ∧ misses (AwaitedBySlug "s") empty_cache
  ∧ ¬ indexed
        (after (updateArticle
                  {| patch_id := Some "2"; patch_title := None;
                     patch_snippet := None; patch_content := None |}
                  done_reply
                  (after (resume (H:=example_platform) (AwaitedBySlug "s")
                            (found (example_article "2" "s" "T"))
                            (after (resume (H:=example_platform) (AwaitedById "1")
                                      (found (example_article "1" "s" "T"))
                                      empty_cache)))))).
Proof.
  split; [reflexivity|]. split; [reflexivity|].
  intros Hindexed. destruct (Hindexed "1" "s") as [a Ha]; [reflexivity|].
  vm_compute in Ha. discriminate.
Qed.

Lemma mutations_and_the_cache_witness :
  articlesCache (after (updateArticle
                          {| patch_id := Some "1"; patch_title := None;
                             patch_snippet := None; patch_content := None |}
                          done_reply cached_example)) !! "s" = None
  ∧ articlesIdSlugMap (after (updateArticle
                          {| patch_id := Some "1"; patch_title := None;
                             patch_snippet := None; patch_content := None |}
                          done_reply cached_example)) !! "1" = None.
Proof.
  destruct (proj1 (proj2 mutations_and_the_cache)
              {| patch_id := Some "1"; patch_title := None;
                 patch_snippet := None; patch_content := None |}
              done_reply cached_example) as (evictions & req & _ & _ & _ & _ & Hgone).
  destruct (Hgone "s" (processArticle (H:=example_platform) 0 (example_article "1" "s" "T")))
    as (_ & _ & Hcache & Hids); [reflexivity|reflexivity|].
  split; [exact Hcache|exact Hids].
Defined.

(** C1, as stated, fails for the mutations that do not scan the cache:
    [archiveArticle("1")] leaves the cached article of id ["1"] in both
    mappings. *)
Lemma archiveArticle_keeps_entry :
  ¬ (∀ st k a reply,
       articlesCache st !! k = Some a → id (props a) = "1" →
       articlesCache (after (archiveArticle "1" reply st)) !! k = None
       ∧ articlesIdSlugMap (after (archiveArticle "1" reply st)) !! "1" = None).
Proof.
  intros Hclaim.
  destruct (Hclaim cached_example "s"
              (processArticle (H:=example_platform) 0 (example_article "1" "s" "T"))
              done_reply) as [Hcache _]; [reflexivity|reflexivity|].
  vm_compute in Hcache. discriminate.
Qed.

Section CacheHits.
Context `{Platform}.

Lemma fetched_by_id_then_hit the_id reply init st :
  articlesIdSlugMap st !! the_id = None →
  fetched reply = Some init →
  let r := getArticle the_id reply st in
  let article := processArticle (allocated st) init in
  outcome r = Resolved (Found article)
  ∧ (∀ reply', hit (getArticle (id init) reply' (after r)) article (after r))
  ∧ (∀ reply', hit (getArticleBySlug (slug init) reply' (after r)) article (after r)).
Proof.
  intros Hid Hf. cbv zeta. rewrite (getArticle_fetch the_id reply init st Hid Hf).
  cbn [outcome after]. split; [reflexivity|]. split; intros reply'.
  - unfold hit. rewrite (getArticle_hit (id init) (slug init)).
    + unfold inserted. cbn. by rewrite lookup_insert_eq.
    + unfold inserted. cbn. by rewrite lookup_insert_eq.
  - apply getArticleBySlug_hit. unfold inserted. cbn. by rewrite lookup_insert_eq.
Qed.

Lemma fetched_by_slug_then_hit the_slug reply init st :
  articlesCache st !! the_slug = None →
  fetched reply = Some init →
  let r := getArticleBySlug the_slug reply st in
  let article := processArticle (allocated st) init in
  outcome r = Resolved (Found article)
  ∧ (∀ reply', hit (getArticleBySlug the_slug reply' (after r)) article (after r))
  ∧ (slug init = the_slug →
     ∀ reply', hit (getArticle (id init) reply' (after r)) article (after r)).
Proof.
  intros Hs Hf. cbv zeta. rewrite (getArticleBySlug_fetch the_slug reply init st Hs Hf).
  cbn [outcome after]. split; [reflexivity|]. split.
  - intros reply'. apply getArticleBySlug_hit. unfold inserted. cbn.
    by rewrite lookup_insert_eq.
  - intros <- reply'. unfold hit. rewrite (getArticle_hit (id init) (slug init)).
    + unfold inserted. cbn. by rewrite lookup_insert_eq.
    + unfold inserted. cbn. by rewrite lookup_insert_eq.
Qed.

End CacheHits.

(** After [getArticleBySlug("a")] has been answered with an article of
    id ["1"] and slug ["b"], [getArticle("1")] takes the cached path,
    sends nothing, and resolves to [undefined]. *)
Lemma hit_by_id_after_other_slug :
  ∀ reply,
    getArticle (H:=example_platform) "1" reply mismatched_example
    = {| outcome := Resolved Undefined; after := mismatched_example; events := [] |}.
Proof. intros reply. reflexivity. Qed.

End ApiFacts.

(** ** The notification queue *)

Module StoreFacts.
Import Store.

Lemma filter_all {A} (P : A → Prop) `{∀ x, Decision (P x)} (l : list A) :
  (∀ x, x ∈ l → P x) → filter P l = l.
Proof.
  induction l as [|x r IH]; intros Hall; [reflexivity|].
  rewrite filter_cons_True by (apply Hall; left).
  f_equal. apply IH. intros y Hy. apply Hall. by right.
Qed.

Lemma indexOf_None l n : indexOf l n = None ↔ absent n l.
Proof.
  unfold absent. induction l as [|x r IH]; cbn.
  - split; [|done]. intros _ m Hm. by apply elem_of_nil in Hm.
  - case_decide as Hx.
    + split; [discriminate|]. intros Habs. exfalso. apply (Habs x); [left|done].
    + rewrite fmap_None, IH. split.
      * intros Hr m Hm. apply elem_of_cons in Hm as [->|Hm]; auto.
      * intros Habs m Hm. apply Habs. by right.
Qed.

Lemma remove_at_index l n index :
  indexOf l n = Some index →
  NoDup (ref <$> l) →
  take index l ++ drop (S index) l = without n l.
Proof.
  unfold without. revert index. induction l as [|x r IH]; intros index; cbn [indexOf];
    [discriminate|].
  rewrite fmap_cons, NoDup_cons. case_decide as Hx.
  - intros [= <-] [Hfresh _]. cbn [take drop app]. 
    rewrite filter_cons_False by (intros Hne; by apply Hne).
    symmetry. apply filter_all. intros m Hm Heq.
    apply Hfresh. rewrite Hx, <- Heq. apply list_elem_of_fmap. by exists m.
  - intros Hi [_ Hnd]. apply fmap_Some in Hi as (j & Hj & ->). cbn [take drop app].
    rewrite filter_cons_True by exact Hx. f_equal. by apply IH.
Qed.

Lemma remove_absent l n : absent n l → without n l = l.
Proof. intros Habs. apply filter_all. intros m Hm. by apply Habs. Qed.

(** Removing by reference takes the object out of a queue of distinct
    objects, and nothing else. *)
Lemma rootReducer_remove state n :
  NoDup (ref <$> notifications state) →
  notifications (rootReducer state (removeNotificationAction n))
  = without n (notifications state).
Proof.
  intros Hnd. cbn. destruct (indexOf (notifications state) n) as [index|] eqn:Hi; cbn.
  - by apply remove_at_index.
  - symmetry. by apply remove_absent, indexOf_None.
Qed.

Lemma rootReducer_remove_absent state n :
  absent n (notifications state) →
  rootReducer state (removeNotificationAction n) = state.
Proof. intros Habs. cbn. by rewrite (proj2 (indexOf_None _ _) Habs). Qed.

Lemma without_spec n l m : m ∈ without n l ↔ m ∈ l ∧ ref m ≠ ref n.
Proof. unfold without. rewrite list_elem_of_filter. tauto. Qed.

Lemma absent_without n l : absent n (without n l).
Proof. intros m Hm. by apply without_spec in Hm as [_ Hm]. Qed.


Lemma addNotification_string s w :
  addNotification (FromString s) w
  = (Some (from_string s w),
     {| store :=
          {| issueNumber := issueNumber (store w);
             isAdmin := isAdmin (store w);
             notifications := notifications (store w) ++ [from_string s w];
             activeId := activeId (store w);
             theme := theme (store w) |};
        notificationId := S (notificationId w);
        timers := timers w ++ [(3000, from_string s w)];
        objects := S (S (objects w));
        held := <[objects w := object_of (from_string s w)]> (held w);
        elements :=
          <[S (objects w) := {| markup := Span s; key := Some (notificationId w) |}]>
            (elements w) |}).
Proof. reflexivity. Qed.

Lemma addNotification_result input w :
  match (addNotification input w).1 with
  | Some n =>
      ref n = objects w
      ∧ notifications (store (addNotification input w).2) = notifications (store w) ++ [n]
      ∧ timers (addNotification input w).2
        = timers w ++ match time n with Some t => [(t, n)] | None => [] end
      ∧ (no_explicit_context input w → context n = VNull)
  | None =>
      store (addNotification input w).2 = store w
      ∧ timers (addNotification input w).2 = timers w
  end
  ∧ (objects w ≤ objects (addNotification input w).2)%nat
  ∧ (is_Some (addNotification input w).1 → objects w < objects (addNotification input w).2)%nat.
Proof.
  destruct input as [s|p|producer]; unfold addNotification, createNotification.
  - cbn. repeat split; lia.
  - cbn. destruct (p_data p) as [[s|e]|]; cbn;
      [destruct (p_time p) as [[t|]|]| destruct (p_time p) as [[t|]|] |];
      cbn; repeat split; try lia; try (by intros ->); try (by intros [? [=]]);
      try (by rewrite app_nil_r).
  - cbn. destruct (p_data (producer (objects w))) as [[s|e]|]; cbn;
      [destruct (p_time (producer (objects w))) as [[t|]|]
      | destruct (p_time (producer (objects w))) as [[t|]|] |];
      cbn; repeat split; try lia; try (by intros ->); try (by intros [? [=]]);
      try (by rewrite app_nil_r).
Qed.

(** [a !== b] by cases. *)
Lemma strict_equal_differs a b : strict_equal a b = false ↔ differs a b.
Proof.
  unfold differs, strict_equal.
  destruct a, b; rewrite ?bool_decide_eq_false; split; intros Hd;
    try (by left); try (by right; left); try (by right; right); try done;
    destruct Hd as [Hd|[Hd|Hd]]; congruence.
Qed.

Lemma same_notification_refl n : same_notification n n.
Proof. by repeat split. Qed.

Lemma same_notification_trans a b c :
  same_notification a b → same_notification b c → same_notification a c.
Proof.
  unfold same_notification. intros (?&?&?&?&?&?&?) (?&?&?&?&?&?&?).
  repeat split; congruence.
Qed.

Lemma rewrites_id : rewrites (λ n, n).
Proof. intros n. apply same_notification_refl. Qed.

Lemma rewrites_write_id address k :
  rewrites (λ n, if decide (ref n = address) then with_id k n else n).
Proof. intros n. case_decide; by repeat split. Qed.

Lemma rewrites_write_key place k :
  rewrites (λ n, if decide (element n = place) then with_key k n else n).
Proof. intros n. case_decide; by repeat split. Qed.

Lemma rewrites_compose f g : rewrites f → rewrites g → rewrites (f ∘ g).
Proof. intros Hf Hg n. eapply same_notification_trans; [apply Hf|apply Hg]. Qed.

Lemma timers_fmap_id (l : list (Z * Notification)) :
  prod_map Datatypes.id (λ n : Notification, n) <$> l = l.
Proof. induction l as [|[t n] l IH]; [done|]. cbn. by rewrite IH. Qed.

Lemma timers_fmap_compose (f g : Notification → Notification) (l : list (Z * Notification)) :
  prod_map Datatypes.id f <$> (prod_map Datatypes.id g <$> l)
  = prod_map Datatypes.id (f ∘ g) <$> l.
Proof. induction l as [|[t n] l IH]; [done|]. cbn. by rewrite IH. Qed.

(** What [createNotification] does on an object that is held, in
    terms of the worlds in between. *)
Lemma createNotification_held_unfold address w o :
  held w !! address = Some o →
  createNotification_held address w
  = let w1 :=
      match o_data o with
      | Some (HeldText s) =>
          write_data address (objects w) (new_element {| markup := Span s; key := None |} w).2
      | _ => w
      end in
    let the_id := notificationId w in
    let w2 := (new_object (write_id address the_id (next_id w1).2)).2 in
    match o_data o with
    | None => (None, w2)
    | Some d =>
        let place := match d with HeldText _ => objects w | HeldElement place => place end in
        match elements w1 !! place with
        | None => (None, w2)
        | Some e =>
            (Some {| ref := objects w1;
                     id := the_id;
                     data := {| markup := markup e; key := Some the_id |};
                     element := place;
                     level := default "default" (o_level o);
                     time := default (Some 3000) (o_time o);
                     closable := default true (o_closable o);
                     context := default VNull (o_context o) |},
             write_key place the_id w2)
        end
    end.
Proof.
  intros Ho. unfold createNotification_held. rewrite Ho.
  destruct (o_data o) as [[s|place]|]; reflexivity.
Qed.

Lemma createNotification_held_result address w :
  ∃ f, rewrites f
    ∧ notifications (store (createNotification_held address w).2) = f <$> notifications (store w)
    ∧ timers (createNotification_held address w).2 = prod_map Datatypes.id f <$> timers w
    ∧ (objects w ≤ objects (createNotification_held address w).2)%nat
    ∧ theme (store (createNotification_held address w).2) = theme (store w)
    ∧ (is_Some (held w !! address) →
       notificationId (createNotification_held address w).2 = S (notificationId w))
    ∧ ∀ n, (createNotification_held address w).1 = Some n →
           (objects w ≤ ref n < objects (createNotification_held address w).2)%nat
           ∧ id n = notificationId w ∧ key (data n) = Some (id n)
           ∧ ∃ o, held w !! address = Some o
                  ∧ level n = default "default" (o_level o)
                  ∧ time n = default (Some 3000) (o_time o)
                  ∧ closable n = default true (o_closable o)
                  ∧ context n = default VNull (o_context o).
Proof.
  destruct (held w !! address) as [o|] eqn:Ho.
  2: { unfold createNotification_held. rewrite Ho. exists (λ n, n).
       split; [apply rewrites_id|]. cbn [fst snd].
       split; [by rewrite list_fmap_id|]. split; [by rewrite timers_fmap_id|].
       split; [lia|]. split; [done|]. split; [by intros []|]. by intros n [=]. }
  rewrite (createNotification_held_unfold address w o Ho). cbv zeta.
  set (wi := λ n, if decide (ref n = address) then with_id (notificationId w) n else n).
  assert (Hwi : rewrites wi) by apply rewrites_write_id.
  pose proof timers_fmap_compose as Htimers.
  destruct (o_data o) as [[s|place]|] eqn:Hd.
  - cbn [new_element write_data snd elements objects]. rewrite lookup_insert_eq.
    set (wk := λ n, if decide (element n = objects w) then with_key (notificationId w) n else n).
    exists (wk ∘ wi). split; [apply rewrites_compose; [apply rewrites_write_key|exact Hwi]|].
    cbn. split; [by rewrite list_fmap_compose|]. split; [by rewrite Htimers|].
    split; [lia|]. split; [done|]. split; [done|].
    intros n [= <-]. cbn. split; [lia|]. split; [done|]. split; [done|]. by exists o.
  - destruct (elements w !! place) as [e|] eqn:He.
    + set (wk := λ n, if decide (element n = place) then with_key (notificationId w) n else n).
      exists (wk ∘ wi). split; [apply rewrites_compose; [apply rewrites_write_key|exact Hwi]|].
      cbn. split; [by rewrite list_fmap_compose|]. split; [by rewrite Htimers|].
      split; [lia|]. split; [done|]. split; [done|].
      intros n [= <-]. cbn. split; [lia|]. split; [done|]. split; [done|]. by exists o.
    + exists wi. split; [exact Hwi|]. cbn. split; [done|]. split; [done|].
      split; [lia|]. split; [done|]. split; [done|]. by intros n [=].
  - exists wi. split; [exact Hwi|]. cbn. split; [done|]. split; [done|].
    split; [lia|]. split; [done|]. split; [done|]. by intros n [=].
Qed.

Lemma enqueue_result created w :
  (enqueue created w).1 = created
  ∧ objects (enqueue created w).2 = objects w
  ∧ notificationId (enqueue created w).2 = notificationId w
  ∧ theme (store (enqueue created w).2) = theme (store w)
  ∧ elements (enqueue created w).2 = elements w
  ∧ match created with
    | Some n =>
        notifications (store (enqueue created w).2) = notifications (store w) ++ [n]
        ∧ timers (enqueue created w).2
          = timers w ++ match time n with Some t => [(t, n)] | None => [] end
        ∧ held (enqueue created w).2 = <[ref n := object_of n]> (held w)
    | None => (enqueue created w).2 = w
    end.
Proof.
  destruct created as [n|]; [|done]. unfold enqueue.
  destruct (time n) as [t|]; cbn; repeat split; by rewrite ?app_nil_r.
Qed.

(** [addNotification] on an object that is held: the notifications
    that are queued and the timers stay, up to the writes to [id] and
    [key]; a new object is queued behind them. *)
Lemma addNotification_held_result address w :
  ∃ f, rewrites f
    ∧ (objects w ≤ objects (addNotification_held address w).2)%nat
    ∧ theme (store (addNotification_held address w).2) = theme (store w)
    ∧ (is_Some (held w !! address) →
       notificationId (addNotification_held address w).2 = S (notificationId w))
    ∧ match (addNotification_held address w).1 with
      | Some n =>
          (objects w ≤ ref n < objects (addNotification_held address w).2)%nat
          ∧ id n = notificationId w ∧ key (data n) = Some (id n)
          ∧ notifications (store (addNotification_held address w).2)
            = (f <$> notifications (store w)) ++ [n]
          ∧ timers (addNotification_held address w).2
            = (prod_map Datatypes.id f <$> timers w)
              ++ match time n with Some t => [(t, n)] | None => [] end
      | None =>
          notifications (store (addNotification_held address w).2)
          = f <$> notifications (store w)
          ∧ timers (addNotification_held address w).2 = prod_map Datatypes.id f <$> timers w
      end.
Proof.
  destruct (createNotification_held_result address w)
    as (f & Hf & Hq & Ht & Ho & Hth & Hid & Hn).
  exists f. split; [exact Hf|]. unfold addNotification_held.
  destruct (createNotification_held address w) as [created w1]. cbn [fst snd] in *.
  destruct (enqueue_result created w1) as (-> & -> & -> & -> & _ & Hres).
  split; [exact Ho|]. split; [exact Hth|]. split; [exact Hid|].
  destruct created as [n|].
  - destruct Hres as (-> & -> & _). destruct (Hn n eq_refl) as (? & ? & ? & _).
    by rewrite Hq, Ht.
  - by rewrite Hres.
Qed.

Lemma NoDup_refs_filter (P : Notification → Prop) `{∀ x, Decision (P x)} l :
  NoDup (ref <$> l) → NoDup (ref <$> filter P l).
Proof.
  intros Hnd. eapply sublist_NoDup; [exact Hnd|].
  apply fmap_sublist, sublist_filter.
Qed.

Lemma Forall_filter_keeps {A} (P Q : A → Prop) `{∀ x, Decision (P x)} l :
  Forall Q l → Forall Q (filter P l).
Proof.
  rewrite !Forall_forall. intros Hall x Hx.
  apply list_elem_of_filter in Hx as [_ Hx]. auto.
Qed.

Lemma rewrites_refs f (l : list Notification) : rewrites f → ref <$> (f <$> l) = ref <$> l.
Proof.
  intros Hf. induction l as [|n l IH]; [done|]. cbn. rewrite IH. f_equal. apply Hf.
Qed.

Lemma well_formed_initial : well_formed initialWorld.
Proof.
  split; cbn.
  - constructor.
  - constructor.
  - intros n t Hn. by apply elem_of_nil in Hn.
Qed.

Lemma well_formed_filter (P : Notification → Prop) `{∀ x, Decision (P x)} w w' :
  well_formed w →
  notifications (store w') = filter P (notifications (store w)) →
  timers w' = timers w → objects w' = objects w →
  well_formed w'.
Proof.
  intros [Hnd Hcr Hsch] Hq Ht Ho. split.
  - rewrite Hq. by apply NoDup_refs_filter.
  - rewrite Hq, Ho. by apply Forall_filter_keeps.
  - intros n t. rewrite Hq, Ht. intros Hn. apply list_elem_of_filter in Hn as [_ Hn]. auto.
Qed.

(** A world with the same queue and timers, and no less objects. *)
Lemma well_formed_same w w' :
  well_formed w →
  notifications (store w') = notifications (store w) →
  timers w' = timers w → (objects w ≤ objects w')%nat →
  well_formed w'.
Proof.
  intros [Hnd Hcr Hsch] Hq Ht Ho. split.
  - by rewrite Hq.
  - rewrite Hq. eapply Forall_impl; [exact Hcr|]. cbn. intros m Hm. lia.
  - intros n t. rewrite Hq, Ht. apply Hsch.
Qed.

Lemma well_formed_remove n w : well_formed w → well_formed (removeNotification n w).
Proof.
  intros Hwf. apply (well_formed_filter (λ m, ref m ≠ ref n) w); try done.
  unfold removeNotification, dispatch. cbn [store].
  apply rootReducer_remove, Hwf.
Qed.

Lemma well_formed_remove_context c w :
  well_formed w → well_formed (removeNotificationsWithContext c w).
Proof.
  intros Hwf.
  by apply (well_formed_filter (λ n, strict_equal (context n) c = false) w).
Qed.

Lemma elem_of_delete_other {A} (l : list A) i x y :
  l !! i = Some y → x ≠ y → x ∈ l → x ∈ delete i l.
Proof.
  intros Hi Hne Hx. apply list_elem_of_lookup in Hx as [j Hj].
  apply list_elem_of_lookup.
  destruct (decide (j < i)%nat) as [Hlt|Hge].
  - exists j. by rewrite list_lookup_delete_lt.
  - assert (j ≠ i) by (intros ->; congruence).
    exists (pred j). rewrite list_lookup_delete_ge by lia.
    replace (S (pred j)) with j by lia. exact Hj.
Qed.

Lemma timer_fires_queue i w t n :
  well_formed w → timers w !! i = Some (t, n) →
  notifications (store (timer_fires i w)) = without n (notifications (store w))
  ∧ timers (timer_fires i w) = delete i (timers w)
  ∧ objects (timer_fires i w) = objects w.
Proof.
  intros Hwf Hi. unfold timer_fires. rewrite Hi. unfold dispatch. cbn [store timers objects].
  split; [|done]. apply rootReducer_remove, Hwf.
Qed.

Lemma well_formed_timer i w : well_formed w → well_formed (timer_fires i w).
Proof.
  intros Hwf. destruct (timers w !! i) as [[t n]|] eqn:Hi.
  2: { unfold timer_fires. by rewrite Hi. }
  destruct (timer_fires_queue i w t n Hwf Hi) as (Hq & Ht & Ho).
  destruct Hwf as [Hnd Hcr Hsch]. split.
  - rewrite Hq. by apply NoDup_refs_filter.
  - rewrite Hq, Ho. by apply Forall_filter_keeps.
  - intros m t'. rewrite Hq, Ht. intros Hm Htime.
    apply without_spec in Hm as [Hm Href].
    apply (elem_of_delete_other _ i _ (t, n)); [exact Hi| |by apply Hsch].
    intros [= _ ->]. by apply Href.
Qed.

(** The queue and the timers rewritten, and one new object behind
    them. *)
Lemma well_formed_appended f added w w' :
  well_formed w → rewrites f → (objects w ≤ objects w')%nat →
  notifications (store w') = (f <$> notifications (store w)) ++ from_option (λ n, [n]) [] added →
  timers w'
  = (prod_map Datatypes.id f <$> timers w)
    ++ from_option (λ n, match time n with Some t => [(t, n)] | None => [] end) [] added →
  (∀ n, added = Some n → (objects w ≤ ref n < objects w')%nat) →
  well_formed w'.
Proof.
  intros [Hnd Hcr Hsch] Hf Ho Hq Ht Hnew.
  assert (Hold : ∀ m, m ∈ notifications (store w) → (ref (f m) < objects w)%nat).
  { intros m Hm. rewrite Forall_forall in Hcr. specialize (Hcr m Hm).
    destruct (Hf m) as [-> _]. exact Hcr. }
  split.
  - rewrite Hq, fmap_app, rewrites_refs by exact Hf. apply NoDup_app.
    split; [exact Hnd|]. split.
    + intros x Hx Hx'. destruct added as [n|]; [|by apply elem_of_nil in Hx'].
      cbn in Hx'. apply list_elem_of_singleton in Hx' as ->.
      apply list_elem_of_fmap in Hx as (m & Hm & Hin).
      rewrite Forall_forall in Hcr. specialize (Hcr m Hin).
      specialize (Hnew n eq_refl). lia.
    + destruct added; cbn; [apply NoDup_singleton|constructor].
  - rewrite Hq. apply Forall_app. split.
    + apply Forall_fmap. rewrite Forall_forall. intros m Hm. cbn.
      specialize (Hold m Hm). lia.
    + destruct added as [n|]; cbn; [|constructor].
      apply Forall_singleton. specialize (Hnew n eq_refl). lia.
  - intros m t. rewrite Hq, Ht. intros Hm Htime.
    apply elem_of_app in Hm as [Hm|Hm].
    + apply elem_of_app. left.
      apply list_elem_of_fmap in Hm as (m0 & -> & Hm0).
      destruct (Hf m0) as (_ & Htm & _). rewrite Htm in Htime.
      apply list_elem_of_fmap. exists (t, m0). split; [done|]. by apply Hsch.
    + destruct added as [n|]; [|by apply elem_of_nil in Hm].
      cbn in Hm. apply list_elem_of_singleton in Hm as ->. cbn. rewrite Htime.
      apply elem_of_app. right. by apply list_elem_of_singleton.
Qed.

Lemma well_formed_add input w : well_formed w → well_formed (addNotification input w).2.
Proof.
  intros Hwf.
  destruct (addNotification_result input w) as (Hres & Hle & Hlt).
  apply (well_formed_appended (λ n, n) (addNotification input w).1 w);
    [exact Hwf|apply rewrites_id|exact Hle| | |].
  - rewrite list_fmap_id. destruct (addNotification input w).1 as [n|]; cbn.
    + by destruct Hres as (_ & -> & _).
    + destruct Hres as [-> _]. by rewrite app_nil_r.
  - rewrite timers_fmap_id.
    destruct (addNotification input w).1 as [n|]; cbn.
    + by destruct Hres as (_ & _ & -> & _).
    + destruct Hres as [_ ->]. by rewrite app_nil_r.
  - intros n Hn. rewrite Hn in Hres, Hlt. destruct Hres as [-> _].
    specialize (Hlt (ltac:(by eexists))). lia.
Qed.

Lemma well_formed_add_held address w :
  well_formed w → well_formed (addNotification_held address w).2.
Proof.
  intros Hwf.
  destruct (addNotification_held_result address w) as (f & Hf & Hle & _ & _ & Hres).
  apply (well_formed_appended f (addNotification_held address w).1 w);
    [exact Hwf|exact Hf|exact Hle| | |].
  - destruct (addNotification_held address w).1 as [n|]; cbn.
    + by destruct Hres as (_ & _ & _ & -> & _).
    + destruct Hres as [-> _]. by rewrite app_nil_r.
  - destruct (addNotification_held address w).1 as [n|]; cbn.
    + by destruct Hres as (_ & _ & _ & _ & ->).
    + destruct Hres as [_ ->]. by rewrite app_nil_r.
  - intros n Hn. rewrite Hn in Hres. by destruct Hres as [? _].
Qed.

Lemma queue_step_well_formed w w' : queue_step w w' → well_formed w → well_formed w'.
Proof.
  destruct 1; eauto using well_formed_add, well_formed_add_held, well_formed_remove,
    well_formed_remove_context, well_formed_timer.
  - intros Hwf. apply (well_formed_same w); cbn; try done. lia.
  - intros Hwf. apply (well_formed_same w); cbn; try done. lia.
Qed.

Lemma setState_queue state w :
  set_notifications state = None →
  notifications (store (setState state w)) = notifications (store w)
  ∧ timers (setState state w) = timers w
  ∧ objects (setState state w) = objects w
  ∧ notificationId (setState state w) = notificationId w
  ∧ held (setState state w) = held w
  ∧ elements (setState state w) = elements w.
Proof. intros Hs. cbn. by rewrite Hs. Qed.

Lemma step_well_formed w w' : step w w' → well_formed w → well_formed w'.
Proof.
  destruct 1 as [w w' Hstep|state w Hs]; [by apply queue_step_well_formed|].
  intros Hwf. destruct (setState_queue state w Hs) as (Hq & Ht & Ho & _).
  apply (well_formed_same w); try done.
Qed.

Lemma steps_well_formed w w' : rtc step w w' → well_formed w → well_formed w'.
Proof. induction 1; eauto using step_well_formed. Qed.

Lemma reachable_well_formed w : reachable w → well_formed w.
Proof. intros Hw. eapply steps_well_formed; [exact Hw|apply well_formed_initial]. Qed.

(** A step without an object passed a second time is a step. *)
Lemma literal_step_step w w' : literal_step w w' → step w w'.
Proof.
  destruct 1; try (apply step_queue; by constructor). by apply step_setState.
Qed.

Lemma literal_steps_steps w w' : rtc literal_step w w' → rtc step w w'.
Proof. induction 1; [done|]. eapply rtc_l; [by apply literal_step_step|done]. Qed.

(** In every step the queued notifications are those of before, up to
    writes to [id] and [key], without some of them, and new objects
    behind them. *)
Lemma step_keeps_objects w w' m :
  step w w' → well_formed w → m ∈ notifications (store w') → (ref m < objects w)%nat →
  ∃ m0, m0 ∈ notifications (store w) ∧ same_notification m m0.
Proof.
  intros Hstep Hwf Hm Hlt.
  destruct Hstep as [w w' Hstep|state w Hs].
  2: { destruct (setState_queue state w Hs) as (Hq & _). rewrite Hq in Hm.
       exists m. split; [done|apply same_notification_refl]. }
  destruct Hstep as [input w|address w Hheld|o w Ho|e w|n w|c w|i w].
  - destruct (addNotification_result input w) as (Hres & _ & _).
    destruct (addNotification input w).1 as [n|].
    + destruct Hres as (Href & Hq & _). rewrite Hq in Hm.
      apply elem_of_app in Hm as [Hm|Hm].
      * exists m. split; [done|apply same_notification_refl].
      * apply list_elem_of_singleton in Hm as ->. lia.
    + destruct Hres as [Hs _]. rewrite Hs in Hm.
      exists m. split; [done|apply same_notification_refl].
  - destruct (addNotification_held_result address w) as (f & Hf & _ & _ & _ & Hres).
    assert (Hin : m ∈ f <$> notifications (store w)).
    { destruct (addNotification_held address w).1 as [n|].
      - destruct Hres as (Href & _ & _ & Hq & _). rewrite Hq in Hm.
        apply elem_of_app in Hm as [Hm|Hm]; [done|].
        apply list_elem_of_singleton in Hm as ->. lia.
      - destruct Hres as [Hq _]. by rewrite Hq in Hm. }
    apply list_elem_of_fmap in Hin as (m0 & -> & Hm0). exists m0. split; [done|apply Hf].
  - exists m. split; [done|apply same_notification_refl].
  - exists m. split; [done|apply same_notification_refl].
  - unfold removeNotification, dispatch in Hm. cbn [store] in Hm.
    rewrite rootReducer_remove in Hm by apply Hwf.
    apply without_spec in Hm as [Hm _].
    exists m. split; [done|apply same_notification_refl].
  - cbn in Hm. apply list_elem_of_filter in Hm as [_ Hm].
    exists m. split; [done|apply same_notification_refl].
  - destruct (timers w !! i) as [[t n]|] eqn:Hi.
    2: { unfold timer_fires in Hm. rewrite Hi in Hm.
         exists m. split; [done|apply same_notification_refl]. }
    destruct (timer_fires_queue i w t n Hwf Hi) as (Hq & _). rewrite Hq in Hm.
    apply without_spec in Hm as [Hm _].
    exists m. split; [done|apply same_notification_refl].
Qed.

Lemma step_objects w w' : step w w' → (objects w ≤ objects w')%nat.
Proof.
  destruct 1 as [w w' Hstep|state w Hs]; [|done].
  destruct Hstep as [input w|address w Hheld|o w Ho|e w|n w|c w|i w]; cbn; try lia.
  - by destruct (addNotification_result input w) as (_ & Hle & _).
  - by destruct (addNotification_held_result address w) as (f & _ & Hle & _).
  - unfold timer_fires. by destruct (timers w !! i) as [[t n]|].
Qed.

(** An object that was queued keeps what it had, but for [id] and
    [key], as long as it is queued. *)
Lemma steps_keep_objects w w' m :
  rtc step w w' → well_formed w → m ∈ notifications (store w') → (ref m < objects w)%nat →
  ∃ m0, m0 ∈ notifications (store w) ∧ same_notification m m0.
Proof.
  intros Hsteps Hwf. revert w' Hsteps m. apply (rtc_ind_r (λ w', ∀ m, _ → _ → _)).
  - intros m Hm _. exists m. split; [done|apply same_notification_refl].
  - intros y z Hwy Hstep IH m Hm Hlt.
    assert (Hle : (objects w ≤ objects y)%nat).
    { clear -Hwy. induction Hwy as [|a b c Hab _ IH]; [done|].
      apply step_objects in Hab. lia. }
    destruct (step_keeps_objects y z m Hstep (steps_well_formed _ _ Hwy Hwf) Hm ltac:(lia))
      as (m1 & Hm1 & Hsame1).
    destruct (IH m1 Hm1) as (m0 & Hm0 & Hsame0).
    { destruct Hsame1 as [<- _]. exact Hlt. }
    exists m0. split; [done|]. by eapply same_notification_trans.
Qed.

(** C8. [addNotification] with a string makes a notification of level
    "default", time 3000, closable, and queues it behind the others.
    Whatever is called afterwards, [setState] and calls that pass an
    object a second time included, while the object is queued it has the
    level, time, element and context it was made with, and its timer of
    3000 is pending; when a timer of that object elapses the object, and
    nothing else, leaves the queue.
    [removeNotificationsWithContext(c)] keeps exactly the notifications
    whose context differs from [c], with [NaN] differing from
    everything, in their order, and touches nothing else. *)
Theorem notification_defaults_and_removal :
  (∀ w s, reachable w →
     ∃ n w1,
       addNotification (FromString s) w = (Some n, w1)
       ∧ level n = "default" ∧ time n = Some 3000 ∧ closable n = true
       ∧ markup (data n) = Span s
       ∧ notifications (store w1) = notifications (store w) ++ [n]
       ∧ absent n (notifications (store w))
       ∧ (∀ w2 m, rtc step w1 w2 → m ∈ notifications (store w2) → ref m = ref n →
            same_notification m n ∧ (3000, m) ∈ timers w2)
       ∧ (∀ w2 i t m, rtc step w1 w2 → timers w2 !! i = Some (t, m) → ref m = ref n →
            notifications (store (timer_fires i w2)) = without n (notifications (store w2))
            ∧ absent n (notifications (store (timer_fires i w2)))))
  ∧ (∀ c w,
       notifications (store (removeNotificationsWithContext c w))
       = filter (λ n, differs (context n) c) (notifications (store w))
       ∧ (∀ n, n ∈ notifications (store (removeNotificationsWithContext c w))
               ↔ n ∈ notifications (store w) ∧ (context n ≠ c ∨ context n = VNaN ∨ c = VNaN))
       ∧ timers (removeNotificationsWithContext c w) = timers w
       ∧ notificationId (removeNotificationsWithContext c w) = notificationId w
       ∧ issueNumber (store (removeNotificationsWithContext c w)) = issueNumber (store w)
       ∧ isAdmin (store (removeNotificationsWithContext c w)) = isAdmin (store w)
       ∧ activeId (store (removeNotificationsWithContext c w)) = activeId (store w)
       ∧ theme (store (removeNotificationsWithContext c w)) = theme (store w)).
Proof.
  split.
  - intros w s Hw. pose proof (reachable_well_formed w Hw) as Hwf.
    eexists _, _. split; [apply addNotification_string|].
    pose proof (well_formed_add (FromString s) w Hwf) as Hwf1.
    rewrite addNotification_string in Hwf1. cbn [snd] in Hwf1.
    do 5 (split; [reflexivity|]).
    assert (Habs : absent (from_string s w) (notifications (store w))).
    { intros m Hm. cbn. destruct Hwf as [_ Hcr _].
      rewrite Forall_forall in Hcr. specialize (Hcr m Hm). lia. }
    split; [exact Habs|]. split.
    + intros w2 m Hsteps Hm Href.
      pose proof (steps_well_formed _ _ Hsteps Hwf1) as Hwf2.
      destruct (steps_keep_objects _ _ m Hsteps Hwf1 Hm) as (m0 & Hm0 & Hsame).
      { rewrite Href. cbn. lia. }
      cbn [store notifications] in Hm0. apply elem_of_app in Hm0 as [Hm0|Hm0].
      { exfalso. apply (Habs m0 Hm0). destruct Hsame as [<- _]. exact Href. }
      apply list_elem_of_singleton in Hm0 as ->. split; [exact Hsame|].
      apply Hwf2; [exact Hm|]. by destruct Hsame as (_ & -> & _).
    + intros w2 i t m Hsteps Hi Href.
      pose proof (steps_well_formed _ _ Hsteps Hwf1) as Hwf2.
      destruct (timer_fires_queue i w2 _ _ Hwf2 Hi) as (-> & _ & _).
      unfold without, absent. rewrite Href. split; [reflexivity|].
      intros m' Hm'. by apply list_elem_of_filter in Hm' as [? _].
  - intros c w. split; [|split; [|done]].
    + cbn. apply list_filter_iff. intros n. apply strict_equal_differs.
    + intros n. cbn. rewrite list_elem_of_filter, strict_equal_differs. unfold differs. tauto.
Qed.

Lemma notification_defaults_and_removal_witness :
  ∃ n w1,
    addNotification (FromString "saved") (addNotification (FromString "first") initialWorld).2
    = (Some n, w1)
    ∧ level n = "default" ∧ time n = Some 3000 ∧ closable n = true
    ∧ (3000, n) ∈ timers w1
    ∧ notifications (store (timer_fires 1 w1)) = [from_string "first" initialWorld].
Proof.
  destruct (proj1 notification_defaults_and_removal
              (addNotification (FromString "first") initialWorld).2 "saved"
              (rtc_once _ _ (step_queue _ _ (step_add _ _))))
    as (n & w1 & Hadd & Hlevel & Htime & Hclosable & _ & Hq & _ & Hpending & Hfire).
  exists n, w1. repeat split; try assumption.
  - apply (Hpending w1 n (rtc_refl _ _)); [|done].
    rewrite Hq. apply elem_of_app. right. by apply list_elem_of_singleton.
  - rewrite addNotification_string in Hadd. injection Hadd as <- <-.
    destruct (Hfire _ 1%nat 3000 (from_string "saved" (addNotification (FromString "first") initialWorld).2)
                (rtc_refl _ _) eq_refl eq_refl) as [-> _].
    reflexivity.
Defined.

(** *** The objects that are held *)

Lemma heap_formed_initial : heap_formed initialWorld.
Proof. split; cbn; intros ? ?; by rewrite lookup_empty. Qed.

Lemma heap_formed_same w w' :
  heap_formed w → held w' = held w → elements w' = elements w →
  (objects w ≤ objects w')%nat → heap_formed w'.
Proof.
  intros [Hh He Hd] Hheld Helements Ho. split.
  - intros address o. rewrite Hheld. intros Hin. specialize (Hh _ _ Hin). lia.
  - intros place e. rewrite Helements. intros Hin. specialize (He _ _ Hin). lia.
  - intros address o. rewrite Hheld. intros Hin. specialize (Hd _ _ Hin).
    unfold holdable in *. by rewrite Helements.
Qed.

Lemma heap_new_element e w : heap_formed w → heap_formed (new_element e w).2.
Proof.
  intros [Hh He Hd]. split; cbn.
  - intros address o Hin. specialize (Hh _ _ Hin). lia.
  - intros place e' Hin. apply lookup_insert_Some in Hin as [[<- _]|[_ Hin]]; [lia|].
    specialize (He _ _ Hin). lia.
  - intros address o Hin. specialize (Hd _ _ Hin). unfold holdable in *. cbn.
    destruct (o_data o) as [[s|place]|]; try done.
    apply lookup_insert_is_Some. destruct (decide (objects w = place)); [by left|by right].
Qed.

Lemma heap_write_id address k w : heap_formed w → heap_formed (write_id address k w).
Proof.
  intros [Hh He Hd]. split; cbn.
  - intros a o Hin.
    apply lookup_alter_Some in Hin as [[_ (o' & Ho' & _)]|[_ Hin]]; by eapply Hh.
  - exact He.
  - intros a o Hin. unfold holdable. cbn.
    apply lookup_alter_Some in Hin as [[_ (o' & Ho' & ->)]|[_ Hin]];
      [apply (Hd _ _ Ho')|apply (Hd _ _ Hin)].
Qed.

Lemma heap_write_key place k w : heap_formed w → heap_formed (write_key place k w).
Proof.
  intros [Hh He Hd]. split; cbn.
  - exact Hh.
  - intros p e Hin. assert (is_Some (elements w !! p)) as [e' He'].
    { apply (lookup_alter_is_Some (λ e, {| markup := markup e; key := Some k |}) _ place).
      by eexists. }
    by apply (He p e').
  - intros a o Hin. specialize (Hd _ _ Hin). unfold holdable in *. cbn.
    destruct (o_data o) as [[s|p]|]; try done. by apply lookup_alter_is_Some.
Qed.

Lemma heap_write_data address place w :
  heap_formed w → is_Some (elements w !! place) → heap_formed (write_data address place w).
Proof.
  intros [Hh He Hd] Hplace. split; cbn.
  - intros a o Hin.
    apply lookup_alter_Some in Hin as [[_ (o' & Ho' & _)]|[_ Hin]]; by eapply Hh.
  - exact He.
  - intros a o Hin. unfold holdable. cbn.
    apply lookup_alter_Some in Hin as [[_ (o' & Ho' & ->)]|[_ Hin]];
      [exact Hplace|apply (Hd _ _ Hin)].
Qed.

Lemma heap_enqueue created w :
  heap_formed w →
  (∀ n, created = Some n → (ref n < objects w)%nat ∧ is_Some (elements w !! element n)) →
  heap_formed (enqueue created w).2.
Proof.
  intros Hheap Hn. destruct created as [n|]; [|done].
  destruct (Hn n eq_refl) as [Href Hplace].
  destruct (enqueue_result (Some n) w) as (_ & Ho & _ & _ & He & _ & _ & Hh).
  destruct Hheap as [Hhc Hec Hd]. split.
  - intros a o. rewrite Hh, Ho. intros Hin.
    apply lookup_insert_Some in Hin as [[<- _]|[_ Hin]]; [done|by apply (Hhc a o)].
  - intros p e. rewrite He, Ho. apply Hec.
  - intros a o. rewrite Hh. unfold holdable. rewrite He. intros Hin.
    apply lookup_insert_Some in Hin as [[_ <-]|[_ Hin]]; [exact Hplace|apply (Hd _ _ Hin)].
Qed.

(** The worlds that [addNotification] goes through. *)
Lemma addNotification_unfold input w :
  let w1 :=
    (new_object (next_id match input with Deferred _ => (new_object w).2 | _ => w end).2).2 in
  match (addNotification input w).1 with
  | Some n =>
      (addNotification input w).2
      = (enqueue (Some n) (new_element (data n) w1).2).2
      ∧ element n = objects w1 ∧ (ref n < objects w1)%nat
  | None => (addNotification input w).2 = w1
  end.
Proof.
  destruct input as [s|p|producer]; unfold addNotification, createNotification.
  - cbn. split; [done|lia].
  - cbn. destruct (p_data p) as [[s|e]|]; cbn; try done; split; try done; lia.
  - cbn. destruct (p_data (producer (objects w))) as [[s|e]|]; cbn; try done;
      split; try done; lia.
Qed.

Lemma heap_add input w : heap_formed w → heap_formed (addNotification input w).2.
Proof.
  intros Hheap. pose proof (addNotification_unfold input w) as Hun. cbv zeta in Hun.
  set (w1 := (new_object (next_id match input with
                                   | Deferred _ => (new_object w).2
                                   | _ => w
                                   end).2).2) in *.
  assert (Hw1 : heap_formed w1).
  { apply (heap_formed_same w); [exact Hheap| | |]; destruct input; cbn; try done; lia. }
  destruct (addNotification input w).1 as [n|]; [|by rewrite Hun].
  destruct Hun as (-> & Hel & Href). apply heap_enqueue; [by apply heap_new_element|].
  intros ? [= <-]. split.
  - change (ref n < S (objects w1))%nat. lia.
  - change (is_Some (<[objects w1 := data n]> (elements w1) !! element n)).
    rewrite Hel, lookup_insert_eq. by eexists.
Qed.

Lemma heap_add_held address w :
  heap_formed w → heap_formed (addNotification_held address w).2.
Proof.
  intros Hheap. unfold addNotification_held.
  destruct (held w !! address) as [o|] eqn:Ho.
  2: { unfold createNotification_held. by rewrite Ho. }
  rewrite (createNotification_held_unfold address w o Ho). cbv zeta.
  pose proof (held_data w Hheap address o Ho) as Hdata. unfold holdable in Hdata.
  set (w1 := match o_data o with
             | Some (HeldText s) =>
                 write_data address (objects w)
                   (new_element {| markup := Span s; key := None |} w).2
             | _ => w
             end).
  assert (Hw1 : heap_formed w1).
  { subst w1. destruct (o_data o) as [[s|place]|]; try done.
    apply heap_write_data; [by apply heap_new_element|].
    cbn. rewrite lookup_insert_eq. by eexists. }
  set (w2 := (new_object (write_id address (notificationId w) (next_id w1).2)).2).
  assert (Hw2 : heap_formed w2).
  { apply (heap_formed_same (write_id address (notificationId w) (next_id w1).2));
      [|done|done|cbn; lia].
    apply heap_write_id. by apply (heap_formed_same w1). }
  destruct (o_data o) as [d|]; [|exact Hw2].
  destruct (elements w1 !! _) as [e|] eqn:He; [|exact Hw2].
  apply heap_enqueue; [by apply heap_write_key|].
  intros n [= <-]. cbn. split; [lia|].
  apply lookup_alter_is_Some. by eexists.
Qed.

Lemma queue_step_heap_formed w w' : queue_step w w' → heap_formed w → heap_formed w'.
Proof.
  destruct 1 as [input w|address w Hheld|o w Ho|e w|n w|c w|i w]; intros Hheap.
  - by apply heap_add.
  - by apply heap_add_held.
  - destruct Hheap as [Hh He Hd]. split; cbn.
    + intros a o' Hin. apply lookup_insert_Some in Hin as [[<- _]|[_ Hin]]; [lia|].
      specialize (Hh _ _ Hin). lia.
    + intros p e Hin. specialize (He _ _ Hin). lia.
    + intros a o' Hin. apply lookup_insert_Some in Hin as [[_ <-]|[_ Hin]];
        [exact Ho|apply (Hd _ _ Hin)].
  - by apply heap_new_element.
  - by apply (heap_formed_same w).
  - by apply (heap_formed_same w).
  - apply (heap_formed_same w); try done; unfold timer_fires;
      by destruct (timers w !! i) as [[t n]|].
Qed.

Lemma reachable_heap_formed w : reachable w → heap_formed w.
Proof.
  revert w. apply rtc_ind_r; [apply heap_formed_initial|].
  intros y z _ Hstep IH. destruct Hstep as [y z Hstep|state y Hstate].
  - by eapply queue_step_heap_formed.
  - by apply (heap_formed_same y).
Qed.

(** In the worlds that the interface leads to, [addNotification] on
    an object that is held throws exactly when the object has no
    [data]. *)
Lemma addNotification_held_needs_data address o w :
  reachable w → held w !! address = Some o →
  (addNotification_held address w).1 = None ↔ o_data o = None.
Proof.
  intros Hw Ho. pose proof (reachable_heap_formed w Hw) as Hheap.
  pose proof (held_data w Hheap address o Ho) as Hdata. unfold holdable in Hdata.
  unfold addNotification_held.
  rewrite (createNotification_held_unfold address w o Ho). cbv zeta.
  destruct (o_data o) as [[s|place]|]; cbn.
  - rewrite lookup_insert_eq. cbn. split; discriminate.
  - destruct Hdata as [e ->]. cbn. split; discriminate.
  - done.
Qed.

(** *** The queue shows the objects as they are *)

Lemma shown_created w n : heap_formed w → shown w n → (ref n < objects w ∧ element n < objects w)%nat.
Proof.
  intros [Hh He _] [Hheld Helement]. split; [by eapply Hh|by eapply He].
Qed.

Lemma up_to_date_same w w' :
  up_to_date w → held w' = held w → elements w' = elements w →
  (∀ n, n ∈ notifications (store w') → n ∈ notifications (store w)) →
  (∀ tn, tn ∈ timers w' → tn ∈ timers w) →
  up_to_date w'.
Proof.
  intros [Hq Ht] Hheld Helements Hsubq Hsubt. split.
  - intros n Hn. unfold shown. rewrite Hheld, Helements. by apply Hq, Hsubq.
  - intros t n Hn. unfold shown. rewrite Hheld, Helements. by apply (Ht t), Hsubt.
Qed.

Lemma up_to_date_new_element e w :
  heap_formed w → up_to_date w → up_to_date (new_element e w).2.
Proof.
  intros Hheap [Hq Ht].
  assert (Hkeep : ∀ n, shown w n → shown (new_element e w).2 n).
  { intros n Hn. destruct (shown_created w n Hheap Hn) as [_ Hlt].
    destruct Hn as [Hheld Helement]. split; [exact Hheld|].
    cbn. rewrite lookup_insert_ne by lia. exact Helement. }
  split; [intros n Hn|intros t n Hn]; apply Hkeep; [by apply Hq|by apply (Ht t)].
Qed.

Lemma up_to_date_write_data address place w s o :
  held w !! address = Some o → o_data o = Some (HeldText s) →
  up_to_date w → up_to_date (write_data address place w).
Proof.
  intros Ho Hd [Hq Ht].
  assert (Hkeep : ∀ n, shown w n → shown (write_data address place w) n).
  { intros n [Hheld Helement]. split; [|exact Helement]. cbn.
    rewrite lookup_alter_ne; [exact Hheld|].
    intros Heq. rewrite Heq, Hheld in Ho. injection Ho as <-. discriminate Hd. }
  split; [intros n Hn|intros t n Hn]; apply Hkeep; [by apply Hq|by apply (Ht t)].
Qed.

Lemma up_to_date_write_id address k w : up_to_date w → up_to_date (write_id address k w).
Proof.
  intros [Hq Ht].
  assert (Hkeep : ∀ n, shown w n →
            shown (write_id address k w) (if decide (ref n = address) then with_id k n else n)).
  { intros n [Hheld Helement]. case_decide as Href; split; cbn.
    - subst address. rewrite lookup_alter_eq, Hheld. reflexivity.
    - exact Helement.
    - rewrite lookup_alter_ne by done. exact Hheld.
    - exact Helement. }
  split.
  - intros n Hn. cbn in Hn. apply list_elem_of_fmap in Hn as (m & -> & Hm). by apply Hkeep, Hq.
  - intros t n Hn. cbn in Hn. apply list_elem_of_fmap in Hn as ([t' m] & [= -> ->] & Hm).
    by apply Hkeep, (Ht t').
Qed.

Lemma up_to_date_write_key place k w : up_to_date w → up_to_date (write_key place k w).
Proof.
  intros [Hq Ht].
  assert (Hkeep : ∀ n, shown w n →
            shown (write_key place k w) (if decide (element n = place) then with_key k n else n)).
  { intros n [Hheld Helement]. case_decide as Hplace; split; cbn.
    - exact Hheld.
    - subst place. rewrite lookup_alter_eq, Helement. reflexivity.
    - exact Hheld.
    - rewrite lookup_alter_ne by done. exact Helement. }
  split.
  - intros n Hn. cbn in Hn. apply list_elem_of_fmap in Hn as (m & -> & Hm). by apply Hkeep, Hq.
  - intros t n Hn. cbn in Hn. apply list_elem_of_fmap in Hn as ([t' m] & [= -> ->] & Hm).
    by apply Hkeep, (Ht t').
Qed.

Lemma up_to_date_enqueue created w :
  heap_formed w → up_to_date w →
  (∀ n, created = Some n →
        held w !! ref n = None ∧ elements w !! element n = Some (data n)) →
  up_to_date (enqueue created w).2.
Proof.
  intros Hheap [Hq Ht] Hnew. destruct created as [n|]; [|done].
  destruct (Hnew n eq_refl) as [Hfresh Hplace].
  destruct (enqueue_result (Some n) w) as (_ & _ & _ & _ & He & Hqueue & Htimers & Hh).
  assert (Hkeep : ∀ m, shown w m → shown (enqueue (Some n) w).2 m).
  { intros m [Hheld Helement]. unfold shown. rewrite Hh, He. split; [|exact Helement].
    rewrite lookup_insert_ne; [exact Hheld|]. intros Heq. rewrite Heq in Hfresh. congruence. }
  assert (Hn : shown (enqueue (Some n) w).2 n).
  { unfold shown. rewrite Hh, He, lookup_insert_eq. by split. }
  split.
  - intros m. rewrite Hqueue. intros Hm. apply elem_of_app in Hm as [Hm|Hm].
    + by apply Hkeep, Hq.
    + by apply list_elem_of_singleton in Hm as ->.
  - intros t m. rewrite Htimers. intros Hm. apply elem_of_app in Hm as [Hm|Hm].
    + by apply Hkeep, (Ht t).
    + destruct (time n); [|by apply elem_of_nil in Hm].
      apply list_elem_of_singleton in Hm. by injection Hm as _ ->.
Qed.

Lemma up_to_date_add input w :
  heap_formed w → up_to_date w → up_to_date (addNotification input w).2.
Proof.
  intros Hheap Hup. pose proof (addNotification_unfold input w) as Hun. cbv zeta in Hun.
  destruct (addNotification_result input w) as (Hres & _ & _).
  set (w1 := (new_object (next_id match input with
                                   | Deferred _ => (new_object w).2
                                   | _ => w
                                   end).2).2) in *.
  assert (Hheap1 : heap_formed w1).
  { apply (heap_formed_same w); [exact Hheap| | |]; destruct input; cbn; try done; lia. }
  assert (Hup1 : up_to_date w1).
  { apply (up_to_date_same w); [exact Hup| | | |]; by destruct input. }
  assert (Hheld1 : held w1 = held w) by (by destruct input).
  destruct (addNotification input w).1 as [n|]; [|by rewrite Hun].
  destruct Hun as (-> & Hel & Href). destruct Hres as (Href0 & _).
  apply up_to_date_enqueue;
    [by apply heap_new_element|by apply up_to_date_new_element|].
  intros ? [= <-]. split.
  - change (held w1 !! ref n = None). rewrite Hheld1.
    destruct (held w !! ref n) as [o|] eqn:Ho; [|done].
    apply (held_created w Hheap) in Ho. lia.
  - change (<[objects w1 := data n]> (elements w1) !! element n = Some (data n)).
    by rewrite Hel, lookup_insert_eq.
Qed.

Lemma up_to_date_add_held address w :
  heap_formed w → up_to_date w → up_to_date (addNotification_held address w).2.
Proof.
  intros Hheap Hup. unfold addNotification_held.
  destruct (held w !! address) as [o|] eqn:Ho.
  2: { unfold createNotification_held. by rewrite Ho. }
  rewrite (createNotification_held_unfold address w o Ho). cbv zeta.
  set (w1 := match o_data o with
             | Some (HeldText s) =>
                 write_data address (objects w)
                   (new_element {| markup := Span s; key := None |} w).2
             | _ => w
             end).
  assert (Hw1 : heap_formed w1 ∧ up_to_date w1).
  { subst w1. destruct (o_data o) as [[s|place]|] eqn:Hd; try done. split.
    - apply heap_write_data; [by apply heap_new_element|].
      cbn. rewrite lookup_insert_eq. by eexists.
    - apply (up_to_date_write_data address _ _ s o); [exact Ho|exact Hd|].
      by apply up_to_date_new_element. }
  destruct Hw1 as [Hheap1 Hup1].
  set (w2 := (new_object (write_id address (notificationId w) (next_id w1).2)).2).
  assert (Hheap2 : heap_formed w2).
  { apply (heap_formed_same (write_id address (notificationId w) (next_id w1).2));
      [|done|done|cbn; lia].
    apply heap_write_id. by apply (heap_formed_same w1). }
  assert (Hup2 : up_to_date w2).
  { apply (up_to_date_same (write_id address (notificationId w) (next_id w1).2));
      [|done|done|done|done].
    apply up_to_date_write_id. by apply (up_to_date_same w1). }
  destruct (o_data o) as [d|]; [|exact Hup2].
  destruct (elements w1 !! _) as [e|] eqn:He; [|exact Hup2].
  apply up_to_date_enqueue; [by apply heap_write_key|by apply up_to_date_write_key|].
  intros n [= <-]. cbn [ref element data]. split.
  - change (alter (λ o, {| o_data := o_data o; o_level := o_level o; o_time := o_time o;
                           o_closable := o_closable o; o_context := o_context o;
                           o_id := Some (notificationId w) |}) address (held w1)
              !! objects w1 = None).
    apply eq_None_not_Some. rewrite lookup_alter_is_Some. intros [o' Ho'].
    apply (held_created w1 Hheap1) in Ho'. lia.
  - cbn. rewrite lookup_alter_eq, He. reflexivity.
Qed.

Lemma remove_subset state n m :
  m ∈ notifications (rootReducer state (removeNotificationAction n)) →
  m ∈ notifications state.
Proof.
  cbn. destruct (indexOf (notifications state) n) as [index|]; [|done]. cbn.
  rewrite <- delete_take_drop. intros Hm.
  apply list_elem_of_lookup in Hm as [j Hj].
  rewrite list_lookup_delete in Hj. case_decide; by eapply list_elem_of_lookup_2.
Qed.

Lemma step_up_to_date w w' :
  step w w' → heap_formed w → up_to_date w → up_to_date w'.
Proof.
  intros Hstep Hheap Hup. destruct Hstep as [w w' Hstep|state w Hstate].
  2: { destruct (setState_queue state w Hstate) as (Hq & Ht & _ & _ & Hh & He).
       apply (up_to_date_same w); [done|done|done| |].
       - intros n. by rewrite Hq.
       - intros tn. by rewrite Ht. }
  destruct Hstep as [input w|address w Hheld|o w Ho|e w|n w|c w|i w].
  - by apply up_to_date_add.
  - by apply up_to_date_add_held.
  - destruct Hup as [Hq Ht].
    assert (Hkeep : ∀ n, shown w n → shown (hold o w).2 n).
    { intros n Hn. destruct (shown_created w n Hheap Hn) as [Hlt _].
      destruct Hn as [Hheld Helement]. split; [|exact Helement].
      cbn. rewrite lookup_insert_ne by lia. exact Hheld. }
    split; [intros n Hn|intros t n Hn]; apply Hkeep; [by apply Hq|by apply (Ht t)].
  - by apply up_to_date_new_element.
  - apply (up_to_date_same w); try done. intros m. apply remove_subset.
  - apply (up_to_date_same w); try done. intros m Hm. cbn in Hm.
    by apply list_elem_of_filter in Hm as [_ Hm].
  - unfold timer_fires. destruct (timers w !! i) as [[t n]|] eqn:Hi; [|done].
    apply (up_to_date_same w); try done.
    + intros m. apply remove_subset.
    + intros tn Htn. cbn in Htn. apply list_elem_of_lookup in Htn as [j Hj].
      rewrite list_lookup_delete in Hj. case_decide; by eapply list_elem_of_lookup_2.
Qed.

(** In every world that the interface leads to, what the queue and the
    timers show of a notification is what the object and its element
    hold: the writes of [createNotification] to an object that is
    queued, and to an element that is shared, show in the queue. *)
Lemma reachable_up_to_date w : reachable w → up_to_date w.
Proof.
  intros Hw. enough (heap_formed w ∧ up_to_date w) by tauto.
  revert w Hw. apply rtc_ind_r.
  - split; [apply heap_formed_initial|]. split; cbn.
    + intros n Hn. by apply elem_of_nil in Hn.
    + intros t n Hn. by apply elem_of_nil in Hn.
  - intros y z Hy Hstep [IHheap IHup]. split; [|by eapply step_up_to_date].
    apply reachable_heap_formed. by eapply rtc_r.
Qed.

Lemma readded_reachable : reachable readded_example.
Proof.
  eapply rtc_l; [apply step_queue, (step_add (FromString "x"))|].
  apply rtc_once, step_queue. apply (step_add_held 0%nat). by eexists.
Qed.

Lemma twice_reachable : reachable twice_example.
Proof.
  eapply rtc_l; [apply step_queue, (step_hold example_object initialWorld); exact I|].
  eapply rtc_l; [apply step_queue, (step_add_held 0%nat); by eexists|].
  apply rtc_once, step_queue. apply (step_add_held 0%nat). by eexists.
Qed.



(** Removing a notification object that is not queued changes nothing,
    and so does its timer when it elapses after an explicit removal. *)
Lemma absent_removal_is_no_op :
  (∀ state n, absent n (notifications state) →
     rootReducer state (removeNotificationAction n) = state)
  ∧ (∀ w n, absent n (notifications (store w)) → removeNotification n w = w)
  ∧ (∀ w i t n, timers w !! i = Some (t, n) → absent n (notifications (store w)) →
       store (timer_fires i w) = store w)
  ∧ (∀ w i t n, reachable w → timers w !! i = Some (t, n) →
       absent n (notifications (store (removeNotification n w)))
       ∧ store (timer_fires i (removeNotification n w)) = store (removeNotification n w)).
Proof.
  split; [exact rootReducer_remove_absent|]. split; [|split].
  - intros w n Habs. unfold removeNotification, dispatch.
    rewrite rootReducer_remove_absent by exact Habs. by destruct w.
  - intros w i t n Hi Habs. unfold timer_fires. rewrite Hi. unfold dispatch. cbn [store].
    by apply rootReducer_remove_absent.
  - intros w i t n Hw Hi. pose proof (reachable_well_formed w Hw) as [Hnd _ _].
    assert (Habs : absent n (notifications (store (removeNotification n w)))).
    { unfold removeNotification, dispatch. cbn [store].
      rewrite rootReducer_remove by exact Hnd. apply absent_without. }
    split; [exact Habs|].
    unfold timer_fires. change (timers (removeNotification n w)) with (timers w).
    rewrite Hi. unfold dispatch at 1. cbn [store].
    by apply rootReducer_remove_absent.
Qed.

End StoreFacts.

(** ** Cache hits and stale removals *)

Module CacheAndQueueFacts.
Import Api.

(** C9, as the code has it. After a fetch has stored an article, the
    next [getArticle] with the id of that article, and the next
    [getArticleBySlug] with the slug it is stored under, resolve to the
    very object that was stored, send nothing and leave the cache as it
    is; for an article fetched by slug, the lookup by id does so when
    the slug of the article is the slug it was fetched by. Removing a
    notification object that is not queued leaves the state as it is, so
    a timer that elapses after an explicit removal changes nothing. *)
Theorem cache_hit_and_absent_removal `{Platform} :
  (∀ the_id reply init st,
     articlesIdSlugMap st !! the_id = None →
     fetched reply = Some init →
     let r := getArticle the_id reply st in
     let article := processArticle (allocated st) init in
     outcome r = Resolved (Found article)
     ∧ (∀ reply', hit (getArticle (id init) reply' (after r)) article (after r))
     ∧ (∀ reply', hit (getArticleBySlug (slug init) reply' (after r)) article (after r)))
  ∧ (∀ the_slug reply init st,
       articlesCache st !! the_slug = None →
       fetched reply = Some init →
       let r := getArticleBySlug the_slug reply st in
       let article := processArticle (allocated st) init in
       outcome r = Resolved (Found article)
       ∧ (∀ reply', hit (getArticleBySlug the_slug reply' (after r)) article (after r))
       ∧ (slug init = the_slug →
          ∀ reply', hit (getArticle (id init) reply' (after r)) article (after r)))
  ∧ (∀ state n, Store.absent n (Store.notifications state) →
       Store.rootReducer state (Store.removeNotificationAction n) = state)
  ∧ (∀ w n, Store.absent n (Store.notifications (Store.store w)) →
       Store.removeNotification n w = w)
  ∧ (∀ w i t n, Store.timers w !! i = Some (t, n) →
       Store.absent n (Store.notifications (Store.store w)) →
       Store.store (Store.timer_fires i w) = Store.store w)
  ∧ (∀ w i t n, Store.reachable w → Store.timers w !! i = Some (t, n) →
       Store.absent n (Store.notifications (Store.store (Store.removeNotification n w)))
       ∧ Store.store (Store.timer_fires i (Store.removeNotification n w))
         = Store.store (Store.removeNotification n w)).
Proof.
  split; [exact ApiFacts.fetched_by_id_then_hit|].
  split; [exact ApiFacts.fetched_by_slug_then_hit|].
  exact StoreFacts.absent_removal_is_no_op.
Qed.

Lemma cache_hit_and_absent_removal_witness :
  hit (getArticle (H:=example_platform) "1" NetworkFailure cached_example)
    (processArticle (H:=example_platform) 0 (example_article "1" "s" "T"))
    cached_example.
Proof.
  refine (proj1 (proj2 (proj1 (cache_hit_and_absent_removal (H:=example_platform))
            "1" (found (example_article "1" "s" "T")) (example_article "1" "s" "T")
            empty_cache _ _)) NetworkFailure); reflexivity.
Defined.

(** C9, as stated, fails: once [getArticleBySlug("a")] has stored an
    article of id ["1"] and slug ["b"], [getArticle("1")] does not
    resolve to that object. *)
Lemma hit_by_id_misses_other_slug :
  ¬ (∀ the_slug reply init st reply',
       articlesCache st !! the_slug = None →
       fetched reply = Some init →
       hit (getArticle (H:=example_platform) (id init) reply'
              (after (getArticleBySlug (H:=example_platform) the_slug reply st)))
         (processArticle (H:=example_platform) (allocated st) init)
         (after (getArticleBySlug (H:=example_platform) the_slug reply st))).
Proof.
  intros Hclaim.
  specialize (Hclaim "a" (found (example_article "1" "b" "T")) (example_article "1" "b" "T")
                empty_cache NetworkFailure eq_refl eq_refl).
  unfold hit in Hclaim.
  change (after (getArticleBySlug (H:=example_platform) "a"
                   (found (example_article "1" "b" "T")) empty_cache))
    with mismatched_example in Hclaim.
  rewrite ApiFacts.hit_by_id_after_other_slug in Hclaim. discriminate.
Qed.

End CacheAndQueueFacts.

(** * Further properties

    ** The normal form of a snippet *)

Module SnippetShape.
Import JsString.

Lemma collapsed_lookup s i c :
  collapsed s = true → s !! i = Some c → is_whitespace c = true →
  c = space ∧ ∀ c', s !! S i = Some c' → is_whitespace c' = false.
Proof.
  revert i. induction s as [|x r IH]; intros i Hs Hi Hc; [by destruct i|].
  cbn [collapsed] in Hs. apply andb_true_iff in Hs as [Hx Hr].
  destruct i as [|i]; [|by apply (IH i)].
  injection Hi as ->. rewrite SnippetFacts.tab_or_space_whitespace, Hc in Hx.
  apply andb_true_iff in Hx as [Hsp Hsolid]. apply N.eqb_eq in Hsp.
  split; [exact Hsp|]. intros c' Hc'. destruct r as [|y r]; [discriminate|].
  injection Hc' as ->. cbn in Hsolid.
  rewrite SnippetFacts.tab_or_space_whitespace in Hsolid.
  by apply negb_true_iff in Hsolid.
Qed.

(** X1. In a normalised snippet every whitespace code unit is a space, and
    no whitespace follows it: tabs, line breaks and runs of blanks are
    gone. *)
Theorem normalized_whitespace_is_single_spaces s i c :
  normalize_snippet s !! i = Some c → is_whitespace c = true →
  c = space ∧ ∀ c', normalize_snippet s !! S i = Some c' → is_whitespace c' = false.
Proof.
  apply collapsed_lookup.
  apply SnippetFacts.collapsed_replace_long_words, SnippetFacts.collapsed_replace_whitespace.
Qed.

Lemma normalized_whitespace_is_single_spaces_witness :
  (32%N : code_unit) = space
  ∧ ∀ c', normalize_snippet (of_string "a 	 b") !! 2%nat = Some c' → is_whitespace c' = false.
Proof.
  apply (normalized_whitespace_is_single_spaces (of_string "a 	 b") 1 32%N); reflexivity.
Defined.

Lemma replace_whitespace_shorter s : (length (replace_whitespace s) ≤ length s)%nat.
Proof.
  funelim (replace_whitespace s); simpl; [lia| |lia].
  assert (Hskip : ∀ u, (length (skip_whitespace u) ≤ length u)%nat).
  { induction u as [|x u IH]; simpl; [lia|]. destruct (tab_or_space x); simpl; lia. }
  specialize (Hskip r). lia.
Qed.

Lemma replace_long_words_growth s :
  (length s ≤ length (replace_long_words s))%nat
  ∧ (16 * length (replace_long_words s) ≤ 21 * length s)%nat.
Proof.
  funelim (replace_long_words s).
  - simpl. lia.
  - rewrite !length_app. change (length shy) with 5%nat.
    pose proof (f_equal length (take_drop 16 (c :: r))) as Hsplit.
    rewrite length_app in Hsplit.
    assert (Hlen : length (take 16 (c :: r)) = 16%nat).
    { unfold long_word_at in Heq. apply andb_true_iff in Heq as [Hlen _].
      apply Nat.leb_le in Hlen. pose proof (length_take_le (c :: r) 16).
      rewrite length_take in *. lia. }
    change (drop 16 (c :: r)) with (drop 15 r) in *.
    remember (c :: r) as s. lia.
  - simpl. lia.
Qed.

(** X2. Normalising a snippet never makes it longer than 21/16 of its
    length, and it makes it shorter only by collapsing whitespace:
    inserting the markers never shortens. *)
Theorem normalized_length_bounds s :
  (16 * length (normalize_snippet s) ≤ 21 * length s)%nat
  ∧ (length (replace_whitespace s) ≤ length (normalize_snippet s))%nat
  ∧ (length (replace_whitespace s) ≤ length s)%nat.
Proof.
  unfold normalize_snippet.
  pose proof (replace_whitespace_shorter s).
  pose proof (replace_long_words_growth (replace_whitespace s)). lia.
Qed.

(** X3. A snippet is left as it is exactly when its whitespace is already
    single spaces and it has no sixteen consecutive code units that are
    neither whitespace nor a backslash. *)
Theorem normalized_fixed_points s :
  normalize_snippet s = s ↔ collapsed s = true ∧ has_long_word s = false.
Proof.
  split.
  - intros Hfix.
    assert (Hc : collapsed s = true).
    { rewrite <- Hfix.
      apply SnippetFacts.collapsed_replace_long_words,
        SnippetFacts.collapsed_replace_whitespace. }
    split; [exact Hc|].
    destruct (has_long_word s) eqn:Hs; [exfalso|reflexivity].
    unfold normalize_snippet in Hfix.
    rewrite (SnippetFacts.replace_whitespace_collapsed s Hc) in Hfix.
    pose proof (SnippetFacts.replace_long_words_longer s Hs) as Hlt.
    rewrite Hfix in Hlt. lia.
  - intros [Hc Hs]. unfold normalize_snippet.
    rewrite (SnippetFacts.replace_whitespace_collapsed s Hc).
    by apply SnippetFacts.replace_long_words_none.
Qed.

Lemma normalized_fixed_points_witness :
  normalize_snippet (of_string "a b") = of_string "a b".
Proof.
  apply (proj2 (normalized_fixed_points (of_string "a b"))).
  split; reflexivity.
Defined.

End SnippetShape.

(** ** More on the article cache *)

Module CacheFacts.
Import Api Terms.

Section Lookups.
Context `{Platform}.

(** X4. A lookup that does not produce an article leaves the cache alone:
    a rejected request, a body without [id], and a hit, never write
    either mapping. *)
Theorem lookup_without_article_keeps_cache :
  (∀ the_id reply st,
     (∀ a, outcome (getArticle the_id reply st) ≠ Resolved (Found a)) →
     after (getArticle the_id reply st) = st)
  ∧ (∀ the_slug reply st,
       (∀ a, outcome (getArticleBySlug the_slug reply st) ≠ Resolved (Found a)) →
       after (getArticleBySlug the_slug reply st) = st)
  ∧ (∀ the_id reply st,
       is_Some (articlesIdSlugMap st !! the_id) →
       after (getArticle the_id reply st) = st)
  ∧ (∀ the_slug reply st,
       is_Some (articlesCache st !! the_slug) →
       after (getArticleBySlug the_slug reply st) = st).
Proof.
  split; [|split; [|split]].
  - intros i reply st Hno.
    destruct (articlesIdSlugMap st !! i) as [s|] eqn:Hi.
    { by rewrite (ApiFacts.getArticle_hit i s reply st Hi). }
    destruct (fetched reply) as [init|] eqn:Hf.
    + exfalso. apply (Hno (processArticle (allocated st) init)).
      by rewrite (ApiFacts.getArticle_fetch i reply init st Hi Hf).
    + by destruct (ApiFacts.getArticle_no_article i reply st Hi Hf).
  - intros s reply st Hno.
    destruct (articlesCache st !! s) as [a|] eqn:Hs.
    { by rewrite (ApiFacts.getArticleBySlug_hit s a reply st Hs). }
    destruct (fetched reply) as [init|] eqn:Hf.
    + exfalso. apply (Hno (processArticle (allocated st) init)).
      by rewrite (ApiFacts.getArticleBySlug_fetch s reply init st Hs Hf).
    + by destruct (ApiFacts.getArticleBySlug_no_article s reply st Hs Hf).
  - intros i reply st [s Hi]. by rewrite (ApiFacts.getArticle_hit i s reply st Hi).
  - intros s reply st [a Hs]. by rewrite (ApiFacts.getArticleBySlug_hit s a reply st Hs).
Qed.

End Lookups.

Lemma lookup_without_article_keeps_cache_witness :
  after (getArticle (H:=example_platform) "7"
           (Responded {| status := 500; body := Unparsable |}) cached_example)
  = cached_example.
Proof.
  apply (proj1 (lookup_without_article_keeps_cache (H:=example_platform))).
  intros a. discriminate.
Defined.

Section Invalidation.
Context `{Platform}.

Lemma updateArticle_after updated reply st :
  after (updateArticle updated reply st)
  = after (evict (E:=Failure unit)
             (λ article, bool_decide (Some (id (props article)) = patch_id updated)) st).
Proof.
  unfold updateArticle.
  match goal with |- context [request ?req reply] => set (the_request := req) end.
  match goal with |- context [evict ?m] => set (matches := m) end.
  by destruct (ApiFacts.evict_then_request matches the_request reply st) as (_ & -> & _).
Qed.

Lemma addArticle_after link the_title the_snippet the_content the_position reply st :
  after (addArticle link the_title the_snippet the_content the_position reply st)
  = after (evict (E:=Failure unit)
             (λ article, bool_decide (title (props article) = the_title)) st).
Proof.
  unfold addArticle. cbv zeta.
  match goal with |- context [request ?req reply] => set (the_request := req) end.
  match goal with |- context [evict ?m] => set (matches := m) end.
  by destruct (ApiFacts.evict_then_request matches the_request reply st) as (_ & -> & _).
Qed.


(** X6. The mutations never add to the cache, and the evicting ones keep
    what does not match: [updateArticle] keeps every entry of another
    id and [addArticle] every entry of another title, in both
    mappings. *)
Theorem eviction_keeps_the_rest :
  (∀ updated reply st,
     let st' := after (updateArticle updated reply st) in
     articlesCache st' ⊆ articlesCache st
     ∧ articlesIdSlugMap st' ⊆ articlesIdSlugMap st
     ∧ allocated st' = allocated st
     ∧ (∀ k a, articlesCache st !! k = Some a → Some (id (props a)) ≠ patch_id updated →
               articlesCache st' !! k = Some a)
     ∧ (∀ i, Some i ≠ patch_id updated →
             articlesIdSlugMap st' !! i = articlesIdSlugMap st !! i))
  ∧ (∀ link the_title the_snippet the_content the_position reply st,
       let st' := after (addArticle link the_title the_snippet the_content
                           the_position reply st) in
       articlesCache st' ⊆ articlesCache st
       ∧ articlesIdSlugMap st' ⊆ articlesIdSlugMap st
       ∧ allocated st' = allocated st
       ∧ (∀ k a, articlesCache st !! k = Some a → title (props a) ≠ the_title →
                 articlesCache st' !! k = Some a)
       ∧ (∀ i, (∀ k a, articlesCache st !! k = Some a → id (props a) = i →
                       title (props a) ≠ the_title) →
               articlesIdSlugMap st' !! i = articlesIdSlugMap st !! i)).
Proof.
  assert (Hgeneral : ∀ (matches : Article → bool) st,
    let st' := after (evict (E:=Failure unit) matches st) in
    articlesCache st' ⊆ articlesCache st
    ∧ articlesIdSlugMap st' ⊆ articlesIdSlugMap st
    ∧ allocated st' = allocated st
    ∧ (∀ k a, articlesCache st !! k = Some a → matches a = false →
              articlesCache st' !! k = Some a)
    ∧ (∀ i, (∀ k a, articlesCache st !! k = Some a → id (props a) = i → matches a = false) →
            articlesIdSlugMap st' !! i = articlesIdSlugMap st !! i)).
  { intros matches st. cbv zeta.
    destruct (ApiFacts.evict_run (E:=Failure unit) matches st)
      as (_ & Halloc & Hcache & _ & Hkeep & _).
    cbv zeta in Halloc, Hcache, Hkeep.
    split; [|split; [|split; [exact Halloc|split; [|exact Hkeep]]]].
    - apply map_subseteq_spec. intros k a. rewrite Hcache.
      destruct (articlesCache st !! k) as [b|]; cbn; [|discriminate].
      destruct (matches b); [discriminate|done].
    - apply map_subseteq_spec. intros i s. apply ApiFacts.evict_keeps_or_drops.
    - intros k a Hk Hm. rewrite Hcache, Hk. cbn. by rewrite Hm. }
  split.
  - intros updated reply st. cbv zeta. rewrite updateArticle_after.
    destruct (Hgeneral (λ article, bool_decide (Some (id (props article)) = patch_id updated)) st)
      as (Hc & Hi & Ha & Hkeep & Hids).
    split; [exact Hc|]. split; [exact Hi|]. split; [exact Ha|]. split.
    + intros k a Hk Hne. apply (Hkeep k a Hk). by apply bool_decide_eq_false_2.
    + intros i Hne. apply Hids. intros k a _ <-. by apply bool_decide_eq_false_2.
  - intros link the_title the_snippet the_content the_position reply st. cbv zeta.
    rewrite addArticle_after.
    destruct (Hgeneral (λ article, bool_decide (title (props article) = the_title)) st)
      as (Hc & Hi & Ha & Hkeep & Hids).
    split; [exact Hc|]. split; [exact Hi|]. split; [exact Ha|]. split.
    + intros k a Hk Hne. apply (Hkeep k a Hk). by apply bool_decide_eq_false_2.
    + intros i Hno. apply Hids. intros k a Hk Hid. apply bool_decide_eq_false_2. eauto.
Qed.

End Invalidation.


Lemma eviction_keeps_the_rest_witness :
  articlesCache (after (updateArticle (patch_of "2") done_reply cached_example)) !! "s"
  = Some (processArticle (H:=example_platform) 0 (example_article "1" "s" "T")).
Proof.
  refine (proj1 (proj2 (proj2 (proj2 (proj1 eviction_keeps_the_rest
            (patch_of "2") done_reply cached_example)))) "s" _ _ _).
  - reflexivity.
  - discriminate.
Defined.

Section Instances.
Context `{Platform}.

Lemma inserted_instances key init st :
  instances_distinct st →
  instances_distinct (inserted key (processArticle (allocated st) init) st).
Proof.
  intros [Hold Hinj]. split.
  - intros k a. unfold inserted. cbn. intros Hk.
    apply lookup_insert_Some in Hk as [[_ <-]|[_ Hk]]; cbn; [lia|].
    specialize (Hold k a Hk). lia.
  - intros k1 k2 a1 a2. unfold inserted. cbn. intros H1 H2 Heq.
    apply lookup_insert_Some in H1 as [[<- <-]|[Hne1 H1]];
      apply lookup_insert_Some in H2 as [[<- <-]|[Hne2 H2]]; try done.
    + cbn in Heq. specialize (Hold k2 a2 H2). lia.
    + cbn in Heq. specialize (Hold k1 a1 H1). lia.
    + by apply (Hinj k1 k2 a1 a2).
Qed.

Lemma fewer_instances st st' :
  instances_distinct st →
  articlesCache st' ⊆ articlesCache st → (allocated st ≤ allocated st')%nat →
  instances_distinct st'.
Proof.
  intros [Hold Hinj] Hc Ha. split.
  - intros k a Hk. eapply Nat.lt_le_trans; [|exact Ha].
    apply (Hold k). by eapply lookup_weaken.
  - intros k1 k2 a1 a2 H1 H2. apply Hinj; by eapply lookup_weaken.
Qed.

Lemma perform_instances c st :
  instances_distinct st → instances_distinct (perform c st).1.
Proof.
  intros Hd.
  destruct c as [i reply|s reply|l t sn ct pos reply|u reply| | | | | | | | ];
    try (match goal with
         | |- instances_distinct (perform ?c st).1 =>
             let Hp := fresh in
             pose proof (ApiFacts.perform_other c st) as Hp; lazy beta iota in Hp;
             lazymatch type of Hp with
             | _ ∧ _ => destruct Hp as [Hp _]; by rewrite Hp
             end
         end);
    cbn [perform ran fst].
  - destruct (articlesIdSlugMap st !! i) as [s|] eqn:Hi.
    { by rewrite (ApiFacts.getArticle_hit i s reply st Hi). }
    destruct (fetched reply) as [init|] eqn:Hf.
    + rewrite (ApiFacts.getArticle_fetch i reply init st Hi Hf).
      by apply inserted_instances.
    + by destruct (ApiFacts.getArticle_no_article i reply st Hi Hf) as [-> _].
  - destruct (articlesCache st !! s) as [a|] eqn:Hs.
    { by rewrite (ApiFacts.getArticleBySlug_hit s a reply st Hs). }
    destruct (fetched reply) as [init|] eqn:Hf.
    + rewrite (ApiFacts.getArticleBySlug_fetch s reply init st Hs Hf).
      by apply inserted_instances.
    + by destruct (ApiFacts.getArticleBySlug_no_article s reply st Hs Hf) as [-> _].
  - rewrite addArticle_after.
    destruct (ApiFacts.evict_run (E:=Failure unit)
                (λ article, bool_decide (title (props article) = t)) st)
      as (_ & Halloc & Hcache & _).
    cbv zeta in Halloc, Hcache. apply (fewer_instances st); [exact Hd| |by rewrite Halloc].
    apply map_subseteq_spec. intros k a. rewrite Hcache.
    destruct (articlesCache st !! k) as [b|]; cbn; [|discriminate].
    case_bool_decide; [discriminate|done].
  - rewrite updateArticle_after.
    destruct (ApiFacts.evict_run (E:=Failure unit)
                (λ article, bool_decide (Some (id (props article)) = patch_id u)) st)
      as (_ & Halloc & Hcache & _).
    cbv zeta in Halloc, Hcache. apply (fewer_instances st); [exact Hd| |by rewrite Halloc].
    apply map_subseteq_spec. intros k a. rewrite Hcache.
    destruct (articlesCache st !! k) as [b|]; cbn; [|discriminate].
    case_bool_decide; [discriminate|done].
Qed.

Lemma reachable_instances st : reachable_by_any_calls st → instances_distinct st.
Proof.
  induction 1 as [|c st _ IH|lookup reply st _ IH|n st _ IH].
  - split; intros *; cbn; by rewrite lookup_empty.
  - by apply perform_instances.
  - destruct (fetched reply) as [init|] eqn:Hf.
    + rewrite (ApiFacts.resume_fetch lookup reply init st Hf).
      by apply inserted_instances.
    + by destruct (ApiFacts.resume_no_article lookup reply st Hf) as [-> _].
  - apply (fewer_instances st); [exact IH|done|cbn; lia].
Qed.

(** X7. Whatever the server answers, and however the lookups overlap,
    the objects that the cache holds are pairwise different, one for
    each slug: every fetch stores an object of its own, created by
    [processArticle] when its reply arrives, and nothing else writes
    the cache. The calls covered are the two lookups, the ten mutations
    and the calls that list articles. *)
Theorem cached_objects_are_distinct st :
  reachable_by_any_calls st →
  NoDup (instance <$> (map_to_list (articlesCache st)).*2)
  ∧ (∀ k1 k2 a1 a2,
       articlesCache st !! k1 = Some a1 → articlesCache st !! k2 = Some a2 →
       instance a1 = instance a2 → k1 = k2 ∧ a1 = a2)
  ∧ (∀ k a, articlesCache st !! k = Some a → (instance a < allocated st)%nat).
Proof.
  intros Hst. destruct (reachable_instances st Hst) as [Hold Hinj].
  split; [|split; [|exact Hold]].
  - rewrite <- list_fmap_compose.
    apply NoDup_fmap_2_strong; [|apply NoDup_map_to_list].
    intros [k1 a1] [k2 a2] H1 H2 Heq. cbn in Heq.
    apply elem_of_map_to_list in H1, H2.
    pose proof (Hinj k1 k2 a1 a2 H1 H2 Heq) as ->. congruence.
  - intros k1 k2 a1 a2 H1 H2 Heq.
    pose proof (Hinj k1 k2 a1 a2 H1 H2 Heq) as ->.
    split; [reflexivity|congruence].
Qed.

End Instances.

(** The two overlapping lookups of [two_cached_example] leave two
    different objects under the two slugs. *)
Lemma cached_objects_are_distinct_witness :
  NoDup (instance <$> (map_to_list (articlesCache two_cached_example)).*2)
  ∧ instance <$> articlesCache two_cached_example !! "s" = Some 1%nat
  ∧ instance <$> articlesCache two_cached_example !! "t" = Some 0%nat.
Proof.
  split; [|split; reflexivity].
  apply (cached_objects_are_distinct (H:=example_platform) two_cached_example).
  apply (any_arrived (H:=example_platform) (AwaitedById "1")).
  apply (any_arrived (H:=example_platform) (AwaitedById "2")).
  apply any_empty.
Defined.

(** X8. [makeArticleFirst] moves no other article: every move it sends
    is for the given id. On a table of integer positions below 2^53 in
    magnitude, with a difference in that range as well, it never moves
    the article backwards: the offset is an integer of 0 or more. When
    the position table cannot be had, it rejects after that one request
    and sends no move. *)
Theorem makeArticleFirst_moves_forward the_id positions_reply move_reply st :
  (∀ moved offset,
     Send (move_call moved offset)
       ∈ events (makeArticleFirst the_id positions_reply move_reply st) →
     moved = the_id)
  ∧ (∀ resp positions pos m moved offset,
       positions_reply = Responded resp → status resp < 400 →
       body resp = Json positions →
       positions !! the_id = Some (Number.of_Z pos) → Number.safe pos →
       greatest positions m → Number.safe (Z.max 0 m - pos) →
       Send (move_call moved offset)
         ∈ events (makeArticleFirst the_id positions_reply move_reply st) →
       ∃ z, 0 ≤ z ∧ offset = Number.of_Z z)
  ∧ (failed positions_reply = true →
     events (makeArticleFirst the_id positions_reply move_reply st) = [Send positions_call]
     ∧ ∃ e, outcome (makeArticleFirst the_id positions_reply move_reply st) = Rejected e)
  ∧ (∀ resp, positions_reply = Responded resp → status resp < 400 →
             parsed (body resp) = None →
     events (makeArticleFirst the_id positions_reply move_reply st) = [Send positions_call]
     ∧ outcome (makeArticleFirst the_id positions_reply move_reply st) = Rejected TypeError).
Proof.
  split; [|split; [|split]].
  - intros moved offset.
    unfold makeArticleFirst, request, mbind, M_bind, bind, emit, throw, ret. cbn.
    assert (Hnone : Send (move_call moved offset) ∈ [Send positions_call] → moved = the_id).
    { intros Hin. apply list_elem_of_singleton in Hin. discriminate Hin. }
    destruct positions_reply as [[code b]|]; cbn; [|exact Hnone].
    case_decide; cbn; [exact Hnone|].
    destruct b as [| |positions]; cbn; try exact Hnone.
    destruct (positions !! the_id) as [pos|] eqn:Hpos; cbn; [|exact Hnone].
    assert (Hin : ∀ tail, Send (move_call moved offset)
                    ∈ Send positions_call
                      :: Send (move_call the_id (Number.minus (max_position positions) pos))
                      :: tail →
                    tail = [] → moved = the_id).
    { intros tail Hin ->. apply elem_of_cons in Hin as [[=]|Hin].
      apply list_elem_of_singleton in Hin. by injection Hin as -> _. }
    destruct move_reply as [[code' b']|]; cbn; [|by eauto].
    case_decide; cbn; [by eauto|]. destruct b'; cbn; by eauto.
  - intros resp positions pos m moved offset -> Hlt Hbody Hpos Hsafe Hm Hdiff Hin.
    destruct (ApiFacts.makeArticleFirst_present the_id resp positions _ move_reply st
                Hlt Hbody Hpos) as [Hev _].
    rewrite Hev, (ApiFacts.integer_offset positions pos m Hsafe Hm Hdiff) in Hin.
    apply elem_of_cons in Hin as [[=]|Hin].
    apply list_elem_of_singleton in Hin. injection Hin as _ ->.
    exists (Z.max 0 m - pos). split; [|reflexivity].
    destruct Hm as (Hsm & _ & Hall).
    destruct (Hall the_id _ Hpos) as (z & Heq & Hz & Hle).
    rewrite (NumberFacts.of_Z_inj pos z Hsafe Hz Heq). lia.
  - unfold makeArticleFirst, failed, request, mbind, M_bind, bind, emit, throw, ret. cbn.
    destruct positions_reply as [[code b]|]; cbn; [|by eauto].
    intros Hf. apply bool_decide_eq_true_1 in Hf. case_decide; [|done]. cbn. eauto.
  - unfold makeArticleFirst, failed, request, mbind, M_bind, bind, emit, throw, ret. cbn.
    intros resp -> Hlt Hb. cbn. case_decide; [lia|].
    destruct (body resp); cbn in *; try done.
Qed.

(** On the table [{ a: 2, b: 5 }] the article ["a"] is moved by 3. *)
Lemma makeArticleFirst_moves_forward_witness :
  Send (move_call "a" (Number.of_Z 3))
    ∈ events (makeArticleFirst "a"
                (Responded {| status := 200; body := Json example_positions |})
                NetworkFailure empty_cache)
  ∧ ∃ z, 0 ≤ z ∧ Number.of_Z 3 = Number.of_Z z.
Proof.
  assert (Hsent : Send (move_call "a" (Number.of_Z 3))
                    ∈ events (makeArticleFirst "a"
                                (Responded {| status := 200; body := Json example_positions |})
                                NetworkFailure empty_cache)).
  { apply elem_of_cons. right. apply elem_of_cons. by left. }
  split; [exact Hsent|].
  apply (proj1 (proj2 (makeArticleFirst_moves_forward "a"
           (Responded {| status := 200; body := Json example_positions |})
           NetworkFailure empty_cache))
           {| status := 200; body := Json example_positions |} example_positions
           2 5 "a" (Number.of_Z 3)).
  - reflexivity.
  - simpl. lia.
  - reflexivity.
  - reflexivity.
  - unfold Number.safe. lia.
  - apply ApiFacts.greatest_example.
  - unfold Number.safe. simpl. lia.
  - exact Hsent.
Defined.

End CacheFacts.

(** ** More on the notification queue *)

Module QueueFacts.
Import Store Terms.

Lemma addNotification_fields input w :
  (has_data input w ↔ is_Some (addNotification input w).1)
  ∧ notificationId (addNotification input w).2 = S (notificationId w)
  ∧ ∀ n, (addNotification input w).1 = Some n →
         id n = notificationId w ∧ key (data n) = Some (id n).
Proof.
  destruct input as [s|p|producer]; unfold addNotification, createNotification, has_data.
  - cbn. split; [|split; [done|by intros n [= <-]]].
    split; [intros _; by exists (from_string s w)|done].
  - cbn. destruct (p_data p) as [[s|e]|] eqn:Hd; cbn.
    + destruct (p_time p) as [[t|]|]; cbn;
        (split; [|split; [done|by intros n [= <-]]]);
        (split; [intros _; eexists; reflexivity|intros _; eexists; reflexivity]).
    + destruct (p_time p) as [[t|]|]; cbn;
        (split; [|split; [done|by intros n [= <-]]]);
        (split; [intros _; eexists; reflexivity|intros _; eexists; reflexivity]).
    + split; [|split; [done|by intros n [=]]].
      split; intros [x Hx]; discriminate Hx.
  - cbn. destruct (p_data (producer (objects w))) as [[s|e]|] eqn:Hd; cbn.
    + destruct (p_time (producer (objects w))) as [[t|]|]; cbn;
        (split; [|split; [done|by intros n [= <-]]]);
        (split; [intros _; eexists; reflexivity|intros _; eexists; reflexivity]).
    + destruct (p_time (producer (objects w))) as [[t|]|]; cbn;
        (split; [|split; [done|by intros n [= <-]]]);
        (split; [intros _; eexists; reflexivity|intros _; eexists; reflexivity]).
    + split; [|split; [done|by intros n [=]]].
      split; intros [x Hx]; discriminate Hx.
Qed.

(** X9. [addNotification] throws exactly when its argument has no [data];
    then nothing is queued and no timer is set, though an id is used
    up. *)
Theorem addNotification_needs_data input w :
  ((addNotification input w).1 = None ↔ ¬ has_data input w)
  ∧ ((addNotification input w).1 = None →
     store (addNotification input w).2 = store w
     ∧ timers (addNotification input w).2 = timers w
     ∧ notificationId (addNotification input w).2 = S (notificationId w)).
Proof.
  destruct (addNotification_fields input w) as (Hdata & Hid & _).
  destruct (StoreFacts.addNotification_result input w) as (Hres & _ & _).
  split.
  - rewrite Hdata. destruct (addNotification input w).1 as [n|].
    + split; [discriminate|]. intros Hno. exfalso. apply Hno. by exists n.
    + split; [|done]. intros _ [x Hx]. discriminate Hx.
  - intros Hnone. rewrite Hnone in Hres. destruct Hres as [-> ->]. by rewrite Hid.
Qed.

Lemma addNotification_needs_data_witness :
  store (addNotification
           (FromPartial {| p_data := None; p_level := Some "error"; p_time := None;
                           p_closable := None; p_context := None |}) initialWorld).2
  = store initialWorld.
Proof.
  refine (proj1 (proj2 (addNotification_needs_data _ initialWorld) _)).
  reflexivity.
Defined.


Lemma StronglySorted_filter_ids (P : Notification → Prop) `{∀ x, Decision (P x)} l :
  StronglySorted lt (id <$> l) → StronglySorted lt (id <$> filter P l).
Proof.
  induction l as [|x r IH]; [done|]. rewrite fmap_cons, StronglySorted_cons.
  intros [Hx Hr]. rewrite filter_cons. case_decide; [|by apply IH].
  rewrite fmap_cons, StronglySorted_cons. split; [|by apply IH].
  rewrite Forall_forall in *. intros y Hy. apply Hx.
  apply list_elem_of_fmap in Hy as (m & -> & Hm).
  apply list_elem_of_filter in Hm as [_ Hm]. apply list_elem_of_fmap. by exists m.
Qed.

Lemma ids_increasing_filter (P : Notification → Prop) `{∀ x, Decision (P x)} w w' :
  ids_increasing w →
  notifications (store w') = filter P (notifications (store w)) →
  notificationId w' = notificationId w →
  ids_increasing w'.
Proof.
  intros [Hs Hi Hk] Hq Hn. split; rewrite Hq.
  - by apply StronglySorted_filter_ids.
  - rewrite Hn. by apply StoreFacts.Forall_filter_keeps.
  - by apply StoreFacts.Forall_filter_keeps.
Qed.

Lemma literal_step_ids_increasing w w' :
  literal_step w w' → well_formed w → ids_increasing w → ids_increasing w'.
Proof.
  intros Hstep Hwf Hids. destruct Hstep as [input w|o w Ho|e w|n w|c w|i w|state w Hstate].
  - destruct Hids as [Hs Hi Hk].
    destruct (addNotification_fields input w) as (_ & Hnext & Hnew).
    destruct (StoreFacts.addNotification_result input w) as (Hres & _ & _).
    destruct (addNotification input w).1 as [n|] eqn:Hn.
    + destruct Hres as (_ & Hq & _ & _). destruct (Hnew n eq_refl) as [Hid Hkey].
      split; rewrite Hq.
      * rewrite fmap_app. apply StronglySorted_app. split; [|split; [done|]].
        -- intros x y Hx Hy. cbn in Hy. apply list_elem_of_singleton in Hy as ->.
           apply list_elem_of_fmap in Hx as (m & -> & Hm).
           rewrite Forall_forall in Hi. specialize (Hi m Hm). lia.
        -- cbn. repeat constructor.
      * rewrite Hnext. apply Forall_app. split.
        -- eapply Forall_impl; [exact Hi|]. cbn. intros m Hm. lia.
        -- apply Forall_singleton. lia.
      * apply Forall_app. split; [exact Hk|by apply Forall_singleton].
    + destruct Hres as [Hst _]. split; rewrite Hst; try done.
      rewrite Hnext. eapply Forall_impl; [exact Hi|]. cbn. intros m Hm. lia.
  - by destruct Hids.
  - by destruct Hids.
  - apply (ids_increasing_filter (λ m, ref m ≠ ref n) w); [done| |done].
    unfold removeNotification, dispatch. cbn [store].
    apply StoreFacts.rootReducer_remove, Hwf.
  - by apply (ids_increasing_filter (λ n, strict_equal (context n) c = false) w).
  - destruct (timers w !! i) as [[t n]|] eqn:Hi.
    2: { unfold timer_fires. by rewrite Hi. }
    destruct (StoreFacts.timer_fires_queue i w t n Hwf Hi) as (Hq & _ & _).
    apply (ids_increasing_filter (λ m, ref m ≠ ref n) w); [done|exact Hq|].
    unfold timer_fires. by rewrite Hi.
  - destruct (StoreFacts.setState_queue state w Hstate) as (Hq & _ & _ & Hid & _).
    destruct Hids as [Hs Hi Hk]. split; rewrite Hq; try done.
Qed.

Lemma reachable_ids_increasing w : reachable_with_literals w → ids_increasing w.
Proof.
  intros Hw.
  enough (well_formed w ∧ ids_increasing w) by tauto.
  revert w Hw. apply rtc_ind_r.
  - split; [apply StoreFacts.well_formed_initial|]. split; cbn; constructor.
  - intros y z _ Hstep [IHwf IHids]. split; [|by eapply literal_step_ids_increasing].
    eapply StoreFacts.step_well_formed; [|exact IHwf]. by apply StoreFacts.literal_step_step.
Qed.

(** X10. As long as every notification is added from a string, an object
    literal or a producer, as the calls in the header are, the ids of
    the queued notifications increase along the queue, so they are
    pairwise different, and every notification carries its id as the
    key of its element. An object passed to [addNotification] a second
    time breaks both: the notification returned for ["x"], added
    again, is queued twice, under one id; and one object
    [{ data: "x" }] added twice is queued with one element, under one
    key. *)
Theorem queued_ids_increase :
  (∀ w, reachable_with_literals w →
     (∀ i j m n, notifications (store w) !! i = Some m → notifications (store w) !! j = Some n →
                 (i < j)%nat → (id m < id n)%nat)
     ∧ (∀ n, n ∈ notifications (store w) →
             (id n < notificationId w)%nat ∧ key (data n) = Some (id n)))
  ∧ (reachable readded_example
     ∧ ref <$> notifications (store readded_example) = [0; 2]%nat
     ∧ id <$> notifications (store readded_example) = [1; 1]%nat)
  ∧ (reachable twice_example
     ∧ id <$> notifications (store twice_example) = [0; 1]%nat
     ∧ key ∘ data <$> notifications (store twice_example) = [Some 1; Some 1]%nat).
Proof.
  split; [|split; [split; [apply StoreFacts.readded_reachable|done]
                  |split; [apply StoreFacts.twice_reachable|done]]].
  intros w Hw. destruct (reachable_ids_increasing w Hw) as [Hs Hi Hk].
  split.
  - intros i j m n Hm Hn Hlt.
    apply lookup_lt_Some in Hn as Hj.
    rewrite <- (take_drop_middle _ _ _ Hn) in Hs, Hm.
    rewrite fmap_app, fmap_cons in Hs.
    rewrite lookup_app_l in Hm by (rewrite length_take; lia).
    apply (StronglySorted_app_1_elem_of _ _ _ (id m) (id n)) in Hs; [done| |by left].
    apply list_elem_of_fmap. exists m. split; [done|].
    by eapply list_elem_of_lookup_2.
  - intros n Hn. rewrite Forall_forall in Hi, Hk. split; auto.
Qed.

Lemma queued_ids_increase_witness :
  ∃ m n,
    notifications (store (addNotification (FromString "second")
                            (addNotification (FromString "first") initialWorld).2).2)
    = [m; n]
    ∧ (id m < id n)%nat ∧ (id n < 2)%nat ∧ key (data n) = Some (id n).
Proof.
  eexists _, _. split; [reflexivity|].
  destruct (proj1 queued_ids_increase
              (addNotification (FromString "second")
                 (addNotification (FromString "first") initialWorld).2).2) as [Horder Hissued].
  - eapply rtc_l; [apply (literal_add (FromString "first"))|].
    apply rtc_once, (literal_add (FromString "second")).
  - split; [apply (Horder 0%nat 1%nat); [reflexivity|reflexivity|lia]|].
    apply Hissued. by apply (list_elem_of_lookup_2 _ 1%nat).
Defined.

(** X11. Removing by context is idempotent, two removals commute, and a
    removal with the context [NaN] removes nothing, since [NaN !== NaN]:
    a notification whose context is [NaN] cannot be removed by
    context. *)
Theorem remove_by_context_algebra :
  (∀ c w, removeNotificationsWithContext c (removeNotificationsWithContext c w)
          = removeNotificationsWithContext c w)
  ∧ (∀ c1 c2 w, removeNotificationsWithContext c1 (removeNotificationsWithContext c2 w)
                = removeNotificationsWithContext c2 (removeNotificationsWithContext c1 w))
  ∧ (∀ w, notifications (store (removeNotificationsWithContext VNaN w))
          = notifications (store w))
  ∧ (∀ c w n, n ∈ notifications (store w) → context n = VNaN →
              n ∈ notifications (store (removeNotificationsWithContext c w))).
Proof.
  split; [|split; [|split]].
  - intros c w. unfold removeNotificationsWithContext, setState, dispatch. cbn.
    do 2 f_equal. rewrite list_filter_filter. apply list_filter_iff. tauto.
  - intros c1 c2 w. unfold removeNotificationsWithContext, setState, dispatch. cbn.
    do 2 f_equal. rewrite !list_filter_filter. apply list_filter_iff. tauto.
  - intros w. cbn. apply StoreFacts.filter_all. intros n _. by destruct (context n).
  - intros c w n Hn Hc. cbn. apply list_elem_of_filter. split; [|exact Hn].
    by rewrite Hc.
Qed.

Lemma remove_by_context_algebra_witness :
  {| ref := 0; id := 0; data := {| markup := Span "x"; key := Some 0%nat |}; element := 1;
     level := "default"; time := Some 3000; closable := true; context := VNaN |}
  ∈ notifications
      (store (removeNotificationsWithContext VNaN
                (addNotification
                   (FromPartial {| p_data := Some (Text "x"); p_level := None;
                                   p_time := None; p_closable := None;
                                   p_context := Some VNaN |}) initialWorld).2)).
Proof.
  apply (proj2 (proj2 (proj2 remove_by_context_algebra))); [|reflexivity].
  apply list_elem_of_singleton. reflexivity.
Defined.


Lemma elem_of_delete_inv {A} (l : list A) i x : x ∈ delete i l → x ∈ l.
Proof.
  intros Hx. apply list_elem_of_lookup in Hx as [j Hj].
  rewrite list_lookup_delete in Hj. case_decide; by eapply list_elem_of_lookup_2.
Qed.

Lemma step_timers_created w w' : step w w' → timers_created w → timers_created w'.
Proof.
  unfold timers_created. intros Hstep Ht.
  destruct Hstep as [w w' Hstep|state w Hstate].
  2: { destruct (StoreFacts.setState_queue state w Hstate) as (_ & -> & -> & _). exact Ht. }
  destruct Hstep as [input w|address w Hheld|o w Ho|e w|n w|c w|i w].
  - destruct (StoreFacts.addNotification_result input w) as (Hres & Hle & Hlt).
    destruct (addNotification input w).1 as [n|] eqn:Hn.
    + destruct Hres as (Href & _ & -> & _). specialize (Hlt (ltac:(by eexists))).
      apply Forall_app. split.
      * eapply Forall_impl; [exact Ht|]. cbn. intros tn Htn. lia.
      * destruct (time n); constructor; [cbn; lia|constructor].
    + destruct Hres as [_ ->]. eapply Forall_impl; [exact Ht|]. cbn. intros tn Htn. lia.
  - destruct (StoreFacts.addNotification_held_result address w) as (f & Hf & Hle & _ & _ & Hres).
    assert (Hold : Forall (λ tn : Z * Notification,
                             (ref tn.2 < objects (addNotification_held address w).2)%nat)
                     (prod_map Datatypes.id f <$> timers w)).
    { apply Forall_fmap. eapply Forall_impl; [exact Ht|]. intros [t m] Hm. cbn in *.
      destruct (Hf m) as [-> _]. lia. }
    destruct (addNotification_held address w).1 as [n|].
    + destruct Hres as (Href & _ & _ & _ & ->). apply Forall_app. split; [exact Hold|].
      destruct (time n); constructor; [cbn; lia|constructor].
    + destruct Hres as [_ ->]. exact Hold.
  - eapply Forall_impl; [exact Ht|]. cbn. intros tn Htn. lia.
  - eapply Forall_impl; [exact Ht|]. cbn. intros tn Htn. lia.
  - exact Ht.
  - exact Ht.
  - unfold timer_fires. destruct (timers w !! i) as [[t n]|] eqn:Hi; [|exact Ht].
    cbn. rewrite Forall_forall in *. intros tn Htn. apply Ht.
    by eapply elem_of_delete_inv.
Qed.

Lemma reachable_timers_created w : reachable w → timers_created w.
Proof.
  revert w. apply rtc_ind_r; [constructor|].
  intros y z _ Hstep IH. by eapply step_timers_created.
Qed.

Lemma unattended_step w w' : unattended w w' → well_formed w → well_formed w'.
Proof.
  destruct 1 as [input w|address w|o w|e w|state w Hstate|i w]; intros Hwf.
  - by apply StoreFacts.well_formed_add.
  - by apply StoreFacts.well_formed_add_held.
  - apply (StoreFacts.well_formed_same w); cbn; try done. lia.
  - apply (StoreFacts.well_formed_same w); cbn; try done. lia.
  - eapply StoreFacts.step_well_formed; [by apply step_setState|exact Hwf].
  - by apply StoreFacts.well_formed_timer.
Qed.

(** X12. A notification added with [time: null] gets no timer and is not
    removed by any timer: whatever notifications are added afterwards,
    objects passed a second time included, whatever timers elapse and
    whatever else of the state is set, the object stays queued, with
    the level, element and context it was made with, and no timer is
    pending for it. Only an explicit removal, by reference or by
    context, takes it out. *)
Theorem untimed_notification_stays input w n :
  reachable w →
  (addNotification input w).1 = Some n →
  time n = None →
  timers (addNotification input w).2 = timers w
  ∧ ∀ w2, rtc unattended (addNotification input w).2 w2 →
          (∃ m, m ∈ notifications (store w2) ∧ same_notification m n)
          ∧ (∀ t m, (t, m) ∈ timers w2 → ref m ≠ ref n).
Proof.
  intros Hw Hn Htime.
  destruct (StoreFacts.addNotification_result input w) as (Hres & _ & Hlt).
  rewrite Hn in Hres, Hlt. destruct Hres as (Href & Hq & Ht & _).
  specialize (Hlt (ltac:(by eexists))). rewrite Htime, app_nil_r in Ht.
  split; [exact Ht|].
  pose proof (StoreFacts.well_formed_add input w (StoreFacts.reachable_well_formed w Hw)) as Hwf1.
  pose proof (reachable_timers_created w Hw) as Hcreated.
  intros w2 Hsteps.
  enough (well_formed w2
          ∧ (∃ m, m ∈ notifications (store w2) ∧ same_notification m n)
          ∧ (∀ t m, (t, m) ∈ timers w2 → ref m ≠ ref n)
          ∧ (ref n < objects w2)%nat) by tauto.
  revert w2 Hsteps. apply rtc_ind_r.
  - split; [exact Hwf1|]. split; [|split; [|lia]].
    + exists n. split; [|apply StoreFacts.same_notification_refl].
      rewrite Hq. apply elem_of_app. right. by apply list_elem_of_singleton.
    + intros t m. rewrite Ht. intros Hm.
      unfold timers_created in Hcreated. rewrite Forall_forall in Hcreated.
      specialize (Hcreated (t, m) Hm). cbn in Hcreated. lia.
  - intros y z _ Hstep (IHwf & (m0 & IHm & IHsame) & IHt & IHo).
    split; [by eapply unattended_step|].
    destruct Hstep as [input' y|address y|o y|e y|state y Hstate|i y].
    + destruct (StoreFacts.addNotification_result input' y) as (Hres' & Hle' & Hlt').
      destruct (addNotification input' y).1 as [n'|] eqn:Hn'.
      * destruct Hres' as (Href' & -> & -> & _). split; [|split; [|lia]].
        -- exists m0. split; [|done]. apply elem_of_app. by left.
        -- intros t m Hm. apply elem_of_app in Hm as [Hm|Hm]; [by eapply IHt|].
           destruct (time n'); [|by apply elem_of_nil in Hm].
           apply list_elem_of_singleton in Hm. injection Hm as _ ->. lia.
      * destruct Hres' as [-> ->]. split; [by exists m0|]. split; [exact IHt|lia].
    + destruct (StoreFacts.addNotification_held_result address y)
        as (f & Hf & Hle & _ & _ & Hres').
      assert (Hkept : f m0 ∈ f <$> notifications (store y)).
      { apply list_elem_of_fmap. by exists m0. }
      assert (Hsame : same_notification (f m0) n).
      { eapply StoreFacts.same_notification_trans; [apply Hf|exact IHsame]. }
      assert (Hold : ∀ t m, (t, m) ∈ prod_map Datatypes.id f <$> timers y → ref m ≠ ref n).
      { intros t m Hm. apply list_elem_of_fmap in Hm as ([t' m'] & [= -> ->] & Hm').
        destruct (Hf m') as [-> _]. by eapply IHt. }
      destruct (addNotification_held address y).1 as [n'|].
      * destruct Hres' as (Href' & _ & _ & -> & ->). split; [|split; [|lia]].
        -- exists (f m0). split; [|done]. apply elem_of_app. by left.
        -- intros t m Hm. apply elem_of_app in Hm as [Hm|Hm]; [by eapply Hold|].
           destruct (time n'); [|by apply elem_of_nil in Hm].
           apply list_elem_of_singleton in Hm. injection Hm as _ ->. lia.
      * destruct Hres' as [-> ->]. split; [by exists (f m0)|]. split; [exact Hold|lia].
    + split; [by exists m0|]. split; [exact IHt|cbn; lia].
    + split; [by exists m0|]. split; [exact IHt|cbn; lia].
    + destruct (StoreFacts.setState_queue state y Hstate) as (-> & -> & -> & _).
      split; [by exists m0|]. split; [exact IHt|exact IHo].
    + destruct (timers y !! i) as [[t m]|] eqn:Hi.
      2: { unfold timer_fires. rewrite Hi. split; [by exists m0|]. split; [exact IHt|exact IHo]. }
      destruct (StoreFacts.timer_fires_queue i y t m IHwf Hi) as (-> & -> & ->).
      split; [|split; [|exact IHo]].
      * exists m0. split; [|done]. apply StoreFacts.without_spec. split; [exact IHm|].
        intros Heq. apply (IHt t m); [by eapply list_elem_of_lookup_2|].
        destruct IHsame as [<- _]. done.
      * intros t' m' Hm'. apply (IHt t' m'). by eapply elem_of_delete_inv.
Qed.

Lemma untimed_notification_stays_witness :
  ∃ m,
    m ∈ notifications
          (store (timer_fires 0
                    (addNotification (FromString "y")
                       (addNotification
                          (FromPartial {| p_data := Some (Text "x"); p_level := None;
                                          p_time := Some None; p_closable := None;
                                          p_context := None |}) initialWorld).2).2))
    ∧ ref m = 0%nat ∧ time m = None.
Proof.
  destruct (proj2 (untimed_notification_stays
            (FromPartial {| p_data := Some (Text "x"); p_level := None;
                            p_time := Some None; p_closable := None;
                            p_context := None |})
            initialWorld
            {| ref := 0; id := 0; data := {| markup := Span "x"; key := Some 0%nat |};
               element := 1;
               level := "default"; time := None; closable := true; context := VNull |}
            (rtc_refl _ _) eq_refl eq_refl)
            (timer_fires 0
               (addNotification (FromString "y")
                  (addNotification
                     (FromPartial {| p_data := Some (Text "x"); p_level := None;
                                     p_time := Some None; p_closable := None;
                                     p_context := None |}) initialWorld).2).2))
    as [(m & Hm & Hsame) _].
  - eapply rtc_l; [apply (unattended_add (FromString "y"))|].
    apply rtc_once, (unattended_timer 0).
  - exists m. split; [exact Hm|]. destruct Hsame as (-> & -> & _). done.
Defined.

End QueueFacts.

(** ** Storage, login and lists *)

Module SessionFacts.
Import Api Session.

Ltac run_task :=
  unfold request, catch, mbind, Task_bind, bind, get, effect, setItem, removeItem,
    Session.ret, Session.throw, mret, Task_ret;
  cbn.

Lemma request_act {B} endpoint options (reply : FetchOutcome B) b :
  request endpoint options reply b
  = {| settled :=
         match reply with
         | NetworkFailure => Rejected FetchFailed
         | Responded resp =>
             if decide (400 ≤ status resp) then Rejected (RawResponse resp)
             else Resolved (parsed (body resp))
         end;
       browser := b;
       effects := [Fetched {| url := ApiStamped endpoint (clock b);
                              mode := Some "cors"; credentials := Some "omit";
                              sent_method := init_method options;
                              headers := sent_headers options b;
                              sent_body := init_body options |}] |}.
Proof.
  unfold sent_headers. run_task.
  destruct (credential b); rewrite ?app_nil_r;
    (destruct reply as [[code bd]|]; cbn; [|done]);
    (case_decide; cbn; [done|]); by destruct bd.
Qed.

(** X13. [request] sends one [fetch], stamped with the time, in CORS mode
    and without cookies. It sends the caller's headers first and adds
    [Authorization: Basic] with the stored credential exactly when a
    non-empty credential is stored. It touches neither the storage nor
    the cache, and it settles as the gateway of the module [Api]
    does. *)
Theorem request_authorizes_from_storage {B} endpoint options (reply : FetchOutcome B) b :
  ∃ f,
    effects (request endpoint options reply b) = [Fetched f]
    ∧ url f = ApiStamped endpoint (clock b)
    ∧ mode f = Some "cors" ∧ credentials f = Some "omit"
    ∧ sent_method f = init_method options ∧ sent_body f = init_body options
    ∧ (∀ auth, localStorage b !! auth_key = Some auth → auth ≠ "" →
         headers f = default [] (init_headers options) ++ [("Authorization", "Basic " +:+ auth)])
    ∧ (localStorage b !! auth_key = None ∨ localStorage b !! auth_key = Some "" →
         headers f = default [] (init_headers options))
    ∧ browser (request endpoint options reply b) = b
    ∧ ∀ r st, settled (request endpoint options reply b)
              = outcome (Api.request r reply st).
Proof.
  rewrite request_act. cbn. eexists. split; [reflexivity|]. cbn.
  do 5 (split; [reflexivity|]). unfold sent_headers, credential.
  split; [|split; [|split; [reflexivity|]]].
  - intros auth -> Hne. unfold truthy. by rewrite bool_decide_eq_true_2.
  - intros [->| ->]; cbn; by rewrite app_nil_r.
  - intros r st. by rewrite ApiFacts.request_outcome.
Qed.

Lemma request_authorizes_from_storage_witness :
  ∃ f,
    effects (addFeed "https://example.org/rss" NetworkFailure
               {| articles := empty_cache;
                  localStorage := {[auth_key := "dTpw"]}; clock := 7 |})
    = [Fetched f]
    ∧ headers f = [("Content-Type", "application/json"); ("Authorization", "Basic dTpw")].
Proof.
  destruct (request_authorizes_from_storage (B:=unit) "/feeds"
              {| init_method := Some POST;
                 init_headers := Some [("Content-Type", "application/json")];
                 init_body := FeedLink "https://example.org/rss" |}
              NetworkFailure
              {| articles := empty_cache; localStorage := {[auth_key := "dTpw"]}; clock := 7 |})
    as (f & Hf & _ & _ & _ & _ & _ & Hauth & _).
  exists f. split; [exact Hf|]. apply (Hauth "dTpw"); [reflexivity|discriminate].
Defined.

Section Login.
Context `{Surroundings}.

(** X14. [login] never rejects. When [btoa] accepts the credentials it sends
    one probe carrying them, resolves to whether the status is exactly
    200, and stores the credential in that case only; a failed login
    leaves the storage as it was, a credential stored earlier
    included. When [btoa] throws, nothing is sent. *)
Theorem login_stores_on_200_only {B} user password (reply : FetchOutcome B) b :
  (∀ auth, btoa (user +:+ ":" +:+ password) = Some auth →
     ∃ run, login (E:=Failure B) user password reply = Some run
       ∧ settled (run b)
         = Resolved (match reply with
                     | Responded resp => bool_decide (status resp = 200)
                     | NetworkFailure => false
                     end)
       ∧ localStorage (browser (run b))
         = (if settled (run b) is Resolved true
            then <[auth_key := auth]> (localStorage b) else localStorage b)
       ∧ articles (browser (run b)) = articles b
       ∧ ∃ f, effects (run b) = [Fetched f]
              ∧ url f = ApiPlain "/news/reload" ∧ sent_method f = Some PUT
              ∧ headers f = [("Authorization", "Basic " +:+ auth)])
  ∧ (btoa (user +:+ ":" +:+ password) = None →
     login (B:=B) (E:=Failure B) user password reply = None).
Proof.
  split.
  - intros auth Hauth. unfold login. rewrite Hauth. cbn. eexists. split; [reflexivity|].
    unfold loginViaHeader. run_task.
    destruct reply as [resp|]; cbn.
    + case_bool_decide; cbn; repeat split; eauto.
    + repeat split; eauto.
  - intros Hnone. unfold login. by rewrite Hnone.
Qed.

(** X15. Logging in and out, composed. After a login that resolved to
    [true] with a non-empty credential, the next [request] carries that
    credential; after [logout], [loginViaStorage] resolves to [false]
    without sending anything and the next [request] carries no
    credential. Without a stored credential [loginViaStorage] never
    reaches [retry]; with one, it retries the probe for that credential
    with a budget of 3 and a delay of 1000. *)
Theorem login_logout_round_trip {B} :
  (∀ user password auth (resp : Response B) run b,
     btoa (user +:+ ":" +:+ password) = Some auth → auth ≠ "" →
     login (E:=Failure B) user password (Responded resp) = Some run →
     status resp = 200 →
     credential (browser (run b)) = Some auth)
  ∧ (∀ b, credential (browser (logout (E:=Failure B) b)) = None
          ∧ loginViaStorage (B:=B) (E:=Failure B) (browser (logout (E:=Failure B) b))
            = NoCredential
          ∧ effects (logout (E:=Failure B) b) = []
          ∧ ∀ k, k ≠ auth_key →
                 localStorage (browser (logout (E:=Failure B) b)) !! k = localStorage b !! k)
  ∧ (∀ b auth, credential b = Some auth →
       loginViaStorage (B:=B) (E:=Failure B) b = Retry (loginViaHeader auth) 3 1000).
Proof.
  split; [|split].
  - intros user password auth resp run b Hauth Hne Hlogin H200.
    unfold login in Hlogin. rewrite Hauth in Hlogin. cbn in Hlogin.
    injection Hlogin as <-. unfold loginViaHeader. run_task.
    rewrite bool_decide_eq_true_2 by done. cbn.
    unfold credential. cbn. rewrite lookup_insert_eq.
    unfold truthy. by rewrite bool_decide_eq_true_2.
  - intros b. unfold logout, loginViaStorage, credential. run_task.
    rewrite lookup_delete_eq. repeat split. intros k Hk. by rewrite lookup_delete_ne.
  - intros b auth Hc. unfold loginViaStorage. by rewrite Hc.
Qed.

End Login.

Lemma login_stores_on_200_only_witness :
  is_Some (login (H:=example_surroundings) (B:=unit) (E:=Failure unit) "u" "p" NetworkFailure).
Proof.
  destruct (proj1 (login_stores_on_200_only (H:=example_surroundings) (B:=unit)
                     "u" "p" NetworkFailure
                     {| articles := empty_cache; localStorage := ∅; clock := 0 |})
              "u:p" eq_refl) as (run & Hrun & _).
  exists run. exact Hrun.
Defined.

Lemma login_logout_round_trip_witness :
  loginViaStorage (B:=unit) (E:=Failure unit)
    {| articles := empty_cache; localStorage := {[auth_key := "dTpw"]}; clock := 0 |}
  = Retry (loginViaHeader "dTpw") 3 1000.
Proof.
  apply (proj2 (proj2 (login_logout_round_trip (H:=example_surroundings) (B:=unit)))).
  reflexivity.
Defined.

Section Status.
Context `{Surroundings}.

(** X16. [getActiveArticle] and [getShowStartTime] never reject and never
    stay unsettled once the reply is in: a failed request, a status of
    400 or more, an empty body and a missing or empty field all resolve
    to [null]. Only [getShowStartTime] logs, and only when the request
    failed or the body was empty; neither touches the storage or the
    cache. *)
Theorem status_getters_resolve :
  (∀ reply b,
     settled (getActiveArticle reply b)
     = Resolved (match reply with
                 | Responded resp =>
                     if decide (400 ≤ status resp) then None
                     else match body resp with
                          | Json {| active_id := Some i |} => if truthy i then Some i else None
                          | _ => None
                          end
                 | NetworkFailure => None
                 end)
     ∧ browser (getActiveArticle reply b) = b
     ∧ Logged ∉ effects (getActiveArticle reply b))
  ∧ (∀ reply b,
       settled (getShowStartTime reply b)
       = Resolved (match reply with
                   | Responded resp =>
                       if decide (400 ≤ status resp) then None
                       else match body resp with
                            | Json {| started := Some s |} =>
                                if truthy s then Some (fromServerTime s) else None
                            | _ => None
                            end
                   | NetworkFailure => None
                   end)
       ∧ browser (getShowStartTime reply b) = b
       ∧ (Logged ∈ effects (getShowStartTime reply b)
          ↔ failed reply = true
            ∨ ∃ resp, reply = Responded resp ∧ parsed (body resp) = None)).
Proof.
  assert (Hnot : ∀ f, Logged ∉ [Fetched f]).
  { intros f Hin. apply list_elem_of_singleton in Hin. discriminate Hin. }
  assert (Hin : ∀ f, Logged ∈ [Fetched f; Logged]).
  { intros f. apply elem_of_cons. right. by apply list_elem_of_singleton. }
  split.
  - intros reply b. unfold getActiveArticle.
    unfold catch. unfold mbind, Task_bind, bind. rewrite request_act. cbn.
    destruct reply as [[code bd]|]; cbn; [|by repeat split].
    case_decide; cbn; [by repeat split|].
    destruct bd as [| |[[i|]]]; cbn; by repeat split.
  - intros reply b. unfold getShowStartTime.
    unfold catch. unfold mbind, Task_bind, bind. rewrite request_act. cbn.
    destruct reply as [[code bd]|]; cbn.
    + case_decide; cbn.
      * split; [done|]. split; [done|]. split; [intros _|by intros _].
        left. by apply bool_decide_eq_true_2.
      * destruct bd as [| |[[s|]]]; cbn; (split; [done|]); (split; [done|]).
        -- split; [intros _|by intros _]. right. by eexists.
        -- split; [intros _|by intros _]. right. by eexists.
        -- split; [intros Hl; by apply Hnot in Hl|].
           intros [Hf|(resp & [= <-] & Hp)]; [|done].
           apply bool_decide_eq_true_1 in Hf. done.
        -- split; [intros Hl; by apply Hnot in Hl|].
           intros [Hf|(resp & [= <-] & Hp)]; [|done].
           apply bool_decide_eq_true_1 in Hf. done.
    + split; [done|]. split; [done|]. split; [intros _; by left|by intros _].
Qed.

End Status.

Section Lists.
Context `{Platform}.

Lemma process_each_act {E} (l : list ArticleInit) b :
  process_each (E:=E) l b
  = {| settled := Resolved (imap (λ i init, processArticle (allocated (articles b) + i) init) l);
       browser := {| articles := {| articlesCache := articlesCache (articles b);
                                    articlesIdSlugMap := articlesIdSlugMap (articles b);
                                    allocated := allocated (articles b) + length l |};
                     localStorage := localStorage b;
                     clock := clock b |};
       effects := [] |}.
Proof.
  revert b. induction l as [|init l IH]; intros b.
  - cbn. rewrite Nat.add_0_r. by destruct b as [[]].
  - cbn [process_each]. unfold mbind, Task_bind, bind. cbn. rewrite IH. cbn.
    rewrite Nat.add_0_r. f_equal.
    + f_equal. f_equal. apply imap_ext. intros i x _. cbn. f_equal. lia.
    + f_equal. f_equal. lia.
Qed.

Lemma list_request_act endpoint reply b :
  (request endpoint no_options reply ≫= processArticles) b
  = {| settled :=
         match reply with
         | NetworkFailure => Rejected FetchFailed
         | Responded resp =>
             if decide (400 ≤ status resp) then Rejected (RawResponse resp)
             else match parsed (body resp) with
                  | Some l =>
                      Resolved (imap (λ i init,
                                        processArticle (allocated (articles b) + i) init) l)
                  | None => Rejected TypeError
                  end
         end;
       browser :=
         {| articles := {| articlesCache := articlesCache (articles b);
                           articlesIdSlugMap := articlesIdSlugMap (articles b);
                           allocated := allocated (articles b) + length (default [] (listed reply)) |};
            localStorage := localStorage b;
            clock := clock b |};
       effects := [Fetched {| url := ApiStamped endpoint (clock b);
                              mode := Some "cors"; credentials := Some "omit";
                              sent_method := None;
                              headers := sent_headers no_options b;
                              sent_body := Nothing |}] |}.
Proof.
  assert (Hsame : b = {| articles := {| articlesCache := articlesCache (articles b);
                           articlesIdSlugMap := articlesIdSlugMap (articles b);
                           allocated := allocated (articles b) + 0 |};
            localStorage := localStorage b; clock := clock b |}).
  { rewrite Nat.add_0_r. by destruct b as [[]]. }
  unfold mbind, Task_bind, bind. rewrite request_act. cbn. unfold listed.
  destruct reply as [[code bd]|]; cbn; [|by rewrite <- Hsame].
  case_decide; cbn; [by rewrite <- Hsame|].
  destruct bd as [| |l]; cbn; try by rewrite <- Hsame.
  by rewrite process_each_act.
Qed.

(** For the cache, a call that lists articles only creates objects. *)
Lemma lists_only_create reply b :
  articles (browser (getNews reply b)) = created (length (default [] (listed reply))) (articles b)
  ∧ articles (browser (getArchiveNews reply b))
    = created (length (default [] (listed reply))) (articles b)
  ∧ articles (browser (getDeletedNews reply b))
    = created (length (default [] (listed reply))) (articles b).
Proof.
  unfold getNews, getArchiveNews, getDeletedNews. by rewrite !list_request_act.
Qed.

(** X17. [getNews], [getArchiveNews] and [getDeletedNews] process the
    articles of the body in their order, each into an object of its
    own, and write neither mapping of the cache, so a listed article is
    still fetched when it is asked for by id. On an empty or unparsable
    body, which [request] resolves to [null], they reject with a
    [TypeError]. *)
Theorem lists_process_in_order_and_skip_the_cache reply b :
  (∀ l, listed reply = Some l →
     ∃ articles',
       settled (getNews reply b) = Resolved articles'
       ∧ length articles' = length l
       ∧ (∀ i init, l !! i = Some init →
            articles' !! i = Some (processArticle (allocated (articles b) + i) init)))
  ∧ (∀ resp, reply = Responded resp → status resp < 400 → parsed (body resp) = None →
       settled (getNews reply b) = Rejected TypeError)
  ∧ articlesCache (articles (browser (getNews reply b))) = articlesCache (articles b)
  ∧ articlesIdSlugMap (articles (browser (getNews reply b))) = articlesIdSlugMap (articles b)
  ∧ localStorage (browser (getNews reply b)) = localStorage b
  ∧ (∀ the_id reply',
       articlesIdSlugMap (articles b) !! the_id = None →
       head (events (getArticle the_id reply' (articles (browser (getNews reply b)))))
       = Some (Send (by_id the_id)))
  ∧ settled (getArchiveNews reply b) = settled (getNews reply b)
  ∧ settled (getDeletedNews reply b) = settled (getNews reply b)
  ∧ browser (getArchiveNews reply b) = browser (getNews reply b)
  ∧ browser (getDeletedNews reply b) = browser (getNews reply b).
Proof.
  unfold getNews, getArchiveNews, getDeletedNews. rewrite !list_request_act. cbn.
  split; [|split; [|do 3 (split; [reflexivity|]); split; [|by repeat split]]].
  - intros l Hl. unfold listed in Hl. destruct reply as [resp|]; [|discriminate].
    case_decide; [discriminate|]. rewrite Hl. eexists. split; [reflexivity|].
    split; [by rewrite length_imap|].
    intros i init Hi. by rewrite list_lookup_imap, Hi.
  - intros resp -> Hlt Hnone. case_decide; [lia|]. by rewrite Hnone.
  - intros the_id reply' Hmiss.
    match goal with |- context [getArticle the_id reply' ?st] => set (st' := st) end.
    assert (Hmiss' : articlesIdSlugMap st' !! the_id = None) by exact Hmiss.
    destruct (fetched reply') as [init|] eqn:Hf.
    + by rewrite (ApiFacts.getArticle_fetch the_id reply' init st' Hmiss' Hf).
    + by destruct (ApiFacts.getArticle_no_article the_id reply' st' Hmiss' Hf) as [_ ->].
Qed.

End Lists.

Lemma lists_process_in_order_and_skip_the_cache_witness :
  ∃ articles',
    settled (getNews (H:=example_platform)
               (Responded {| status := 200;
                             body := Json [example_article "1" "s" "T";
                                           example_article "2" "t" "U"] |})
               {| articles := empty_cache; localStorage := ∅; clock := 0 |})
    = Resolved articles'
    ∧ length articles' = 2%nat.
Proof.
  destruct (proj1 (lists_process_in_order_and_skip_the_cache (H:=example_platform)
              (Responded {| status := 200;
                            body := Json [example_article "1" "s" "T";
                                          example_article "2" "t" "U"] |})
              {| articles := empty_cache; localStorage := ∅; clock := 0 |})
              [example_article "1" "s" "T"; example_article "2" "t" "U"] eq_refl)
    as (articles' & Hs & Hl & _).
  exists articles'. split; [exact Hs|exact Hl].
Defined.

(** X18. [getPrepTopicsURL] rejects on a status of 400 or more, and with a
    [TypeError], not with the [Error] that carries the status text:
    that [Error] is returned as if it were the data. It resolves to
    [null] for an empty list and for a first element without a
    non-empty [url], and to that [url] otherwise. It asks the site
    itself, with no header and no time stamp. *)
Theorem getPrepTopicsURL_outcomes (reply : FetchOutcome (list PrepPost)) b :
  (∀ resp, reply = Responded resp → 400 ≤ status resp →
     settled (getPrepTopicsURL reply b) = Rejected PrepTypeError)
  ∧ (∀ resp posts, reply = Responded resp → status resp < 400 → body resp = Json posts →
       settled (getPrepTopicsURL reply b)
       = Resolved (post ← head posts; u ← post_url post; if truthy u then Some u else None))
  ∧ (∀ resp, reply = Responded resp → status resp < 400 → body resp = Unparsable →
       settled (getPrepTopicsURL reply b) = Rejected PrepSyntaxError)
  ∧ browser (getPrepTopicsURL reply b) = b
  ∧ ∃ f, effects (getPrepTopicsURL reply b) = [Fetched f]
         ∧ headers f = [] ∧ sent_method f = None
         ∧ url f = Absolute "https://radio-t.com/site-api/last/1?categories=prep".
Proof.
  unfold getPrepTopicsURL. run_task.
  split; [|split; [|split; [|split]]].
  - intros resp -> Hge. cbn. case_decide; [done|lia].
  - intros resp posts -> Hlt Hb. cbn. case_decide; [lia|]. rewrite Hb.
    destruct posts as [|[[u|]] posts]; by cbn.
  - intros resp -> Hlt Hb. cbn. case_decide; [lia|]. by rewrite Hb.
  - destruct reply as [[code bd]|]; cbn; [|done].
    case_decide; cbn; [done|]. destruct bd as [| |[|p l]]; by cbn.
  - exists {| url := Absolute "https://radio-t.com/site-api/last/1?categories=prep";
              mode := None; credentials := None; sent_method := None;
              headers := []; sent_body := Nothing |}.
    split; [|by repeat split].
    destruct reply as [[code bd]|]; cbn; [|done].
    case_decide; cbn; [done|]. destruct bd as [| |[|p l]]; by cbn.
Qed.

Lemma getPrepTopicsURL_outcomes_witness :
  settled (getPrepTopicsURL (Responded {| status := 503; body := Unparsable |})
             {| articles := empty_cache; localStorage := ∅; clock := 0 |})
  = Rejected PrepTypeError.
Proof.
  apply (proj1 (getPrepTopicsURL_outcomes _ _) {| status := 503; body := Unparsable |});
    [reflexivity|simpl; lia].
Defined.

Section Preferences.
Context `{Settings} `{Surroundings}.

Lemma first_Some {A} (l : list A) p x :
  first l p = Some x → x ∈ l ∧ p x = true.
Proof.
  induction l as [|y r IH]; cbn; [discriminate|].
  destruct (p y) eqn:Hy.
  - intros [= <-]. split; [left|done].
  - intros Hx. destruct (IH Hx). split; [by right|done].
Qed.

Lemma first_found {A} (l : list A) p x :
  x ∈ l → p x = true → (∀ y, y ∈ l → p y = true → y = x) → first l p = Some x.
Proof.
  induction l as [|y r IH]; intros Hin Hp Huniq; [by apply elem_of_nil in Hin|].
  cbn. destruct (p y) eqn:Hy.
  - f_equal. apply Huniq; [left|done].
  - apply elem_of_cons in Hin as [->|Hin]; [congruence|].
    apply IH; [done|done|]. intros z Hz. apply Huniq. by right.
Qed.

Lemma stored_choice_spec key choices b :
  (∀ c, stored_choice key choices b = Some c → c ∈ choices)
  ∧ (stored_choice key choices b = None ↔ choices = [])
  ∧ (∀ c, stored_choice key choices b = Some c →
          localStorage b !! key = Some (title c) ∨ head choices = Some c)
  ∧ (localStorage b !! key = None → stored_choice key choices b = head choices)
  ∧ (∀ s, localStorage b !! key = Some s → (∀ c, c ∈ choices → title c ≠ s) →
          stored_choice key choices b = head choices)
  ∧ (∀ c E, c ∈ choices → (∀ d, d ∈ choices → title d = title c → d = c) →
       stored_choice key choices (browser (setItem (E:=E) key (title c) b)) = Some c).
Proof.
  unfold stored_choice. split; [|split; [|split; [|split; [|split]]]].
  - intros c. destruct (first choices _) as [x|] eqn:Hx.
    + intros [= <-]. by apply first_Some in Hx as [Hx _].
    + intros Hc. by apply head_Some_elem_of.
  - destruct (first choices _) as [x|] eqn:Hx.
    + split; [discriminate|]. intros ->. discriminate.
    + by rewrite head_None.
  - intros c. destruct (first choices _) as [x|] eqn:Hx.
    + intros [= <-]. apply first_Some in Hx as [_ Hp].
      apply bool_decide_eq_true_1 in Hp. by left.
    + by right.
  - intros Hnone. rewrite Hnone.
    destruct (first choices _) as [x|] eqn:Hx; [|done].
    apply first_Some in Hx as [_ Hp]. apply bool_decide_eq_true_1 in Hp. discriminate.
  - intros s Hs Hno. rewrite Hs.
    destruct (first choices _) as [x|] eqn:Hx; [|done].
    apply first_Some in Hx as [Hin Hp]. apply bool_decide_eq_true_1 in Hp.
    injection Hp as Hp. by destruct (Hno x Hin).
  - intros c E Hc Huniq. cbn. rewrite lookup_insert_eq.
    rewrite (first_found choices _ c); [done|done|by apply bool_decide_eq_true_2|].
    intros d Hd Hp. apply bool_decide_eq_true_1 in Hp. injection Hp as Hp. by apply Huniq.
Qed.

(** X19. The stored preferences. Each of [getRecentness], [getPostLevel]
    and [getSorting] answers with one of the options of [settings],
    whatever the storage holds, and with the first option when nothing
    is stored under its key and when the stored title is the title of
    no option. After [setRecentness(c)] for an option [c] whose title no
    other option shares, [getRecentness()] is [c]; likewise for the
    other two. *)
Theorem preferences_round_trip b :
  ((∀ c, getRecentness b = Some c → c ∈ postRecentness)
   ∧ (localStorage b !! "recentness" = None → getRecentness b = head postRecentness)
   ∧ (∀ s, localStorage b !! "recentness" = Some s →
           (∀ c, c ∈ postRecentness → title c ≠ s) →
           getRecentness b = head postRecentness)
   ∧ (∀ c E, c ∈ postRecentness →
        (∀ d, d ∈ postRecentness → title d = title c → d = c) →
        getRecentness (browser (setRecentness (E:=E) c b)) = Some c))
  ∧ ((∀ c, getPostLevel b = Some c → c ∈ postLevels)
     ∧ (localStorage b !! "postLevel" = None → getPostLevel b = head postLevels)
     ∧ (∀ s, localStorage b !! "postLevel" = Some s →
             (∀ c, c ∈ postLevels → title c ≠ s) →
             getPostLevel b = head postLevels)
     ∧ (∀ c E, c ∈ postLevels →
          (∀ d, d ∈ postLevels → title d = title c → d = c) →
          getPostLevel (browser (setPostLevel (E:=E) c b)) = Some c))
  ∧ ((∀ c, getSorting b = Some c → c ∈ sortings)
     ∧ (localStorage b !! "sorting" = None → getSorting b = head sortings)
     ∧ (∀ s, localStorage b !! "sorting" = Some s →
             (∀ c, c ∈ sortings → title c ≠ s) →
             getSorting b = head sortings)
     ∧ (∀ c E, c ∈ sortings →
          (∀ d, d ∈ sortings → title d = title c → d = c) →
          getSorting (browser (setSorting (E:=E) c b)) = Some c)).
Proof.
  unfold getRecentness, getPostLevel, getSorting, setRecentness, setPostLevel, setSorting.
  split; [|split].
  - destruct (stored_choice_spec "recentness" postRecentness b)
      as (Hin & _ & _ & Hnone & Hunknown & Hset). by repeat split.
  - destruct (stored_choice_spec "postLevel" postLevels b)
      as (Hin & _ & _ & Hnone & Hunknown & Hset). by repeat split.
  - destruct (stored_choice_spec "sorting" sortings b)
      as (Hin & _ & _ & Hnone & Hunknown & Hset). by repeat split.
Qed.

(** X20. The stored theme. [getTheme] answers with whatever string is stored
    under ["theme"], without checking that it is a theme, and with the
    preference of the system when nothing is stored; after
    [setTheme(v)], [getTheme()] is [v], and the other keys of the
    storage are as before. *)
Theorem theme_round_trip b :
  (∀ v E, getTheme (browser (Session.setTheme (E:=E) v b)) = v)
  ∧ (∀ v E k, k ≠ "theme" →
       localStorage (browser (Session.setTheme (E:=E) v b)) !! k = localStorage b !! k)
  ∧ (∀ s, localStorage b !! "theme" = Some s → getTheme b = s)
  ∧ (localStorage b !! "theme" = None →
     getTheme b = if prefers_dark then "night" else "day").
Proof.
  unfold getTheme, Session.setTheme. split; [|split; [|split]].
  - intros v E. cbn. by rewrite lookup_insert_eq.
  - intros v E k Hk. cbn. by rewrite lookup_insert_ne.
  - by intros s ->.
  - by intros ->.
Qed.

End Preferences.

Lemma preferences_round_trip_witness :
  getRecentness (H:=example_settings)
    (browser (setRecentness (E:=unit) {| title := "week"; details := 7 |}
                {| articles := empty_cache; localStorage := ∅; clock := 0 |}))
  = Some {| title := "week"; details := 7 |}
  ∧ getSorting (H:=example_settings)
      {| articles := empty_cache; localStorage := {["sorting" := "newest"]}; clock := 0 |}
    = Some {| title := "priority"; details := 0 |}.
Proof.
  split.
  - apply (proj2 (proj2 (proj2 (proj1 (preferences_round_trip (H:=example_settings) _))))).
    + apply elem_of_cons. right. apply elem_of_cons. by left.
    + intros d Hd Ht.
      apply elem_of_cons in Hd as [->|Hd]; [discriminate|].
      apply elem_of_cons in Hd as [->|Hd]; [reflexivity|].
      by apply elem_of_nil in Hd.
  - apply (proj1 (proj2 (proj2 (proj2 (proj2
             (preferences_round_trip (H:=example_settings)
                {| articles := empty_cache; localStorage := {["sorting" := "newest"]};
                   clock := 0 |}))))) "newest").
    + reflexivity.
    + intros c Hc. apply list_elem_of_singleton in Hc as ->. discriminate.
Defined.

Lemma theme_round_trip_witness :
  getTheme (H:=example_surroundings)
    {| articles := empty_cache; localStorage := {["theme" := "sepia"]}; clock := 0 |}
  = "sepia".
Proof.
  apply (proj1 (proj2 (proj2 (theme_round_trip (H0:=example_surroundings) _)))).
  reflexivity.
Defined.

End SessionFacts.

(** ** The theme switch *)

Module GuardFacts.
Import Guard.

Lemma step_guarded p p' : step p p' → guarded p → guarded p'.
Proof.
  unfold guarded. intros Hstep [Hc Hs].
  destruct Hstep as [theme [] p|p p' Hpass].
  - done.
  - cbn. rewrite length_app. cbn. split; [lia|]. split; [lia|done].
  - destruct Hpass as [p|p|p w _]; [| |done].
    + unfold apply_fires. destruct (applying p) as [|theme later] eqn:Ha.
      { by rewrite Ha. }
      cbn in *. split; [lia|done].
    + unfold settle_fires. destruct (settling p) as [|n] eqn:Hn.
      { by rewrite Hn. }
      cbn in *. split; [lia|]. case_decide; split; try done; try lia.
      intros _. apply Hs. lia.
Qed.

(** X21. The guard of the transition. In every page that [setTheme] and its
    timers lead to, [themeCounter] is the number of timers that have
    not fired, it is never negative, and the class
    ["switch-transition"] is on exactly while one is pending: an
    earlier switch that settles does not take the class away from a
    later one. *)
Theorem transition_guard p :
  reachable p →
  themeCounter p = Z.of_nat (length (applying p) + settling p)
  ∧ 0 ≤ themeCounter p
  ∧ (switch_transition p = true ↔ (applying p ≠ [] ∨ settling p ≠ 0%nat)).
Proof.
  intros Hp.
  assert (Hg : guarded p).
  { revert p Hp. apply rtc_ind_r; [by split|].
    intros y z _ Hstep IH. by eapply step_guarded. }
  destruct Hg as [Hc Hs]. split; [exact Hc|]. split; [lia|].
  split.
  - intros Hsw. apply Hs in Hsw. destruct (applying p); [right|by left].
    cbn in Hc. lia.
  - intros Hor. apply Hs. destruct Hor as [Hn|Hn].
    + destruct (applying p); [done|]. cbn in Hc. lia.
    + lia.
Qed.

Lemma transition_guard_witness :
  switch_transition (settle_fires (setTheme Store.night false
                                     (apply_fires (setTheme Store.day false initialPage))))
  = true.
Proof.
  apply (transition_guard
           (settle_fires (setTheme Store.night false
                            (apply_fires (setTheme Store.day false initialPage))))).
  - eapply rtc_l; [apply (step_setTheme Store.day false)|].
    eapply rtc_l; [apply step_passes, passes_apply|].
    eapply rtc_l; [apply (step_setTheme Store.night false)|].
    apply rtc_once. apply step_passes, passes_settle.
  - left. discriminate.
Defined.

Lemma store_step_theme w w' :
  Store.queue_step w w' → Store.theme (Store.store w') = Store.theme (Store.store w).
Proof.
  destruct 1 as [input w|address w Hheld|o w Ho|e w|n w|c w|i w].
  - destruct input as [s|q|producer]; unfold Store.addNotification, Store.createNotification.
    + by cbn.
    + cbn. destruct (Store.p_data q) as [[s|e]|]; cbn;
        [destruct (Store.p_time q) as [[t|]|]|destruct (Store.p_time q) as [[t|]|]|];
        by cbn.
    + cbn. destruct (Store.p_data (producer (Store.objects w))) as [[s|e]|]; cbn;
        [destruct (Store.p_time (producer (Store.objects w))) as [[t|]|]
        |destruct (Store.p_time (producer (Store.objects w))) as [[t|]|]|];
        by cbn.
  - by destruct (StoreFacts.addNotification_held_result address w) as (f & _ & _ & Hth & _).
  - done.
  - done.
  - unfold Store.removeNotification, Store.dispatch. cbn.
    by destruct (Store.indexOf _ _).
  - done.
  - unfold Store.timer_fires. destruct (Store.timers w !! i) as [[t n]|]; [|done].
    unfold Store.dispatch. cbn. by destruct (Store.indexOf _ _).
Qed.

Lemma passes_awaited p p' :
  passes p p' →
  awaited p' = awaited p
  ∧ Store.theme (Store.store (world p')) = Store.theme (Store.store (world p)).
Proof.
  unfold awaited. destruct 1 as [p|p|p w Hw].
  - unfold apply_fires. destruct (applying p) as [|theme later] eqn:Ha.
    { by rewrite Ha. }
    cbn [applying dataset_theme world]. split; [|done].
    destruct later as [|theme' later]; [done|]. rewrite last_cons_cons.
    destruct (last (theme' :: later)) eqn:Hl; [done|]. by apply last_None in Hl.
  - unfold settle_fires. by destruct (settling p).
  - cbn. split; [done|]. by apply store_step_theme.
Qed.

(** X22. A switch takes effect. After [setTheme(theme)] without [immediate],
    the store holds the theme at once, and whatever timers fire and
    whatever happens to the notifications, as soon as no timer of 10 ms
    is pending the document has that theme too. *)
Theorem switch_takes_effect theme p p' :
  rtc passes (setTheme theme false p) p' →
  Store.theme (Store.store (world p')) = theme
  ∧ (applying p' = [] → dataset_theme p' = Some theme).
Proof.
  intros Hsteps.
  enough (awaited p' = Some theme ∧ Store.theme (Store.store (world p')) = theme) as [Ha Ht].
  { split; [exact Ht|]. intros Hnil. unfold awaited in Ha. by rewrite Hnil in Ha. }
  revert p' Hsteps. apply rtc_ind_r.
  - split; [|done]. unfold awaited. cbn. by rewrite last_snoc.
  - intros y z _ Hpass [IHa IHt]. destruct (passes_awaited y z Hpass) as [-> ->]. done.
Qed.

Lemma switch_takes_effect_witness :
  Store.theme (Store.store (world (apply_fires (setTheme Store.night false initialPage))))
  = Store.night.
Proof.
  apply (switch_takes_effect Store.night initialPage).
  apply rtc_once. apply passes_apply.
Defined.

(** X23. An immediate switch does not cancel a transition under way. When
    [setTheme(newer, true)] is called while the timer of an earlier
    [setTheme(older)] is pending, that timer still applies the older
    theme: the document ends with the older theme and the store with
    the newer one. *)
Theorem immediate_switch_is_overridden older newer p :
  applying p = [] →
  let p' := apply_fires (setTheme newer true (setTheme older false p)) in
  dataset_theme (setTheme newer true (setTheme older false p)) = Some newer
  ∧ dataset_theme p' = Some older
  ∧ Store.theme (Store.store (world p')) = newer
  ∧ applying p' = [].
Proof. intros Hnil. cbv zeta. unfold apply_fires. cbn. rewrite Hnil. by cbn. Qed.

Lemma immediate_switch_is_overridden_witness :
  dataset_theme (apply_fires (setTheme Store.day true (setTheme Store.night false initialPage)))
  = Some Store.night.
Proof.
  apply (immediate_switch_is_overridden Store.night Store.day initialPage). reflexivity.
Defined.

End GuardFacts.

(** ** The notification list *)

Module ViewFacts.
Import Store View Terms.

Lemma filter_fmap {A B} (f : A → B) (P : B → Prop) `{∀ y, Decision (P y)} (l : list A) :
  filter P (f <$> l) = f <$> filter (λ x, P (f x)) l.
Proof.
  induction l as [|x l IH]; [done|]. rewrite fmap_cons, !filter_cons, IH.
  by case_decide.
Qed.

Lemma filter_agree {A} (P Q : A → Prop) `{∀ x, Decision (P x)} `{∀ x, Decision (Q x)}
    (l : list A) :
  (∀ x, x ∈ l → P x ↔ Q x) → filter P l = filter Q l.
Proof.
  induction l as [|x l IH]; intros Hagree; [done|].
  rewrite !filter_cons, IH by (intros y Hy; apply Hagree; by right).
  destruct (Hagree x ltac:(left)). repeat case_decide; tauto.
Qed.

Lemma increasing_NoDup (l : list nat) : StronglySorted lt l → NoDup l.
Proof.
  induction 1 as [|x l _ IH Hx]; constructor; [|done].
  intros Hin. rewrite Forall_forall in Hx. specialize (Hx x Hin). lia.
Qed.

Lemma same_object_same_id w m n :
  reachable_with_literals w → m ∈ notifications (store w) → n ∈ notifications (store w) →
  ref m = ref n ↔ id m = id n.
Proof.
  intros Hw Hm Hn.
  pose proof (StoreFacts.reachable_well_formed w (StoreFacts.literal_steps_steps _ _ Hw))
    as [Hnd _ _].
  pose proof (QueueFacts.reachable_ids_increasing w Hw) as [Hs _ _].
  apply list_elem_of_lookup in Hm as [i Hi]. apply list_elem_of_lookup in Hn as [j Hj].
  assert (Hsame : i = j → m = n) by (intros ->; congruence).
  split; intros Heq.
  - rewrite (Hsame); [done|].
    apply (NoDup_lookup (ref <$> notifications (store w)) i j (ref m) Hnd);
      rewrite list_lookup_fmap; [by rewrite Hi|by rewrite Hj, Heq].
  - rewrite (Hsame); [done|].
    pose proof (increasing_NoDup _ Hs) as Hnd'.
    apply (NoDup_lookup (id <$> notifications (store w)) i j (id m) Hnd');
      rewrite list_lookup_fmap; [by rewrite Hi|by rewrite Hj, Heq].
Qed.

(** X24. The list shows the newest notification first, one item for each
    queued notification. As long as every notification is added from a
    string, an object literal or a producer, as the calls in the header
    are, the keys of the items decrease down the list and so are all
    different. They are not when an object is passed to
    [addNotification] a second time: the notification returned for
    ["x"], added again, is shown twice under the key 1. *)
Theorem notifications_render_newest_first :
  (∀ w, length (Notifications (Some (notifications (store w))))
        = length (notifications (store w)))
  ∧ (∀ w, reachable_with_literals w →
       (∀ i j a b,
          Notifications (Some (notifications (store w))) !! i = Some a →
          Notifications (Some (notifications (store w))) !! j = Some b →
          (i < j)%nat → (item_key b < item_key a)%nat)
       ∧ NoDup (item_key <$> Notifications (Some (notifications (store w)))))
  ∧ (reachable readded_example
     ∧ item_key <$> Notifications (Some (notifications (store readded_example)))
       = [1; 1]%nat).
Proof.
  split; [|split; [|split; [apply StoreFacts.readded_reachable|done]]].
  { intros w. cbn [Notifications]. by rewrite length_fmap, length_reverse. }
  intros w Hw. pose proof (QueueFacts.reachable_ids_increasing w Hw) as [Hs _ _].
  set (l := notifications (store w)) in *. clearbody l. cbn [Notifications].
  assert (Horder : ∀ i j a b,
            (render <$> reverse l) !! i = Some a → (render <$> reverse l) !! j = Some b →
            (i < j)%nat → (item_key b < item_key a)%nat).
  { intros i j a b Ha Hb Hlt.
    rewrite list_lookup_fmap in Ha, Hb.
    destruct (reverse l !! i) as [m|] eqn:Hm; [|discriminate].
    destruct (reverse l !! j) as [n|] eqn:Hn; [|discriminate].
    injection Ha as <-. injection Hb as <-. cbn.
    apply reverse_lookup_Some in Hm as [Hm Hi]. apply reverse_lookup_Some in Hn as [Hn Hj].
    assert (Hn' : n ∈ take (length l - S i) l).
    { apply (list_elem_of_lookup_2 _ (length l - S j)).
      rewrite lookup_take_lt by lia. exact Hn. }
    rewrite <- (take_drop_middle _ _ _ Hm), fmap_app, fmap_cons in Hs.
    apply (StronglySorted_app_1_elem_of _ _ _ (id n) (id m)) in Hs; [done| |by left].
    apply list_elem_of_fmap. by exists n. }
  split; [exact Horder|].
  apply NoDup_alt. intros i j k Hi Hj.
  rewrite list_lookup_fmap in Hi, Hj.
  destruct (_ !! i) as [a|] eqn:Ha; [|discriminate].
  destruct (_ !! j) as [b|] eqn:Hb; [|discriminate].
  injection Hi as <-. injection Hj as Heq.
  destruct (Nat.lt_trichotomy i j) as [Hlt|[->|Hlt]]; [|done|].
  - pose proof (Horder i j a b Ha Hb Hlt). lia.
  - pose proof (Horder j i b a Hb Ha Hlt). lia.
Qed.

Lemma notifications_render_newest_first_witness :
  ∃ a b,
    Notifications (Some (notifications
      (store (addNotification (FromString "second")
                (addNotification (FromString "first") initialWorld).2).2)))
    = [a; b]
    ∧ content a = {| markup := Span "second"; key := Some 1%nat |}
    ∧ (item_key b < item_key a)%nat.
Proof.
  eexists _, _. split; [reflexivity|]. split; [reflexivity|].
  refine (proj1 (proj1 (proj2 notifications_render_newest_first)
            (addNotification (FromString "second")
               (addNotification (FromString "first") initialWorld).2).2 _)
            0%nat 1%nat _ _ _ _ _); [|reflexivity|reflexivity|lia].
  eapply rtc_l; [apply (literal_add (FromString "first"))|].
  apply rtc_once, (literal_add (FromString "second")).
Defined.

(** X25. The close button. A click on the close button of a listed item
    takes the notification object of that item, and no other, out of
    the queue, whatever has been called before, and leaves the rest in
    their order; an item without a close button does nothing when
    clicked. As long as every notification is added from a string, an
    object literal or a producer, the items that stay are those with
    another key. They are not when an object is passed to
    [addNotification] a second time: of the two items shown for the
    notification returned for ["x"] and added again, a click on the
    upper one leaves the lower one, which has the same key. *)
Theorem close_button_removes_its_item :
  (∀ w item n, reachable w →
     item ∈ Notifications (Some (notifications (store w))) → close item = Some n →
     n ∈ notifications (store w)
     ∧ notifications (store (click item w)) = without n (notifications (store w))
     ∧ absent n (notifications (store (click item w))))
  ∧ (∀ w item, close item = None → click item w = w)
  ∧ (∀ w item, reachable_with_literals w →
       item ∈ Notifications (Some (notifications (store w))) →
       Notifications (Some (notifications (store (click item w))))
       = (if close item is Some _
          then filter (λ other, item_key other ≠ item_key item)
                 (Notifications (Some (notifications (store w))))
          else Notifications (Some (notifications (store w)))))
  ∧ (reachable readded_example
     ∧ ∃ upper lower,
         Notifications (Some (notifications (store readded_example))) = [upper; lower]
         ∧ item_key upper = item_key lower
         ∧ Notifications (Some (notifications (store (click upper readded_example))))
           = [lower]).
Proof.
  split; [|split; [|split]].
  - intros w item n Hw Hitem Hclose. cbn [Notifications] in Hitem.
    apply list_elem_of_fmap in Hitem as (m & -> & Hm).
    rewrite elem_of_reverse in Hm. unfold click. rewrite Hclose.
    cbn [render close] in Hclose. destruct (closable m); [|discriminate].
    injection Hclose as <-. split; [exact Hm|].
    pose proof (StoreFacts.reachable_well_formed w Hw) as [Hnd _ _].
    unfold removeNotification, dispatch. cbn [store].
    rewrite StoreFacts.rootReducer_remove by exact Hnd.
    split; [reflexivity|apply StoreFacts.absent_without].
  - intros w item Hclose. unfold click. by rewrite Hclose.
  - intros w item Hw Hitem. cbn [Notifications] in *.
    apply list_elem_of_fmap in Hitem as (n & -> & Hn).
    rewrite elem_of_reverse in Hn.
    unfold click. cbn [render close item_key]. destruct (closable n); [|done].
    pose proof (StoreFacts.reachable_well_formed w (StoreFacts.literal_steps_steps _ _ Hw))
      as [Hnd _ _].
    unfold removeNotification, dispatch. cbn [store].
    rewrite StoreFacts.rootReducer_remove by exact Hnd. unfold without.
    rewrite <- filter_reverse, filter_fmap. f_equal.
    apply filter_agree. intros m Hm. rewrite elem_of_reverse in Hm. cbn.
    by rewrite (same_object_same_id w m n Hw Hm Hn).
  - split; [apply StoreFacts.readded_reachable|]. by eexists _, _.
Qed.

Lemma close_button_removes_its_item_witness :
  Notifications (Some (notifications
     (store (click (render (from_string "first" initialWorld))
               (addNotification (FromString "second")
                  (addNotification (FromString "first") initialWorld).2).2))))
  = [render (from_string "second" (addNotification (FromString "first") initialWorld).2)].
Proof.
  rewrite (proj1 (proj2 (proj2 close_button_removes_its_item))
             (addNotification (FromString "second")
                (addNotification (FromString "first") initialWorld).2).2
             (render (from_string "first" initialWorld))).
  - reflexivity.
  - eapply rtc_l; [apply (literal_add (FromString "first"))|].
    apply rtc_once, (literal_add (FromString "second")).
  - by apply (list_elem_of_lookup_2 _ 1%nat).
Defined.

End ViewFacts.

(** ** The header and the login form *)

Module ShellFacts.
Import Session Shell.

Lemma logout_clears c m t :
  credential {| articles := c; localStorage := delete auth_key m; clock := t |} = None.
Proof. unfold credential. cbn. by rewrite lookup_delete_eq. Qed.

(** X26. [Head.update()] always ends with exactly one new notification at the
    end of the queue: of level "default" when the reload went through
    and of level "error", after the error has been logged, when it
    failed. Either one is dismissed after 3000 and can be closed. The
    reload is one stamped [PUT /news/reload]; the storage is left as it
    is. *)
Theorem head_update_notifies reply a :
  ∃ n f,
    Store.notifications (Store.store (world (Head_update reply a).1))
    = Store.notifications (Store.store (world a)) ++ [n]
    ∧ Store.level n = (if Api.failed reply then "error" else "default")
    ∧ Store.time n = Some 3000 ∧ Store.closable n = true
    ∧ Store.context n = Store.VNull
    ∧ Store.timers (world (Head_update reply a).1)
      = Store.timers (world a) ++ [(3000, n)]
    ∧ (Head_update reply a).2
      = Fetched f :: (if Api.failed reply then [Logged] else [])
    ∧ url f = ApiStamped "/news/reload" (clock (api a))
    ∧ sent_method f = Some Api.PUT
    ∧ api (Head_update reply a).1 = api a.
Proof.
  unfold Head_update, update. rewrite SessionFacts.request_act. cbn.
  destruct reply as [[code bd]|]; cbn.
  - case_decide; cbn.
    + rewrite bool_decide_eq_true_2 by done. eexists _, _. by repeat split.
    + rewrite bool_decide_eq_false_2 by done. eexists _, _. by repeat split.
  - eexists _, _. by repeat split.
Qed.

Section SignIn.
Context `{Surroundings}.

(** X27. Signing in and out. A submitted form sends one probe and logs
    nothing. When the probe answers 200 the user becomes an admin, the
    form is left and the credential is in the storage; any other
    answer, and a failed request, leave the store and the storage as
    they are and count one refusal. [Head.logout()] afterwards clears
    both the flag and the credential. Neither touches the
    notifications. *)
Theorem sign_in_and_out reply form a auth :
  btoa (user form +:+ ":" +:+ password form) = Some auth → auth ≠ "" →
  ∃ form' a' f,
    onSubmit reply form a = Some (form', a', [Fetched f])
    ∧ headers f = [("Authorization", "Basic " +:+ auth)]
    ∧ (∀ resp, reply = Api.Responded resp → Api.status resp = 200 →
         Store.isAdmin (Store.store (world a')) = true
         ∧ loggedIn form' = true ∧ denied form' = denied form
         ∧ credential (api a') = Some auth)
    ∧ ((∀ resp, reply = Api.Responded resp → Api.status resp ≠ 200) →
         form' = refused form ∧ world a' = world a
         ∧ localStorage (api a') = localStorage (api a))
    ∧ Store.notifications (Store.store (world a'))
      = Store.notifications (Store.store (world a))
    ∧ Store.isAdmin (Store.store (world (Head_logout a'))) = false
    ∧ credential (api (Head_logout a')) = None
    ∧ Store.notifications (Store.store (world (Head_logout a')))
      = Store.notifications (Store.store (world a)).
Proof.
  intros Hauth Hne. unfold onSubmit, login. rewrite Hauth. cbn.
  unfold loginViaHeader. SessionFacts.run_task.
  destruct reply as [resp|]; cbn.
  - case_bool_decide as H200; cbn.
    + eexists _, _, _. split; [reflexivity|]. cbn. split; [done|].
      split.
      { intros _ _ _. repeat split. unfold credential. cbn.
        rewrite lookup_insert_eq. unfold truthy.
        by rewrite bool_decide_eq_true_2. }
      split; [intros Hno; by destruct (Hno resp)|].
      repeat split. unfold Head_logout. cbn. apply logout_clears.
    + eexists _, _, _. split; [reflexivity|]. cbn. split; [done|].
      split; [by intros resp' [= <-] ?|].
      split; [done|].
      repeat split. unfold Head_logout. cbn. apply logout_clears.
  - eexists _, _, _. split; [reflexivity|]. cbn. split; [done|].
    split; [done|]. split; [done|].
    repeat split. unfold Head_logout. cbn. apply logout_clears.
Qed.

End SignIn.

Lemma sign_in_and_out_witness :
  ∃ form' a' f,
    onSubmit (H:=example_surroundings)
      (Api.Responded {| Api.status := 200; Api.body := Api.JsonNull (B:=unit) |})
      {| user := "u"; password := "p"; denied := 0; loggedIn := false; cooling := 0 |}
      {| api := {| articles := Api.empty_cache; localStorage := ∅; clock := 0 |};
         world := Store.initialWorld |}
    = Some (form', a', [Fetched f])
    ∧ credential (api a') = Some "u:p".
Proof.
  destruct (sign_in_and_out (H:=example_surroundings)
              (Api.Responded {| Api.status := 200; Api.body := Api.JsonNull (B:=unit) |})
              {| user := "u"; password := "p"; denied := 0; loggedIn := false;
                 cooling := 0 |}
              {| api := {| articles := Api.empty_cache; localStorage := ∅; clock := 0 |};
                 world := Store.initialWorld |}
              "u:p" eq_refl ltac:(discriminate))
    as (form' & a' & f & Hrun & _ & Hok & _).
  exists form', a', f. split; [exact Hrun|].
  by destruct (Hok _ eq_refl eq_refl) as (_ & _ & _ & ?).
Defined.


(** X28. The refusal counter of the form counts the timers that have not
    fired: from the initial form on, whatever is refused, typed or
    timed out, [denied] is the number of pending timers. So the
    counter is never negative, the clamp at 0 is never used, and "You
    shall not pass!" is shown exactly while a timer is pending. *)
Theorem denied_counts_pending_timers form :
  rtc form_step initialForm form →
  denied form = Z.of_nat (cooling form)
  ∧ (0 < denied form ↔ cooling form ≠ O)
  ∧ denied (cooled form) = Z.max 0 (denied form - 1)
  ∧ (cooling form ≠ O → denied (cooled form) = denied form - 1).
Proof.
  intros Hr.
  assert (Hd : denied form = Z.of_nat (cooling form)).
  { revert form Hr. apply rtc_ind_r; [done|].
    intros f g _ Hstep IH. destruct Hstep; cbn.
    - lia.
    - unfold cooled. destruct (cooling form) eqn:Hc; cbn; [lia|].
      case_decide; lia.
    - lia. }
  split; [done|]. split; [lia|].
  unfold cooled. destruct (cooling form) eqn:Hc; cbn.
  - split; [lia|done].
  - case_decide; lia.
Qed.

Lemma denied_counts_pending_timers_witness :
  denied (refused (refused initialForm)) = 2
  ∧ denied (cooled (refused (refused initialForm))) = 1.
Proof.
  destruct (denied_counts_pending_timers (refused (refused initialForm)))
    as (Hd & _ & _ & Hc).
  - eapply rtc_l; [apply form_refused|]. eapply rtc_l; [apply form_refused|]. done.
  - split; [exact Hd|]. by rewrite Hc.
Defined.

End ShellFacts.
